(** * ProScrape: the crawl-and-extraction engine of [scrape.py]

    A shallow embedding of [ScrapingWorker] (the safety gate, the
    fetch/paginate loop, the extraction heuristics and the job runner)
    and the properties of it that the specification states.

    Layout: Part I holds the definitions, in the order of the source
    file; Part II holds the lemmas and theorems.

    The libraries the program calls (BeautifulSoup, urllib, re, json,
    socket, ipaddress, requests, robotparser) are interfaces here: type
    classes whose operations the engine is written against.  Every
    theorem of Part II holds for all implementations of them.  A small
    concrete implementation ([Html], [Web]) is given to run the engine
    on explicit pages.

    Conventions.  A library call that can raise returns an [option]
    where the program catches the exception ([robots_read],
    [gethostbyname], [requests_get], [json_loads]); the calls on a parsed
    page ([select], [find_all], [urljoin], ...) are total: they stand
    for the calls on the selectors and references that the library
    accepts, and no theorem speaks of a selector that does not compile
    or of a reference that [urljoin] rejects.  Strings hold Python text
    in its UTF-8 encoding; [len] and slices count characters, not bytes
    ([py_len], [str_take]).  The database is a finite map; the one
    statement that fails is an INSERT ([create_scrape_job], [register]).
    The fields of a request have the types of the data model (a budget
    is an integer or absent).  [time.sleep] and the request headers have
    no counterpart. *)

From stdpp Require Import prelude strings gmap.
From Stdlib Require Import ZArith Ascii.

Set Warnings "-register-all".
Open Scope string_scope.
Open Scope list_scope.

(* ================================================================= *)
(** * Part I: definitions *)
(* ================================================================= *)

(** ** Python values *)

(** Truth value of a list ([if results:], [if not headers:]). *)
Definition truthy {A} (l : list A) : bool :=
match l with [] => false | _ :: _ => true end.

(** Truth value of a string ([if href:], [a or b]). *)
Definition str_truthy (s : string) : bool :=
match s with EmptyString => false | String _ _ => true end.

(** [needle in hay] on strings. *)
Fixpoint str_in (needle hay : string) : bool :=
String.prefix needle hay ||
match hay with
| EmptyString => false
| String _ hay' => str_in needle hay'
end.

(** A character of a text is a byte that is not a continuation byte
    ([10xxxxxx]) with the continuation bytes that follow it. *)
Definition is_continuation (c : ascii) : bool :=
let n := Ascii.nat_of_ascii c in
(128 <=? n)%nat && (n <? 192)%nat.

(** [len(s)]: the number of characters. *)
Fixpoint py_len (s : string) : nat :=
match s with
| EmptyString => 0
| String c s' => if is_continuation c then py_len s' else S (py_len s')
end.

(** [s[:n]]: the first [n] characters. *)
Fixpoint str_take (n : nat) (s : string) : string :=
match s with
| EmptyString => EmptyString
| String c s' =>
    if is_continuation c then String c (str_take n s')
    else
      match n with
      | 0 => EmptyString
      | S n' => String c (str_take n' s')
      end
end.

Definition is_space (c : ascii) : bool :=
let n := Ascii.nat_of_ascii c in
(n =? 32)%nat || ((9 <=? n)%nat && (n <=? 13)%nat).

Fixpoint lstrip (s : string) : string :=
match s with
| String c s' => if is_space c then lstrip s' else s
| EmptyString => EmptyString
end.

(** [s.strip()]. *)
Definition py_strip (s : string) : string :=
String.rev (lstrip (String.rev (lstrip s))).

(** [s.replace(a, b)] for one-character [a] and [b]. *)
Fixpoint replace_char (a b : ascii) (s : string) : string :=
match s with
| String c s' => String (if Ascii.eqb c a then b else c) (replace_char a b s')
| EmptyString => EmptyString
end.

(** Exceptions: a call returns a value or raises with a message. *)
Inductive result (A : Type) : Type :=
| Ok (a : A)
| Raise (msg : string).
Arguments Ok {A} a.
Arguments Raise {A} msg.

(** ** Records: insertion-ordered dictionaries *)

(** A Python [dict] keeps its keys in insertion order; an assignment to
    a key already present replaces the value in place. *)
Definition dict (V : Type) : Type := list (string * V).

Fixpoint dict_set {V} (k : string) (v : V) (d : dict V) : dict V :=
match d with
| [] => [(k, v)]
| (k', v') :: d' =>
    if String.eqb k k' then (k, v) :: d' else (k', v') :: dict_set k v d'
end.

Fixpoint dict_get {V} (k : string) (d : dict V) : option V :=
match d with
| [] => None
| (k', v') :: d' => if String.eqb k k' then Some v' else dict_get k d'
end.

Definition dict_keys {V} (d : dict V) : list string := d.*1.
Definition dict_values {V} (d : dict V) : list V := d.*2.

(** [k in d]. *)
Definition dict_mem {V} (k : string) (d : dict V) : bool :=
match dict_get k d with Some _ => true | None => false end.

(** The loop [for key, x in items: if <g key x gives a value>: d[key] = value]. *)
Definition dict_fill {V X} (g : string → X → option V) (items : list (string * X))
  (d : dict V) : dict V :=
fold_left (λ d '(k, x), match g k x with Some v => dict_set k v d | None => d end)
  items d.

(** Parsed JSON, the payload of a structured-data block. *)
Inductive json : Type :=
| JNull
| JBool (b : bool)
| JNum (z : Z)
| JStr (s : string)
| JArr (items : list json)
| JObj (fields : list (string * json)).

(** A field value: a string, a list of strings, or parsed JSON blocks;
    [VNone] is Python's [None]. *)
Inductive value : Type :=
| VStr (s : string)
| VList (l : list string)
| VData (blocks : list json)
| VNone.

Definition value_truthy (v : value) : bool :=
match v with
| VStr s => str_truthy s
| VList l => truthy l
| VData l => truthy l
| VNone => false
end.

Definition record : Type := dict value.

(** ** The library interfaces *)

(** BeautifulSoup: a parsed page and its elements. *)
Class Soup (node : Type) : Type := {
  (** [tag.name] *)
  tag_name : node → string;
  (** [tag.get(attr)] for a single-valued attribute *)
  get : node → string → option string;
  (** [tag.get('class', [])] *)
  get_class : node → list string;
  (** [tag.find_all(names)]: the descendants with one of the tag names,
      in document order *)
  find_all : node → list string → list node;
  (** [tag.select(css)] *)
  select : node → string → list node;
  (** [tag.get_text(strip=True)] *)
  get_text : node → string;
  (** [tag.get_text(separator=' ', strip=True)] *)
  get_text_sep : node → string;
  (** [tag.string] *)
  tag_string : node → option string;
  (** [str(tag)], the serialized markup *)
  to_str : node → string;
}.

(** [urllib.parse]: the parts of a URL and the resolution of a
    reference against a base.  As in [urllib], the host name is read
    off the network location. *)
Class UrlLib : Type := {
  (** [urlparse(url).scheme] *)
  url_scheme : string → string;
  (** [urlparse(url).netloc] *)
  url_netloc : string → string;
  (** the [hostname] property, as a function of [netloc] *)
  netloc_hostname : string → option string;
  (** [urljoin(base, href)] *)
  urljoin : string → string → string;
}.

(** [urlparse(url).hostname] *)
Definition url_hostname `{UrlLib} (url : string) : option string :=
netloc_hostname (url_netloc url).

(** [re] and [json]. *)
Class TextLib : Type := {
  (** [re.compile(pattern, re.IGNORECASE).search(text)] finds a match *)
  re_search_icase : string → string → bool;
  (** [json.loads(text)]; [None] when it raises *)
  json_loads : string → option json;
}.

(** The network as seen by one job: [robotparser], [socket],
    [ipaddress], [requests]. *)
Class Network (node ip policy : Type) : Type := {
  (** [rp.read()] on a robots URL: the parser as the call leaves it,
      whatever the server answered (rules that were parsed, or the
      parser's state after an error status); [None] when the call
      raises *)
  robots_read : string → option policy;
  (** [rp.can_fetch(agent, url)] on that parser ([check_robots] takes a
      call that raises as [True]) *)
  can_fetch : policy → string → string → bool;
  (** [socket.gethostbyname(host)]; [None] when it raises *)
  gethostbyname : string → option ip;
  is_private : ip → bool;
  is_loopback : ip → bool;
  is_link_local : ip → bool;
  (** [requests.get(url, ...)], [raise_for_status()] and the parse of the
      body; [None] when any of them raises *)
  requests_get : string → option node;
}.

(** The per-item field extraction of the three generic heuristics
    (lines 372-486, 511-559 and 585-635 of [scrape.py]): what one
    candidate element yields.  [card_fields] is [None] where the loop
    body takes [continue]. *)
Class ItemFields (node : Type) : Type := {
  product_fields : node → record;
  article_fields : node → record;
  card_fields : node → option record;
}.

(** ** ExtractionEngine *)

Section Extraction.
Context {node : Type} `{Soup node} `{TextLib} `{ItemFields node}.

(** [tag.find(names)] *)
Definition find (n : node) (names : list string) : option node :=
head (find_all n names).

(** [tag.select_one(css)] *)
Definition select_one (n : node) (css : string) : option node :=
head (select n css).

(** *** Tables ([extract_table_data]) *)

Definition table_headers (table : node) : list string :=
match find table ["thead"] with
| Some header_row => get_text <$> find_all header_row ["th"; "td"]
| None =>
    match find table ["tr"] with
    | Some first_row => get_text <$> find_all first_row ["th"; "td"]
    | None => []
    end
end.

(** [rows = (table.find('tbody') or table).find_all('tr')] *)
Definition table_rows (table : node) : list node :=
find_all (default table (find table ["tbody"])) ["tr"].

Definition row_cells (row : node) : list node := find_all row ["td"; "th"].

(** The dictionary built for one row: [row_data[header] = cells[i].get_text(strip=True)]
    for [i] below both lengths. *)
Definition row_data (headers : list string) (cells : list node) : record :=
fold_left (λ d '(header, cell), dict_set header (VStr (get_text cell)) d)
  (zip headers cells) [].

(** The rows loop of [extract_table_data]. *)
Definition table_row_records (headers : list string) (row : node) : list record :=
let cells := row_cells row in
if (length cells =? length headers)%nat then
  let d := row_data headers cells in
  if truthy d && existsb value_truthy (dict_values d) then [d] else []
else [].

Definition extract_table_data (table : node) : list record :=
let headers := table_headers table in
if negb (truthy headers) then []
else flat_map (table_row_records headers) (table_rows table).

(** *** Explicit selectors ([extract_with_selectors]) *)

(** The selector specification: a dictionary of selector strings, in
    the order of its keys. *)
Definition selector_spec : Type := dict string.

(** One record per container: every key but [container], evaluated
    inside the container. *)
Definition container_record (selectors : selector_spec) (container : node) : record :=
dict_fill (λ key selector,
    if String.eqb key "container" then None
    else (λ element, VStr (get_text element)) <$> select_one container selector)
  selectors [].

(** Record [i] of the zip branch. *)
Definition zip_record (soup : node) (selectors : selector_spec) (i : nat) : record :=
dict_fill (λ _ selector,
    (λ element, VStr (get_text element)) <$> nth_error (select soup selector) i)
  selectors [].

(** The record of the single-match branch. *)
Definition flat_record (soup : node) (selectors : selector_spec) : record :=
dict_fill (λ _ selector,
    match select soup selector with
    | [] => None
    | [element] => Some (VStr (get_text element))
    | elements => Some (VList (get_text <$> elements))
    end)
  selectors [].

(** [if record: results.append(record)] *)
Definition keep_record (r : record) : list record :=
if truthy r then [r] else [].

Definition extract_with_selectors (soup : node) (selectors : selector_spec)
  : result (list record) :=
match dict_get "container" selectors with
| Some container_css =>
    Ok (flat_map (λ container, keep_record (container_record selectors container))
          (select soup container_css))
| None =>
    match selectors with
    | [] => Raise "list index out of range"
    | (first_key, first_css) :: _ =>
        let first_elements := select soup first_css in
        if (1 <? length first_elements)%nat then
          Ok (flat_map (λ i, keep_record (zip_record soup selectors i))
                (seq 0 (length first_elements)))
        else
          Ok (keep_record (flat_record soup selectors))
    end
end.


(** *** Product listings ([extract_product_listings]) *)

(** [tag.get(attr) is not None] *)
Definition has_attr (n : node) (attr : string) : bool :=
match get n attr with Some _ => true | None => false end.

(** [d[key] = f(elem)] when [select_one] finds an element. *)
Definition set_from (n : node) (css key : string) (f : node → value) (d : record)
  : record :=
match select_one n css with
| Some elem => dict_set key (f elem) d
| None => d
end.

Definition star_names : list string := ["One"; "Two"; "Three"; "Four"; "Five"].

(** The dictionary built for one [article.product_pod] element. *)
Definition book_record (product : node) : record :=
let data := [] in
let data := set_from product "h3 a" "title"
  (λ title_elem,
     VStr (match get title_elem "title" with
           | Some t => if str_truthy t then t else get_text title_elem
           | None => get_text title_elem
           end)) data in
let data := set_from product "p.price_color" "price"
  (λ price_elem, VStr (get_text price_elem)) data in
let data :=
  match select_one product "p.star-rating" with
  | Some rating_elem =>
      match List.find (λ cls, existsb (String.eqb cls) star_names)
              (get_class rating_elem) with
      | Some cls => dict_set "rating" (VStr cls) data
      | None => data
      end
  | None => data
  end in
let data := set_from product "p.instock.availability" "availability"
  (λ stock_elem,
     VStr (py_strip (replace_char (ascii_of_nat 10) " "%char (get_text stock_elem))))
  data in
let data := set_from product "div.image_container img" "image"
  (λ img, VStr (default "" (get img "src"))) data in
let data := set_from product "h3 a" "link"
  (λ link, VStr (default "" (get link "href"))) data in
data.

(** The dedicated path: every [article.product_pod] of the page. *)
Definition books_toscrape_records (soup : node) : list record :=
flat_map (λ product, keep_record (book_record product))
  (select soup "article.product_pod").

Definition product_selectors : list string :=
[ "article.product_pod";
  "div.product"; "article.product"; "li.product";
  "div.product-item"; "div.product-card";
  "div.item"; "article.item"; "li.item";
  "div.col-product"; "div.grid-item";
  "article[data-product]"; "div[data-product-id]";
  "li[class*=" +:+ String (ascii_of_nat 34) "product" +:+ String (ascii_of_nat 34) "]";
  "div[class*=" +:+ String (ascii_of_nat 34) "product" +:+ String (ascii_of_nat 34) "]";
  "article[class*=" +:+ String (ascii_of_nat 34) "product" +:+ String (ascii_of_nat 34) "]";
  "div.card.product" ].

(** The loop [for selector in selectors: found = soup.select(selector);
    if found and len(found) > more_than: chosen = found; break]. *)
Fixpoint first_matching (soup : node) (more_than : nat) (selectors : list string)
  : list node :=
match selectors with
| [] => []
| selector :: rest =>
    let found := select soup selector in
    if truthy found && (more_than <? length found)%nat then found
    else first_matching soup more_than rest
end.

(** The candidates of the generic chain: the first container pattern
    with more than one match, else repeated [article]s, else list
    items with a class and more than 30 characters of text. *)
Definition generic_product_candidates (soup : node) : list node :=
let products := first_matching soup 1 product_selectors in
if truthy products then products
else
  let articles := find_all soup ["article"] in
  if (2 <? length articles)%nat then articles
  else
    take 50 (List.filter
               (λ li, has_attr li "class" && (30 <? py_len (get_text li))%nat)
               (find_all soup ["li"])).

Definition generic_product_records (soup : node) : list record :=
flat_map (λ product,
    let data := product_fields product in
    if truthy data && (dict_mem "title" data || dict_mem "price" data)
    then [data] else [])
  (take 100 (generic_product_candidates soup)).

Definition extract_product_listings (soup : node) : list record :=
if str_in "books.toscrape" (to_str soup) then
  let results := books_toscrape_records soup in
  if truthy results then results
  else generic_product_records soup
else generic_product_records soup.

(** *** Article listings ([extract_article_listings]) *)

Definition article_selectors : list string :=
[ "article"; "div.post"; "div.article"; "div.blog-post"; "div.entry";
  "section.post"; "div.content-item" ].

Definition extract_article_listings (soup : node) : list record :=
let articles := first_matching soup 0 article_selectors in
if negb (truthy articles) then []
else
  flat_map (λ article,
      let data := article_fields article in
      if truthy data && dict_mem "title" data then [data] else [])
    (take 50 articles).

(** *** Cards ([extract_card_data]) *)

Definition card_selectors : list string :=
[ "div.card"; "div.panel"; "div.tile"; "div.box"; "div.module"; "div.widget";
  "div[class*=" +:+ String (ascii_of_nat 34) "card" +:+ String (ascii_of_nat 34) "]";
  "div[class*=" +:+ String (ascii_of_nat 34) "item" +:+ String (ascii_of_nat 34) "]";
  "div[class*=" +:+ String (ascii_of_nat 34) "col-" +:+ String (ascii_of_nat 34) "]" ].

Definition extract_card_data (soup : node) : list record :=
let cards := first_matching soup 2 card_selectors in
if negb (truthy cards) then []
else
  flat_map (λ card,
      match card_fields card with
      | Some data => keep_record data
      | None => []
      end)
    (take 100 cards).

(** *** General fallback ([extract_general_data]) *)

(** The JSON-LD blocks that parse; a block whose [.string] is [None] or
    that does not parse is skipped. *)
Definition parse_json_ld (scripts : list node) : list json :=
flat_map (λ script,
    match tag_string script with
    | Some text => match json_loads text with Some data => [data] | None => [] end
    | None => []
    end)
  scripts.

Definition extract_general_data (soup : node) : record :=
let result := [] in
let result :=
  match find soup ["title"] with
  | Some title => dict_set "title" (VStr (get_text title)) result
  | None => result
  end in
let result :=
  match find soup ["h1"] with
  | Some h1 => dict_set "heading" (VStr (get_text h1)) result
  | None => result
  end in
let result :=
  match head (List.filter (λ m, bool_decide (get m "name" = Some "description"))
                (find_all soup ["meta"])) with
  | Some meta_desc =>
      dict_set "description" (VStr (default "" (get meta_desc "content"))) result
  | None => result
  end in
let result := dict_set "full_text" (VStr (str_take 5000 (get_text_sep soup))) result in
let json_ld :=
  List.filter (λ s, bool_decide (get s "type" = Some "application/ld+json"))
    (find_all soup ["script"]) in
let structured_data := parse_json_ld json_ld in
if truthy json_ld && truthy structured_data
then dict_set "structured_data" (VData structured_data) result
else result.

(** *** The auto chain ([enhanced_auto_extract]) *)

(** [if new: results.extend(new)] *)
Definition extend_if {A} (results new : list A) : list A :=
if truthy new then results ++ new else results.

Definition enhanced_auto_extract (soup : node) (current_url : string) : list record :=
let results := [] in
let results :=
  fold_left (λ results table, extend_if results (extract_table_data table))
    (find_all soup ["table"]) results in
let results := extend_if results (extract_product_listings soup) in
let results := extend_if results (extract_article_listings soup) in
let results := extend_if results (extract_card_data soup) in
if negb (truthy results) then
  let general_result := extract_general_data soup in
  if truthy general_result then results ++ [general_result] else results
else results.

End Extraction.

(** ** PaginationDiscoverer ([find_pagination_links]) *)

Section Pagination.
Context {node : Type} `{Soup node} `{UrlLib} `{TextLib}.

Definition pagination_selectors : list string :=
[ "nav.pagination"; "div.pagination"; "ul.pagination";
  "div.pager"; "div.page-numbers"; "div.pages";
  "a.next"; "a.page-link";
  "a[rel=" +:+ String (ascii_of_nat 34) "next" +:+ String (ascii_of_nat 34) "]" ].

(** The anchors of the matched elements: the element itself when it is
    an [a], else its [a] descendants that carry an [href]. *)
Definition pagination_anchors (elements : list node) : list node :=
flat_map (λ elem,
    if String.eqb (tag_name elem) "a" then [elem]
    else List.filter (λ a, has_attr a "href") (find_all elem ["a"]))
  elements.

(** [href] resolved against the page, kept when the network location is
    the page's. *)
Definition same_site (current_url : string) (link : node) : list string :=
match get link "href" with
| Some href =>
    if str_truthy href then
      let full_url := urljoin current_url href in
      if String.eqb (url_netloc full_url) (url_netloc current_url)
      then [full_url] else []
    else []
| None => []
end.

(** The loop over [pagination_selectors], with its [break]. *)
Fixpoint scan_pagination (soup : node) (current_url : string)
  (selectors : list string) (pagination_links : list string) : list string :=
match selectors with
| [] => pagination_links
| selector :: rest =>
    let elements := select soup selector in
    if truthy elements then
      let pagination_links :=
        pagination_links ++ flat_map (same_site current_url) (pagination_anchors elements) in
      if truthy pagination_links then pagination_links
      else scan_pagination soup current_url rest pagination_links
    else scan_pagination soup current_url rest pagination_links
end.

Definition next_patterns : list string :=
[ "next"; "siguiente"; "suivant"; "»"; "›"; "more" ].

(** [soup.find('a', string=re.compile(pattern, re.IGNORECASE))] *)
Definition find_anchor_by_text (soup : node) (pattern : string) : option node :=
head (List.filter
        (λ a, match tag_string a with
              | Some text => re_search_icase pattern text
              | None => false
              end)
        (find_all soup ["a"])).

(** The loop over [next_patterns], with its [break]. *)
Fixpoint scan_next (soup : node) (current_url : string) (patterns : list string)
  : list string :=
match patterns with
| [] => []
| pattern :: rest =>
    match find_anchor_by_text soup pattern with
    | Some next_link =>
        match same_site current_url next_link with
        | [] => scan_next soup current_url rest
        | found => found
        end
    | None => scan_next soup current_url rest
    end
end.

Definition find_pagination_links (soup : node) (current_url : string) : list string :=
let pagination_links := scan_pagination soup current_url pagination_selectors [] in
let pagination_links :=
  if negb (truthy pagination_links) then scan_next soup current_url next_patterns
  else pagination_links in
take 5 pagination_links.

End Pagination.

(** ** SafetyGate and CrawlController ([check_robots], [is_safe_url], [scrape_url]) *)

(** The calls by which the worker reaches the network, in order, each
    with the argument the program passes: [rp.read()] for a robots URL,
    [socket.gethostbyname(hostname)] and [requests.get(url, ...)].  What
    a client does inside one call (the redirects it follows, the
    connections it opens) is not an event. *)
Inductive event : Type :=
| RobotsFetch (robots_url : string)
| DnsLookup (hostname : string)
| HttpGet (url : string).

(** The state of one crawl.  [fetched] is the log of the URLs given to
    [requests.get], oldest first; the program does not hold it. *)
Record CrawlState : Type := {
  all_results : list record;
  visited_urls : gset string;
  urls_to_visit : list string;
  pages_scraped : Z;
  fetched : list string;
}.

Section Crawl.
Context {node ip policy : Type}.
Context `{Soup node} `{UrlLib} `{TextLib} `{ItemFields node} `{Network node ip policy}.

Definition check_robots (url : string) : list event * bool :=
let robots_url := url_scheme url +:+ "://" +:+ url_netloc url +:+ "/robots.txt" in
([RobotsFetch robots_url],
 match robots_read robots_url with
 | Some rp => can_fetch rp "ProScrape Bot" url
 | None => true
 end).

Definition is_safe_url (url : string) : list event * bool :=
match url_hostname url with
| None => ([], false)
| Some hostname =>
    if negb (str_truthy hostname) then ([], false)
    else
      ([DnsLookup hostname],
       match gethostbyname hostname with
       | Some ip_obj =>
           if is_private ip_obj || is_loopback ip_obj || is_link_local ip_obj
           then false else true
       | None => false
       end)
end.

(** The extraction of one page, by mode. *)
Definition extract_page (mode : string) (selectors : option selector_spec)
  (soup : node) (current_url : string) : result (list record) :=
match selectors with
| Some sels =>
    if String.eqb mode "css" && truthy sels then extract_with_selectors soup sels
    else Ok (enhanced_auto_extract soup current_url)
| None => Ok (enhanced_auto_extract soup current_url)
end.

(** [for link in next_links: if link not in visited_urls and link not in
    urls_to_visit: urls_to_visit.append(link)] *)
Definition enqueue_links (visited : gset string) (frontier next_links : list string)
  : list string :=
fold_left (λ frontier link,
    if bool_decide (link ∉ visited) && bool_decide (link ∉ frontier)
    then frontier ++ [link] else frontier)
  next_links frontier.

(** [while urls_to_visit and pages_scraped < max_pages] *)
Definition loop_cond (max_pages : Z) (st : CrawlState) : bool :=
truthy (urls_to_visit st) && (pages_scraped st <? max_pages)%Z.

(** One iteration of the loop body. *)
Definition loop_body (mode : string) (selectors : option selector_spec)
  (max_pages : Z) (st : CrawlState) : CrawlState :=
match urls_to_visit st with
| [] => st
| current_url :: rest =>
    if bool_decide (current_url ∈ visited_urls st) then
      {| all_results := all_results st; visited_urls := visited_urls st;
         urls_to_visit := rest; pages_scraped := pages_scraped st;
         fetched := fetched st |}
    else
      let visited := visited_urls st ∪ {[current_url]} in
      let skipped :=
        {| all_results := all_results st; visited_urls := visited;
           urls_to_visit := rest; pages_scraped := pages_scraped st;
           fetched := fetched st ++ [current_url] |} in
      match requests_get current_url with
      | None => skipped
      | Some soup =>
          match extract_page mode selectors soup current_url with
          | Raise _ => skipped
          | Ok results =>
              let pages := (pages_scraped st + 1)%Z in
              {| all_results := extend_if (all_results st) results;
                 visited_urls := visited;
                 urls_to_visit :=
                   if (pages <? max_pages)%Z
                   then enqueue_links visited rest (find_pagination_links soup current_url)
                   else rest;
                 pages_scraped := pages;
                 fetched := fetched st ++ [current_url] |}
          end
      end
end.

(** The [while] loop, run for at most [fuel] iterations.
    [crawl_loop_exits] (Part II) shows that with [crawl_fuel] iterations
    the loop has always left through its condition. *)
Fixpoint crawl_loop (fuel : nat) (mode : string) (selectors : option selector_spec)
  (max_pages : Z) (st : CrawlState) : CrawlState :=
match fuel with
| O => st
| S fuel' =>
    if loop_cond max_pages st
    then crawl_loop fuel' mode selectors max_pages (loop_body mode selectors max_pages st)
    else st
end.

(** A bound on the iterations left: every iteration pops one URL, and a
    scraped page adds at most five. *)
Definition crawl_potential (max_pages : Z) (st : CrawlState) : nat :=
length (urls_to_visit st) + 5 * Z.to_nat (max_pages - pages_scraped st).

Definition init_state (url : string) : CrawlState :=
{| all_results := []; visited_urls := ∅; urls_to_visit := [url];
   pages_scraped := 0; fetched := [] |}.

Definition crawl_fuel (url : string) (max_pages : Z) : nat :=
crawl_potential max_pages (init_state url).

(** The crawl proper: the state in which the loop ends. *)
Definition crawl (url mode : string) (selectors : option selector_spec) (max_pages : Z)
  : CrawlState :=
crawl_loop (crawl_fuel url max_pages) mode selectors max_pages (init_state url).

(** [scrape_url]: the events sent, and the result or the exception. *)
Definition scrape_url (url mode : string) (selectors : option selector_spec)
  (crawl_depth max_pages : Z) : list event * result (list record) :=
let '(robots_events, allowed) := check_robots url in
if negb allowed then
  (robots_events, Raise ("Scraping failed: " +:+ "Robots.txt disallows scraping this URL"))
else
  let '(dns_events, safe) := is_safe_url url in
  if negb safe then
    (robots_events ++ dns_events,
     Raise ("Scraping failed: " +:+ "URL points to a private or local IP address"))
  else
    let st := crawl url mode selectors max_pages in
    (robots_events ++ dns_events ++ (HttpGet <$> fetched st), Ok (all_results st)).

End Crawl.

(** ** JobRunner ([process_job], [create_scrape_job], [run]) *)

Inductive Status : Type := queued | running | completed | failed.

(** A row of the [jobs] table.  [job_history] lists every value the
    [status] column has held, oldest first; the program does not hold
    it. *)
Record Job : Type := {
  job_url : string;
  job_mode : string;
  job_crawl_depth : option Z;
  job_max_pages : option Z;
  job_selectors : option selector_spec;
  job_status : Status;
  job_error : option string;
  job_history : list Status;
}.

(** The [jobs] and [results] tables. *)
Record Db : Type := {
  jobs : gmap string Job;
  results_table : list (string * list record);
}.

(** The database and the queue between the request handlers and the
    worker. *)
Record System : Type := {
  sys_db : Db;
  job_queue : list string;
}.

(** [UPDATE jobs SET status = ?, error_message = ? WHERE id = ?]; the
    error message is left as it is when the statement does not set it. *)
Definition set_status (job_id : string) (s : Status) (err : option string) (d : Db) : Db :=
{| jobs :=
     alter (λ j,
         {| job_url := job_url j; job_mode := job_mode j;
            job_crawl_depth := job_crawl_depth j; job_max_pages := job_max_pages j;
            job_selectors := job_selectors j;
            job_status := s;
            job_error := match err with Some _ => err | None => job_error j end;
            job_history := job_history j ++ [s] |})
       job_id (jobs d);
   results_table := results_table d |}.

(** [INSERT INTO results (id, job_id, data) VALUES (?, ?, ?)] *)
Definition insert_results (job_id : string) (data : list record) (d : Db) : Db :=
{| jobs := jobs d; results_table := results_table d ++ [(job_id, data)] |}.

(** [x or d] on an integer column that may be NULL. *)
Definition int_or (x : option Z) (d : Z) : Z :=
match x with
| Some 0%Z => d
| Some n => n
| None => d
end.

Definition NO_DATA : string := "No data extracted".

Section JobRunner.
Context {node ip policy : Type}.
Context `{Soup node} `{UrlLib} `{TextLib} `{ItemFields node} `{Network node ip policy}.

(** The call of [scrape_url] that [process_job] makes for a job. *)
Definition job_scrape (job : Job) : list event * result (list record) :=
scrape_url (job_url job) (job_mode job) (job_selectors job)
  (int_or (job_crawl_depth job) 0) (int_or (job_max_pages job) 1).

(** [process_job]: the database after the job, and the events sent. *)
Definition process_job (d : Db) (job_id : string) : Db * list event :=
match jobs d !! job_id with
| None => (d, [])
| Some job =>
    let d := set_status job_id running None d in
    let url := job_url job in
    let mode := job_mode job in
    let crawl_depth := int_or (job_crawl_depth job) 0 in
    let max_pages := int_or (job_max_pages job) 1 in
    let selectors := job_selectors job in
    match scrape_url url mode selectors crawl_depth max_pages with
    | (events, Ok results) =>
        if truthy results then
          (set_status job_id completed None (insert_results job_id results d), events)
        else
          (set_status job_id failed (Some NO_DATA) d, events)
    | (events, Raise msg) =>
        (set_status job_id failed (Some msg) d, events)
    end
end.

(** An integer parameter that SQLite binds: absent, or within 64 bits
    signed.  Binding a larger Python integer raises [OverflowError]. *)
Definition sqlite_int (x : option Z) : bool :=
match x with
| None => true
| Some n => (- 2 ^ 63 <=? n)%Z && (n <? 2 ^ 63)%Z
end.

(** [create_scrape_job]: a request with a URL that has a scheme and a
    network location inserts a queued row under a new identifier and
    puts the identifier on the queue.  The INSERT fails, and nothing is
    queued, when the identifier is already in the table or when the depth
    or the budget does not fit an SQLite integer.  [job_id] is the
    identifier drawn for the row; a URL that [urlparse] rejects has no
    scheme here. *)
Definition create_scrape_job (job_id url mode : string)
  (crawl_depth max_pages : option Z) (selectors : option selector_spec)
  (sys : System) : System :=
if negb (str_truthy url) then sys
else if negb (str_truthy (url_scheme url)) || negb (str_truthy (url_netloc url)) then sys
else if negb (sqlite_int crawl_depth && sqlite_int max_pages) then sys
else
  match jobs (sys_db sys) !! job_id with
  | Some _ => sys
  | None =>
      {| sys_db :=
           {| jobs :=
                <[job_id :=
                   {| job_url := url; job_mode := mode;
                      job_crawl_depth := crawl_depth; job_max_pages := max_pages;
                      job_selectors :=
                        match selectors with
                        | Some sels => if truthy sels then Some sels else None
                        | None => None
                        end;
                      job_status := queued; job_error := None;
                      job_history := [queued] |}]> (jobs (sys_db sys));
              results_table := results_table (sys_db sys) |};
         job_queue := job_queue sys ++ [job_id] |}
  end.

(** One turn of the worker's [run] loop: take the identifier at the
    front of the queue and process it. *)
Definition worker_turn (sys : System) : System :=
match job_queue sys with
| [] => sys
| job_id :: rest =>
    {| sys_db := (process_job (sys_db sys) job_id).1; job_queue := rest |}
end.

(** The steps of the system: a request creates a job, or the worker
    takes a turn. *)
Inductive sys_step : System → System → Prop :=
| step_create job_id url mode crawl_depth max_pages selectors sys :
    sys_step sys (create_scrape_job job_id url mode crawl_depth max_pages selectors sys)
| step_work sys :
    sys_step sys (worker_turn sys).

Definition sys_init : System :=
{| sys_db := {| jobs := ∅; results_table := [] |}; job_queue := [] |}.

Definition reachable (sys : System) : Prop := rtc sys_step sys_init sys.

End JobRunner.

(** ** A concrete page model

    An implementation of the [Soup] interface on explicit element
    trees, for running the engine on given markup.  It covers the part
    of BeautifulSoup the examples use: tag and class selectors joined by
    the descendant combinator, tag-name search, and text extraction. *)

Module Html.

Inductive html : Type :=
| Tag (name : string) (attrs : list (string * string)) (children : list html)
| Text (s : string).

Fixpoint descendants (n : html) : list html :=
match n with
| Tag _ _ children => flat_map (λ c, c :: descendants c) children
| Text _ => []
end.

Definition name_of (n : html) : string :=
match n with Tag name _ _ => name | Text _ => "" end.

Definition attr_of (n : html) (attr : string) : option string :=
match n with Tag _ attrs _ => dict_get attr attrs | Text _ => None end.

Fixpoint split_on (sep : ascii) (s : string) : list string :=
match s with
| EmptyString => [""]
| String c s' =>
    let pieces := split_on sep s' in
    if Ascii.eqb c sep then "" :: pieces
    else match pieces with
         | piece :: others => String c piece :: others
         | [] => [String c ""]
         end
end.

(** [s.split()]-like: the non-empty pieces between spaces. *)
Definition words (s : string) : list string :=
List.filter str_truthy (split_on " "%char s).

Definition classes_of (n : html) : list string :=
match attr_of n "class" with Some c => words c | None => [] end.

Definition find_all_tags (n : html) (names : list string) : list html :=
List.filter
  (λ d, match d with
        | Tag name _ _ => existsb (String.eqb name) names
        | Text _ => false
        end)
  (descendants n).

(** The text strings below a node, in document order. *)
Fixpoint strings_of (n : html) : list string :=
match n with
| Tag _ _ children => flat_map strings_of children
| Text s => [s]
end.

Definition stripped_strings (n : html) : list string :=
List.filter str_truthy (py_strip <$> strings_of n).

Definition text_of (n : html) : string := String.concat "" (stripped_strings n).
Definition text_sep_of (n : html) : string := String.concat " " (stripped_strings n).

Fixpoint string_of (n : html) : option string :=
match n with
| Text s => Some s
| Tag _ _ [c] => string_of c
| Tag _ _ _ => None
end.

Definition dquote : string := String (ascii_of_nat 34) "".

Fixpoint serialize (n : html) : string :=
match n with
| Text s => s
| Tag name attrs children =>
    "<" +:+ name
    +:+ String.concat "" ((λ '(k, v), " " +:+ k +:+ "=" +:+ dquote +:+ v +:+ dquote) <$> attrs)
    +:+ ">" +:+ String.concat "" (serialize <$> children)
    +:+ "</" +:+ name +:+ ">"
end.

(** A compound selector [tag.class1.class2]; an empty tag matches any
    element. *)
Record compound : Type := { c_tag : string; c_classes : list string }.

Definition unsupported_char (c : ascii) : bool :=
existsb (Ascii.eqb c)
  [ "["%char; "]"%char; ">"%char; "+"%char; "~"%char; ","%char; ":"%char;
    "*"%char; "#"%char; "="%char ].

Fixpoint has_unsupported (s : string) : bool :=
match s with
| EmptyString => false
| String c s' => unsupported_char c || has_unsupported s'
end.

Definition parse_compound (s : string) : compound :=
match split_on "."%char s with
| tag :: classes => {| c_tag := tag; c_classes := classes |}
| [] => {| c_tag := s; c_classes := [] |}
end.

Definition matches (c : compound) (n : html) : bool :=
match n with
| Tag name _ _ =>
    (negb (str_truthy (c_tag c)) || String.eqb name (c_tag c))
    && forallb (λ cl, existsb (String.eqb cl) (classes_of n)) (c_classes c)
| Text _ => false
end.

(** The compounds left of the last one, nearest first, each matched by
    some ancestor further up. *)
Fixpoint match_ancestors (compounds : list compound) (ancestors : list html) : bool :=
match compounds with
| [] => true
| c :: compounds' =>
    (fix go (ancestors : list html) : bool :=
       match ancestors with
       | [] => false
       | a :: ancestors' =>
           (matches c a && match_ancestors compounds' ancestors') || go ancestors'
       end) ancestors
end.

Fixpoint walk (test : list html → html → bool) (ancestors : list html) (n : html)
  : list html :=
match n with
| Tag _ _ children =>
    flat_map (λ c,
        (if test (n :: ancestors) c then [c] else []) ++ walk test (n :: ancestors) c)
      children
| Text _ => []
end.

Definition select_css (n : html) (css : string) : list html :=
if has_unsupported css then []
else
  match rev (parse_compound <$> words css) with
  | [] => []
  | last :: before =>
      walk (λ ancestors d, matches last d && match_ancestors before ancestors) [] n
  end.

#[global] Instance html_soup : Soup html := {
  tag_name := name_of;
  get := attr_of;
  get_class := classes_of;
  find_all := find_all_tags;
  select := select_css;
  get_text := text_of;
  get_text_sep := text_sep_of;
  tag_string := string_of;
  to_str := serialize;
}.

(** An abridged per-item extraction: the heading and the [.price]
    element of a candidate. *)
Definition heading_record (names : list string) (n : html) : record :=
match head (find_all_tags n names) with
| Some h => [("title", VStr (text_of h))]
| None => []
end.

#[global] Instance html_fields : ItemFields html := {
  product_fields n :=
    let data := heading_record ["h1"; "h2"; "h3"; "h4"; "h5"] n in
    match head (select_css n ".price") with
    | Some p => dict_set "price" (VStr (text_of p)) data
    | None => data
    end;
  article_fields n := heading_record ["h1"; "h2"; "h3"; "h4"] n;
  card_fields n :=
    if (py_len (text_sep_of n) <? 10)%nat then None
    else Some (heading_record ["h1"; "h2"; "h3"; "h4"; "h5"; "h6"; "strong"; "b"] n);
}.

End Html.

(** ** A concrete network model

    URLs of the shape [scheme://netloc/path], patterns without regular
    expression operators, and a network given by tables: which pages
    exist, which hosts resolve to which address, and what each origin's
    robots policy disallows. *)

Module Web.
Import Html.

Definition after_scheme (url : string) : string :=
match String.index 0 "://" url with
| Some i => String.substring (i + 3) (String.length url) url
| None => ""
end.

Definition scheme_of (url : string) : string :=
match String.index 0 "://" url with
| Some i => String.substring 0 i url
| None => ""
end.

Fixpoint take_until (stop : ascii → bool) (s : string) : string :=
match s with
| EmptyString => EmptyString
| String c s' => if stop c then EmptyString else String c (take_until stop s')
end.

Fixpoint drop_until (stop : ascii → bool) (s : string) : string :=
match s with
| EmptyString => EmptyString
| String c s' => if stop c then s else drop_until stop s'
end.

Definition path_start (c : ascii) : bool :=
Ascii.eqb c "/"%char || Ascii.eqb c "?"%char || Ascii.eqb c "#"%char.

Definition netloc_of (url : string) : string := take_until path_start (after_scheme url).

Definition path_of (url : string) : string := drop_until path_start (after_scheme url).

Definition hostname_of (netloc : string) : option string :=
let host := take_until (Ascii.eqb ":"%char) netloc in
if str_truthy host then Some host else None.

(** The path up to and with its last slash. *)
Definition directory_of (path : string) : string :=
match String.rev (drop_until (Ascii.eqb "/"%char) (String.rev path)) with
| EmptyString => "/"
| dir => dir
end.

Definition join (base href : string) : string :=
if str_in "://" href then href
else if String.prefix "//" href then scheme_of base +:+ ":" +:+ href
else if String.prefix "/" href then scheme_of base +:+ "://" +:+ netloc_of base +:+ href
else scheme_of base +:+ "://" +:+ netloc_of base +:+ directory_of (path_of base) +:+ href.

#[global] Instance url_lib : UrlLib := {
  url_scheme := scheme_of;
  url_netloc := netloc_of;
  netloc_hostname := hostname_of;
  urljoin := join;
}.

Definition lower_char (c : ascii) : ascii :=
let n := nat_of_ascii c in
if (65 <=? n)%nat && (n <=? 90)%nat then ascii_of_nat (n + 32) else c.

Fixpoint lower (s : string) : string :=
match s with
| EmptyString => EmptyString
| String c s' => String (lower_char c) (lower s')
end.

(** A pattern of plain characters matches where it occurs, whatever the
    case; no block of structured data is parsed. *)
#[global] Instance text_lib : TextLib := {
  re_search_icase pattern text := str_in (lower pattern) (lower text);
  json_loads _ := None;
}.

(** An IPv4 address, as its four octets. *)
Definition ipv4 : Type := (nat * nat * nat * nat)%type.

Definition ip_loopback (a : ipv4) : bool :=
let '(a1, _, _, _) := a in (a1 =? 127)%nat.

Definition ip_link_local (a : ipv4) : bool :=
let '(a1, a2, _, _) := a in (a1 =? 169)%nat && (a2 =? 254)%nat.

Definition ip_private (a : ipv4) : bool :=
let '(a1, a2, _, _) := a in
(a1 =? 10)%nat
|| ((a1 =? 172)%nat && (16 <=? a2)%nat && (a2 <=? 31)%nat)
|| ((a1 =? 192)%nat && (a2 =? 168)%nat)
|| ip_loopback a || ip_link_local a.

(** The tables of one network. *)
Record world : Type := {
  pages : list (string * html);
  hosts : list (string * ipv4);
  (** per robots URL, the URL prefixes its policy disallows *)
  robots : list (string * list string);
}.

Definition network (w : world) : Network html ipv4 (list string) := {|
  robots_read robots_url := dict_get robots_url (robots w);
  can_fetch rp _ url := negb (existsb (λ p, String.prefix p url) rp);
  gethostbyname host := dict_get host (hosts w);
  is_private := ip_private;
  is_loopback := ip_loopback;
  is_link_local := ip_link_local;
  requests_get url := dict_get url (pages w);
|}.

End Web.

(** ** The specification's conditions and the example pages *)

Section Conditions.
Context {node : Type} `{Soup node}.

(** The specification's test for a table row: as many cells as headers,
    and a cell whose text is not empty. *)
Definition row_qualifies (headers : list string) (row : node) : bool :=
(length (row_cells row) =? length headers)%nat
&& existsb (λ cell, str_truthy (get_text cell)) (row_cells row).

(** The record of a row: header [i] paired with the text of cell [i]. *)
Definition row_record (headers : list string) (row : node) : record :=
zip headers ((λ cell, VStr (get_text cell)) <$> row_cells row).

(** The records of the four structured heuristics, in the order of the
    chain. *)
Definition structured_records `{TextLib} `{ItemFields node} (soup : node) : list record :=
flat_map extract_table_data (find_all soup ["table"])
++ extract_product_listings soup
++ extract_article_listings soup
++ extract_card_data soup.

End Conditions.

Section CrawlConditions.
Context `{UrlLib}.

(** A discovered link: an [href] of the page resolved against the
    page's URL, at the page's network location. *)
Definition discovered_from (current_url url : string) : Prop :=
url_netloc url = url_netloc current_url
∧ url_hostname url = url_hostname current_url
∧ ∃ href, url = urljoin current_url href.

(** [url] is at the network location, hence the host, of [seed]. *)
Definition same_origin (seed url : string) : Prop :=
url_netloc url = url_netloc seed ∧ url_hostname url = url_hostname seed.

End CrawlConditions.

(** Every URL given to [requests.get] is in the visited set, and none
    was given twice. *)
Definition fetch_inv (st : CrawlState) : Prop :=
NoDup (fetched st) ∧ ∀ u, u ∈ fetched st ↔ u ∈ visited_urls st.

Definition is_http_get (e : event) : bool :=
match e with HttpGet _ => true | _ => false end.

(** The histories a job's status may have. *)
Definition job_legal (j : Job) : Prop :=
(job_history j = [queued] ∧ job_status j = queued)
∨ (job_history j = [queued; running; completed] ∧ job_status j = completed)
∨ (job_history j = [queued; running; failed] ∧ job_status j = failed).

(** The invariant of the system. *)
Record sys_inv (sys : System) : Prop := {
  inv_legal : ∀ id j, jobs (sys_db sys) !! id = Some j → job_legal j;
  inv_queue_nodup : NoDup (job_queue sys);
  inv_queue_queued : ∀ id, id ∈ job_queue sys →
    ∃ j, jobs (sys_db sys) !! id = Some j ∧ job_history j = [queued];
  inv_results : ∀ id j, jobs (sys_db sys) !! id = Some j → job_status j = completed →
    ∃ records, (id, records) ∈ results_table (sys_db sys) ∧ records ≠ [];
}.


Module Pages.
Import Html.

Definition cell (name text : string) : html := Tag name [] [Text text].

Definition tr (name a b : string) : html := Tag "tr" [] [cell name a; cell name b].

(** [<table><thead><tr><th>Name</th><th>Price</th></tr></thead>
    <tbody><tr><td>Widget</td><td>9.99</td></tr>
    <tr><td>Gadget</td><td>19.99</td></tr></tbody></table>] *)
Definition priced_table : html :=
Tag "table" []
  [ Tag "thead" [] [tr "th" "Name" "Price"];
    Tag "tbody" [] [tr "td" "Widget" "9.99"; tr "td" "Gadget" "19.99"] ].

(** The same rows without [thead] and [tbody]: the header row is the
    first [tr] of the table. *)
Definition plain_table : html :=
Tag "table" []
  [ tr "th" "Name" "Price"; tr "td" "Widget" "9.99"; tr "td" "Gadget" "19.99" ].

(** A table whose two columns carry the same header, and a row with
    text in its first cell only. *)
Definition half_row : html := tr "td" "x" "".

Definition twin_header_table : html :=
Tag "table" []
  [ Tag "thead" [] [tr "th" "A" "A"]; Tag "tbody" [] [half_row] ].

Definition item (children : list html) : html := Tag "div" [("class", "item")] children.

Definition titled (title price : string) : list html :=
[ Tag "h3" [] [Text title]; Tag "span" [("class", "price")] [Text price] ].

Definition page_of (body : list html) : html := Tag "html" [] [Tag "body" [] body].

(** Three [.item] elements, each with an [h3] and a [.price]. *)
Definition catalogue_page : html :=
page_of [ item (titled "Lamp" "$10"); item (titled "Desk" "$90");
          item (titled "Chair" "$45") ].

(** Three [.item] elements; the second holds an image only. *)
Definition sparse_page : html :=
page_of [ item (titled "Lamp" "$10"); item [Tag "img" [("src", "banner.png")] []];
          item (titled "Chair" "$45") ].

(** [{"container": ".item", "title": "h3", "price": ".price"}] *)
Definition item_selectors : selector_spec :=
[ ("container", ".item"); ("title", "h3"); ("price", ".price") ].

(** Two headings and one price. *)
Definition uneven_page : html :=
page_of [ Tag "h3" [] [Text "Lamp"]; Tag "span" [("class", "price")] [Text "$10"];
          Tag "h3" [] [Text "Desk"] ].

(** [{"title": "h3", "price": ".price"}] *)
Definition field_selectors : selector_spec := [ ("title", "h3"); ("price", ".price") ].

(** [{"headline": "h1"}] *)
Definition headline_selectors : selector_spec := [ ("headline", "h1") ].

(** One product of a books.toscrape.com listing page. *)
Definition book_pod : html :=
Tag "article" [("class", "product_pod")]
  [ Tag "div" [("class", "image_container")]
      [ Tag "a" [("href", "catalogue/a-light-in-the-attic_1000/index.html")]
          [ Tag "img" [("src", "media/cache/2c/da/2cdad67c.jpg"); ("class", "thumbnail")] [] ] ];
    Tag "p" [("class", "star-rating Three")] [];
    Tag "h3" []
      [ Tag "a" [ ("href", "catalogue/a-light-in-the-attic_1000/index.html");
                  ("title", "A Light in the Attic") ]
          [ Text "A Light in the ..." ] ];
    Tag "div" [("class", "product_price")]
      [ Tag "p" [("class", "price_color")] [Text "51.77"];
        Tag "p" [("class", "instock availability")] [Text "
    In stock
"] ] ].

Definition books_page : html :=
page_of [ Tag "a" [("href", "http://books.toscrape.com/index.html")] [Text "Books to Scrape"];
          book_pod ].

End Pages.

(** Two networks. *)
Module Worlds.
Import Html Web Pages.

Definition page_1 : string := "http://shop.example/catalogue/page-1.html".
Definition page_2 : string := "http://shop.example/catalogue/page-2.html".

(** A listing with a table of two products and a pagination block
    that links to the next page and to another site. *)
Definition listing_page : html :=
page_of
  [ priced_table;
    Tag "ul" [("class", "pagination")]
      [ Tag "li" [] [Tag "a" [("href", "page-2.html")] [Text "2"]];
        Tag "li" [] [Tag "a" [("href", "http://ads.example/offer")] [Text "offer"]] ] ].

(** The shop serves its first listing page only; it publishes no robots
    policy. *)
Definition shop_world : world :=
{| pages := [(page_1, listing_page)];
   hosts := [("shop.example", (93, 184, 216, 34))];
   robots := [] |}.

Definition shop_network : Network html ipv4 (list string) := network shop_world.

(** A host name that resolves to the loopback address. *)
Definition loopback_world : world :=
{| pages := [];
   hosts := [("localhost", (127, 0, 0, 1))];
   robots := [] |}.

Definition loopback_network : Network html ipv4 (list string) := network loopback_world.

Definition admin_url : string := "http://localhost/admin".

(** The row [create_scrape_job] inserts for a request with defaults. *)
Definition queued_job (url : string) (max_pages : option Z) : Job :=
{| job_url := url; job_mode := "auto"; job_crawl_depth := Some 0%Z;
   job_max_pages := max_pages; job_selectors := None;
   job_status := queued; job_error := None; job_history := [queued] |}.

Definition db_with (job_id : string) (job : Job) : Db :=
{| jobs := {[ job_id := job ]}; results_table := [] |}.

Section Shop.
#[local] Existing Instance shop_network.

(** The system after one request for the first listing page, with a
    budget of one page, and one turn of the worker. *)
Definition shop_after_one_job : System :=
worker_turn (create_scrape_job "job1" page_1 "auto" (Some 0%Z) (Some 1%Z) None sys_init).

End Shop.

End Worlds.

(** ** The worker's loop and the queries on stored results *)

Section Runner.
Context {node ip policy : Type}.
Context `{Soup node} `{UrlLib} `{TextLib} `{ItemFields node} `{Network node ip policy}.

(** [n] turns of the [run] loop. *)
Fixpoint worker_turns (n : nat) (sys : System) : System :=
match n with
| O => sys
| S n' => worker_turns n' (worker_turn sys)
end.

End Runner.

(** The frontier has no duplicate and holds no visited URL. *)
Definition frontier_inv (st : CrawlState) : Prop :=
NoDup (urls_to_visit st) ∧ ∀ u, u ∈ urls_to_visit st → u ∉ visited_urls st.

(** The two messages [scrape_url] raises with. *)
Definition ROBOTS_DENIED : string :=
"Scraping failed: Robots.txt disallows scraping this URL".

Definition ADDRESS_DENIED : string :=
"Scraping failed: URL points to a private or local IP address".

(** What the tables and the queue keep besides [sys_inv]: which error
    message goes with which status, that a queued job is in the queue,
    and that the results rows belong to completed jobs, one row each. *)
Record sys_inv_more (sys : System) : Prop := {
  inv_error : ∀ id j, jobs (sys_db sys) !! id = Some j →
    match job_status j with
    | failed =>
        job_error j = Some NO_DATA ∨ job_error j = Some ROBOTS_DENIED
        ∨ job_error j = Some ADDRESS_DENIED
    | _ => job_error j = None
    end;
  inv_queued_in_queue : ∀ id j, jobs (sys_db sys) !! id = Some j →
    job_status j = queued → id ∈ job_queue sys;
  inv_rows_nodup : NoDup (results_table (sys_db sys)).*1;
  inv_rows_completed : ∀ id records, (id, records) ∈ results_table (sys_db sys) →
    records ≠ [] ∧ ∃ j, jobs (sys_db sys) !! id = Some j ∧ job_status j = completed;
}.

(** The status and the error message [process_job] leaves on a job,
    read off the outcome of the scrape. *)
Definition job_outcome (job : Job) (out : result (list record)) : Status * option string :=
match out with
| Ok [] => (failed, Some NO_DATA)
| Ok (_ :: _) => (completed, job_error job)
| Raise msg => (failed, Some msg)
end.

(** [SELECT data FROM results WHERE job_id = ?] and [fetchone()]: the
    data of the first stored row of the job. *)
Definition select_results (d : Db) (job_id : string) : option (list record) :=
snd <$> head (List.filter (λ row, String.eqb row.1 job_id) (results_table d)).

(** [soup.find_all('script', type='application/ld+json')] *)
Definition json_ld_scripts `{Soup node} (soup : node) : list node :=
List.filter (λ s, bool_decide (get s "type" = Some "application/ld+json"))
  (find_all soup ["script"]).

(** Two requests to the shop, not yet processed: one for the first
    listing page, one for the page the shop does not serve. *)
Module Runs.
Import Worlds.

Section Shop.
#[local] Existing Instance shop_network.

Definition shop_two_requests : System :=
create_scrape_job "job2" page_2 "auto" (Some 0%Z) (Some 2%Z) None
  (create_scrape_job "job1" page_1 "auto" (Some 0%Z) (Some 1%Z) None sys_init).

(** The same after the worker has taken two turns. *)
Definition shop_two_processed : System := worker_turns 2 shop_two_requests.

End Shop.

End Runs.

(** ** Accounts ([hash_password], [verify_token], [require_auth], [register], [login]) *)

(** [hashlib], the e-mail pattern of [register], and [jwt] with the
    server's secret and clock. *)
Class AuthLib : Type := {
  (** [hashlib.sha256(password.encode()).hexdigest()] *)
  sha256_hexdigest : string → string;
  (** [re.match(r'^[\w\.-]+@[\w\.-]+\.\w+$', email)] finds a match *)
  email_matches : string → bool;
  (** [generate_token(user_id)], at the time of the call *)
  generate_token : string → string;
  (** [jwt.decode(token, ...)['user_id']]; [None] when it raises *)
  jwt_user_id : string → option string;
}.

(** A row of the [users] table. *)
Record User : Type := {
  user_id : string;
  user_email : string;
  password_hash : string;
}.

(** The JSON bodies of the account endpoints. *)
Inductive reply : Type :=
| ErrorReply (error : string)
| MessageReply (message : string)
| LoginReply (token id email : string)
| UserReply (id email : string).

(** A Flask response: the status code and the body. *)
Definition response : Type := (nat * reply)%type.

(** [s.split(sep)] for a one-character separator. *)
Fixpoint py_split (sep : ascii) (s : string) : list string :=
match s with
| EmptyString => [""]
| String c s' =>
    let pieces := py_split sep s' in
    if Ascii.eqb c sep then "" :: pieces
    else match pieces with
         | piece :: others => String c piece :: others
         | [] => [String c ""]
         end
end.

(** The text before the first [sep]. *)
Fixpoint before_char (sep : ascii) (s : string) : string :=
match s with
| EmptyString => EmptyString
| String c s' => if Ascii.eqb c sep then EmptyString else String c (before_char sep s')
end.

Section Accounts.
Context `{AuthLib}.

Definition hash_password (password : string) : string := sha256_hexdigest password.

Definition verify_token (token : string) : option string := jwt_user_id token.

Definition UNAUTHENTICATED : response := (401, ErrorReply "Authentication required").
Definition BAD_TOKEN : response := (401, ErrorReply "Invalid or expired token").

(** [require_auth(f)], applied to the [Authorization] header of the
    request; [f] gets the user identifier that the decorator stores on
    the request. *)
Definition require_auth (f : string → response) (auth_header : option string) : response :=
match auth_header with
| None => UNAUTHENTICATED
| Some header =>
    if negb (str_truthy header) || negb (String.prefix "Bearer " header)
    then UNAUTHENTICATED
    else
      let token := nth 1 (py_split " "%char header) "" in
      match verify_token token with
      | Some uid => if str_truthy uid then f uid else BAD_TOKEN
      | None => BAD_TOKEN
      end
end.

(** [SELECT ... FROM users WHERE email = ?] and [fetchone()] *)
Definition find_user_by_email (users : list User) (email : string) : option User :=
List.find (λ u, String.eqb (user_email u) email) users.

(** [register]: the [users] table afterwards and the response, for
    fields that are strings or absent.  [new_id] is the identifier drawn
    for the new row; the INSERT fails when a row has it already. *)
Definition register (email password : option string) (new_id : string)
  (users : list User) : list User * response :=
match email, password with
| Some email, Some password =>
    if negb (str_truthy email) || negb (str_truthy password) then
      (users, (400, ErrorReply "Email and password required"))
    else if negb (email_matches email) then
      (users, (400, ErrorReply "Invalid email format"))
    else if (py_len password <? 6)%nat then
      (users, (400, ErrorReply "Password must be at least 6 characters"))
    else
      match find_user_by_email users email with
      | Some _ => (users, (400, ErrorReply "Email already registered"))
      | None =>
          if existsb (λ u, String.eqb (user_id u) new_id) users then
            (users, (500, ErrorReply "UNIQUE constraint failed: users.id"))
          else
            (users ++ [{| user_id := new_id; user_email := email;
                          password_hash := hash_password password |}],
             (201, MessageReply "Registration successful"))
      end
| _, _ => (users, (400, ErrorReply "Email and password required"))
end.

(** [login]: the response, for fields that are strings or absent; the
    table is only read. *)
Definition login (email password : option string) (users : list User) : response :=
match email, password with
| Some email, Some password =>
    if negb (str_truthy email) || negb (str_truthy password) then
      (400, ErrorReply "Email and password required")
    else
      match find_user_by_email users email with
      | None => (401, ErrorReply "Invalid credentials")
      | Some user =>
          if negb (String.eqb (hash_password password) (password_hash user)) then
            (401, ErrorReply "Invalid credentials")
          else
            (200, LoginReply (generate_token (user_id user)) (user_id user) email)
      end
| _, _ => (400, ErrorReply "Email and password required")
end.

(** The tables that registrations lead to, from the empty table. *)
Inductive registered : list User → Prop :=
| registered_nil : registered []
| registered_more users email password new_id :
    registered users → registered (register email password new_id users).1.

(** [later] is [users] after any number of further registrations. *)
Inductive grown_from (users : list User) : list User → Prop :=
| grown_refl : grown_from users users
| grown_more later email password new_id :
    grown_from users later → grown_from users (register email password new_id later).1.

End Accounts.

(** A small account service on which the account endpoints can be run:
    the digest keeps the password readable, an address is one that holds
    an [@], and a token is the user identifier behind a fixed prefix. *)
Module Desk.

Definition auth_lib : AuthLib := {|
  sha256_hexdigest password := "sha256:" +:+ password;
  email_matches email := str_in "@" email;
  generate_token uid := "jwt:" +:+ uid;
  jwt_user_id token :=
    if String.prefix "jwt:" token
    then Some (String.substring 4 (String.length token - 4) token)
    else None;
|}.

(** The table after Ann has registered, and after Bob has too. *)
Definition ann_registered : list User :=
(@register auth_lib (Some "ann@example.org") (Some "hunter22") "u1" []).1.

Definition both_registered : list User :=
(@register auth_lib (Some "bob@example.org") (Some "letmein7") "u2" ann_registered).1.

End Desk.

(* ================================================================= *)
(** * Part II: lemmas and theorems *)
(* ================================================================= *)

(** Decide a closed, decidable proposition by evaluation. *)
Ltac by_evaluation := apply (bool_decide_unpack _); vm_compute; exact I.

(** ** Dictionaries *)

Lemma truthy_nil {A} (l : list A) : truthy l = false ↔ l = [].
Proof. by destruct l. Qed.

Lemma truthy_cons {A} (l : list A) : truthy l = true ↔ l ≠ [].
Proof. by destruct l. Qed.

Lemma str_truthy_true (s : string) : str_truthy s = true ↔ s ≠ "".
Proof. by destruct s. Qed.

Lemma dict_set_fresh {V} (k : string) (v : V) (d : dict V) :
  k ∉ d.*1 → dict_set k v d = d ++ [(k, v)].
Proof.
  induction d as [|[k' v'] d IH]; simpl; [done|].
  rewrite not_elem_of_cons. intros [Hne Hnotin].
  destruct (String.eqb_spec k k') as [->|_]; [done|].
  by rewrite IH.
Qed.

Lemma dict_get_set_eq {V} (k : string) (v : V) (d : dict V) :
  dict_get k (dict_set k v d) = Some v.
Proof.
  induction d as [|[k' v'] d IH]; simpl.
  - by rewrite String.eqb_refl.
  - destruct (String.eqb_spec k k') as [->|Hne]; simpl.
    + by rewrite String.eqb_refl.
    + by destruct (String.eqb_spec k k').
Qed.

Lemma dict_get_set_ne {V} (k k' : string) (v : V) (d : dict V) :
  k ≠ k' → dict_get k (dict_set k' v d) = dict_get k d.
Proof.
  intros Hne. induction d as [|[k0 v0] d IH]; simpl.
  - by destruct (String.eqb_spec k k').
  - destruct (String.eqb_spec k' k0) as [->|Hne0]; simpl.
    + by destruct (String.eqb_spec k k0).
    + by rewrite IH.
Qed.

Lemma dict_set_nonempty {V} (k : string) (v : V) (d : dict V) :
  dict_set k v d ≠ [].
Proof. destruct d as [|[k' v'] d]; simpl; [done|]. by destruct (String.eqb k k'). Qed.

(** Assigning under pairwise distinct new keys appends the pairs in
    order. *)
Lemma fold_dict_set_distinct {X V} (f : X → V) (ks : list string) (xs : list X)
    (d0 : dict V) :
  NoDup (d0.*1 ++ ks) →
  fold_left (λ d '(k, x), dict_set k (f x) d) (zip ks xs) d0 = d0 ++ zip ks (f <$> xs).
Proof.
  revert xs d0. induction ks as [|k ks IH]; intros xs d0 Hnd; simpl.
  - by rewrite app_nil_r.
  - destruct xs as [|x xs]; simpl; [by rewrite app_nil_r|].
    apply NoDup_app in Hnd as (Hd0 & Hdisj & Hks).
    rewrite dict_set_fresh.
    + rewrite IH.
      * by rewrite <- app_assoc.
      * rewrite fmap_app. simpl. rewrite <- app_assoc. simpl.
        apply NoDup_app. split_and!; [done| |done].
        intros y Hy. by apply Hdisj.
    + intros Hin. apply (Hdisj k Hin). left.
Qed.

Lemma dict_fill_cons {V X} (g : string → X → option V) (k : string) (x : X)
    (items : list (string * X)) (d0 : dict V) :
  dict_fill g ((k, x) :: items) d0
  = dict_fill g items (match g k x with Some v => dict_set k v d0 | None => d0 end).
Proof. reflexivity. Qed.

(** A key the loop does not visit keeps its value. *)
Lemma dict_fill_get_notin {V X} (g : string → X → option V) (items : list (string * X))
    (d0 : dict V) (k : string) :
  k ∉ items.*1 → dict_get k (dict_fill g items d0) = dict_get k d0.
Proof.
  revert d0. induction items as [|[k1 x1] items IH]; intros d0 Hk; [done|].
  rewrite fmap_cons in Hk. apply not_elem_of_cons in Hk as [Hne Hk].
  rewrite dict_fill_cons, IH by done.
  destruct (g k1 x1); [|done]. by apply dict_get_set_ne.
Qed.

(** Under distinct keys, the loop leaves under [k] what [g] gives for
    it, or the old value where [g] gives nothing. *)
Lemma dict_fill_get {V X} (g : string → X → option V) (items : list (string * X))
    (d0 : dict V) (k : string) (x : X) :
  NoDup items.*1 → (k, x) ∈ items →
  dict_get k (dict_fill g items d0)
  = match g k x with Some v => Some v | None => dict_get k d0 end.
Proof.
  revert d0. induction items as [|[k1 x1] items IH]; intros d0 Hnd Hin.
  { by apply elem_of_nil in Hin. }
  rewrite fmap_cons in Hnd. apply NoDup_cons in Hnd as [Hk1 Hnd].
  rewrite dict_fill_cons.
  apply elem_of_cons in Hin as [Heq|Hin].
  - injection Heq as -> ->.
    rewrite dict_fill_get_notin by done.
    destruct (g k1 x1); [|done]. by apply dict_get_set_eq.
  - rewrite (IH _ Hnd Hin).
    destruct (g k x); [done|].
    destruct (g k1 x1); [|done]. apply dict_get_set_ne.
    intros ->. apply Hk1. apply list_elem_of_fmap. by exists (k1, x).
Qed.

Lemma dict_fill_nonempty {V X} (g : string → X → option V) (items : list (string * X))
    (d0 : dict V) :
  d0 ≠ [] → dict_fill g items d0 ≠ [].
Proof.
  revert d0. induction items as [|[k1 x1] items IH]; intros d0 Hd0; [done|].
  rewrite dict_fill_cons.
  apply IH. destruct (g k1 x1); [apply dict_set_nonempty|done].
Qed.

(** The loop leaves the empty dictionary empty exactly when [g] gives
    nothing for every item. *)
Lemma dict_fill_nil {V X} (g : string → X → option V) (items : list (string * X)) :
  dict_fill g items [] = [] ↔ ∀ k x, (k, x) ∈ items → g k x = None.
Proof.
  induction items as [|[k1 x1] items IH].
  { split; [|done]. intros _ k x Hin. by apply elem_of_nil in Hin. }
  rewrite dict_fill_cons. destruct (g k1 x1) as [v|] eqn:Hg.
  - split.
    + intros Hnil. exfalso. revert Hnil. apply dict_fill_nonempty. done.
    + intros Hall. specialize (Hall k1 x1 (list_elem_of_here _ _)). congruence.
  - rewrite IH. split.
    + intros Hall k x Hin. apply elem_of_cons in Hin as [Heq|Hin]; [|by apply Hall].
      by injection Heq as -> ->.
    + intros Hall k x Hin. apply Hall. by right.
Qed.

Lemma flat_map_singletons {A B} (f : A → list B) (g : A → B) (l : list A) :
  (∀ x, x ∈ l → f x = [g x]) → flat_map f l = g <$> l.
Proof.
  induction l as [|x l IH]; intros Hf; simpl; [done|].
  rewrite (Hf x) by left. rewrite IH; [done|]. intros y Hy. apply Hf. by right.
Qed.

(** ** Table extraction *)

Section TableProofs.
Context {node : Type} `{Soup node}.

Lemma row_data_distinct (headers : list string) (row : node) :
  NoDup headers → row_data headers (row_cells row) = row_record headers row.
Proof.
  intros Hnd. unfold row_data, row_record.
  by rewrite (fold_dict_set_distinct (λ cell, VStr (get_text cell))).
Qed.

Lemma existsb_cell_values (cells : list node) :
  existsb value_truthy ((λ cell, VStr (get_text cell)) <$> cells)
  = existsb (λ cell, str_truthy (get_text cell)) cells.
Proof. induction cells as [|c cells IH]; [done|]. simpl. f_equal. exact IH. Qed.

(** With distinct headers, the rows loop keeps a row exactly when it
    qualifies, and the record kept is the row's record. *)
Lemma table_row_records_distinct (headers : list string) (row : node) :
  NoDup headers →
  table_row_records headers row
  = if row_qualifies headers row then [row_record headers row] else [].
Proof.
  intros Hnd. unfold table_row_records, row_qualifies.
  destruct (Nat.eqb_spec (length (row_cells row)) (length headers)) as [Hlen|]; [|done].
  simpl. rewrite (row_data_distinct _ _ Hnd). unfold row_record, dict_values.
  rewrite snd_zip by (rewrite length_fmap; lia).
  rewrite existsb_cell_values.
  destruct (existsb _ (row_cells row)) eqn:Hcells; [|by rewrite andb_false_r].
  rewrite andb_true_r.
  destruct (row_cells row) as [|c cells]; [done|].
  by destruct headers.
Qed.

Lemma flat_map_filter {A B} (p : A → bool) (g : A → B) (f : A → list B) (l : list A) :
  (∀ x, f x = if p x then [g x] else []) →
  flat_map f l = g <$> List.filter p l.
Proof.
  intros Hf. induction l as [|x l IH]; simpl; [done|].
  rewrite Hf, IH. by destruct (p x).
Qed.

Lemma row_qualifies_nil (row : node) : row_qualifies [] row = false.
Proof.
  unfold row_qualifies. destruct (row_cells row); simpl; [done|].
  done.
Qed.

Lemma extract_table_data_distinct (table : node) :
  NoDup (table_headers table) →
  extract_table_data table
  = row_record (table_headers table)
      <$> List.filter (row_qualifies (table_headers table)) (table_rows table).
Proof.
  intros Hnd. unfold extract_table_data.
  destruct (table_headers table) as [|h headers] eqn:Hh; simpl.
  - induction (table_rows table) as [|row rows IH]; simpl; [done|].
    by rewrite row_qualifies_nil.
  - apply flat_map_filter. intros row. by apply table_row_records_distinct.
Qed.

Lemma row_record_keys (headers : list string) (row : node) :
  row_qualifies headers row = true → dict_keys (row_record headers row) = headers.
Proof.
  unfold row_qualifies, row_record, dict_keys. intros Hq.
  apply andb_true_iff in Hq as [Hlen _]. apply Nat.eqb_eq in Hlen.
  apply fst_zip. rewrite length_fmap. lia.
Qed.

(** The rows loop goes through the scanned rows one by one: the
    records of a table with distinct headers are those of its qualifying
    rows, and a split of the scanned rows splits the records. *)
Lemma extract_table_data_split (table : node) (header_rows body_rows : list node) :
  NoDup (table_headers table) →
  table_rows table = header_rows ++ body_rows →
  extract_table_data table
  = (row_record (table_headers table)
       <$> List.filter (row_qualifies (table_headers table)) header_rows)
    ++ (row_record (table_headers table)
          <$> List.filter (row_qualifies (table_headers table)) body_rows).
Proof.
  intros Hnd Hrows.
  by rewrite (extract_table_data_distinct table Hnd), Hrows, List.filter_app, fmap_app.
Qed.

(** C6 (as amended).  When the header texts of a table are pairwise
    distinct, a body row becomes a record if and only if its cell count
    equals the header count and it has a cell with non-empty text; the
    record pairs the headers with the cell texts, so its keys are the
    headers.  The body rows are the scanned rows that come after the
    header row where the loop scans that row too ([header_rows] is
    empty where it does not); their records are, in order, the last
    records of the table, and what precedes them comes from
    [header_rows] alone.  In particular the two well-formed data rows of
    a table with the header row [Name, Price] yield exactly two records
    with the keys [Name] and [Price]. *)
Theorem table_rows_become_records (table : node) (header_rows body_rows : list node) :
  NoDup (table_headers table) →
  table_rows table = header_rows ++ body_rows →
  ∃ from_header_rows,
    (length from_header_rows ≤ length header_rows)%nat
    ∧ extract_table_data table
      = from_header_rows
        ++ (row_record (table_headers table)
              <$> List.filter (row_qualifies (table_headers table)) body_rows)
    ∧ (∀ r, r ∈ extract_table_data table → dict_keys r = table_headers table)
    ∧ (∀ r1 r2,
         table_headers table = ["Name"; "Price"] →
         body_rows = [r1; r2] →
         row_qualifies ["Name"; "Price"] r1 = true →
         row_qualifies ["Name"; "Price"] r2 = true →
         ∃ n1 p1 n2 p2,
           extract_table_data table
           = from_header_rows
             ++ [ [("Name", VStr n1); ("Price", VStr p1)];
                  [("Name", VStr n2); ("Price", VStr p2)] ]).
Proof.
  intros Hnd Hrows.
  pose proof (extract_table_data_split table header_rows body_rows Hnd Hrows) as Heq.
  exists (row_record (table_headers table)
            <$> List.filter (row_qualifies (table_headers table)) header_rows).
  split_and!.
  - rewrite length_fmap. apply List.filter_length_le.
  - exact Heq.
  - intros r. rewrite (extract_table_data_distinct table Hnd). intros Hr.
    apply list_elem_of_fmap in Hr as (row & -> & Hrow).
    apply list_elem_of_In, filter_In in Hrow as [_ Hq].
    by apply row_record_keys.
  - intros r1 r2 Hh -> Hq1 Hq2.
    rewrite Heq, Hh. simpl. rewrite Hq1, Hq2. simpl.
    unfold row_qualifies in Hq1, Hq2.
    apply andb_true_iff in Hq1 as [Hl1 _]. apply andb_true_iff in Hq2 as [Hl2 _].
    apply Nat.eqb_eq in Hl1, Hl2. unfold row_record.
    destruct (row_cells r1) as [|a1 [|b1 [|]]]; try done.
    destruct (row_cells r2) as [|a2 [|b2 [|]]]; try done.
    simpl. by eexists _, _, _, _.
Qed.

End TableProofs.

Lemma table_rows_become_records_witness :
  (NoDup (table_headers Pages.plain_table)
   ∧ table_rows Pages.plain_table
     = [Pages.tr "th" "Name" "Price"]
       ++ [Pages.tr "td" "Widget" "9.99"; Pages.tr "td" "Gadget" "19.99"]
   ∧ ∃ from_header_rows,
       (length from_header_rows ≤ 1)%nat
       ∧ extract_table_data Pages.plain_table
         = from_header_rows
           ++ [ [("Name", VStr "Widget"); ("Price", VStr "9.99")];
                [("Name", VStr "Gadget"); ("Price", VStr "19.99")] ])
  ∧ (NoDup (table_headers Pages.priced_table)
     ∧ table_rows Pages.priced_table
       = [] ++ [Pages.tr "td" "Widget" "9.99"; Pages.tr "td" "Gadget" "19.99"]
     ∧ extract_table_data Pages.priced_table
       = [ [("Name", VStr "Widget"); ("Price", VStr "9.99")];
           [("Name", VStr "Gadget"); ("Price", VStr "19.99")] ]).
Proof.
  split.
  - assert (NoDup (table_headers Pages.plain_table)) as Hnd by by_evaluation.
    assert (table_rows Pages.plain_table
            = [Pages.tr "th" "Name" "Price"]
              ++ [Pages.tr "td" "Widget" "9.99"; Pages.tr "td" "Gadget" "19.99"])
      as Hrows by reflexivity.
    split_and!; [exact Hnd|exact Hrows|].
    destruct (table_rows_become_records Pages.plain_table _ _ Hnd Hrows)
      as (from_header_rows & Hlen & Heq & _).
    exists from_header_rows. split; [exact Hlen|]. rewrite Heq. reflexivity.
  - assert (NoDup (table_headers Pages.priced_table)) as Hnd by by_evaluation.
    assert (table_rows Pages.priced_table
            = [] ++ [Pages.tr "td" "Widget" "9.99"; Pages.tr "td" "Gadget" "19.99"])
      as Hrows by reflexivity.
    split_and!; [exact Hnd|exact Hrows|].
    destruct (table_rows_become_records Pages.priced_table _ _ Hnd Hrows)
      as (from_header_rows & Hlen & Heq & _).
    rewrite Heq. destruct from_header_rows; [reflexivity|simpl in Hlen; lia].
Defined.

(** The claim of C6 as stated fails on the code: with two columns under
    one header, the second cell's text replaces the first under that
    header, and a row with as many cells as headers and text in its
    first cell only yields no record. *)
Lemma table_claim_counterexample :
  Pages.half_row ∈ table_rows Pages.twin_header_table
  ∧ row_qualifies (table_headers Pages.twin_header_table) Pages.half_row = true
  ∧ extract_table_data Pages.twin_header_table = [].
Proof. split_and!; [by left|reflexivity..]. Qed.

(** Where a table has no [thead], its headers are read off its first
    [tr], and the rows loop, which the source introduces as "Get data
    rows", scans that [tr] again: the header row comes out as a record
    that pairs every header with itself. *)
Lemma header_row_scanned_with_data_rows :
  extract_table_data Pages.plain_table
  = [ [("Name", VStr "Name"); ("Price", VStr "Price")];
      [("Name", VStr "Widget"); ("Price", VStr "9.99")];
      [("Name", VStr "Gadget"); ("Price", VStr "19.99")] ].
Proof. reflexivity. Qed.

(** ** Explicit selectors *)

Section SelectorProofs.
Context {node : Type} `{Soup node}.

Lemma keep_record_filter (records : list record) :
  flat_map keep_record records = List.filter truthy records.
Proof.
  induction records as [|r records IH]; simpl; [done|].
  rewrite IH. unfold keep_record. by destruct (truthy r).
Qed.

Lemma filter_truthy_all {A} (l : list (list A)) :
  (∀ x, x ∈ l → x ≠ []) → List.filter truthy l = l.
Proof.
  induction l as [|x l IH]; intros Hall; simpl; [done|].
  destruct x as [|a x]; simpl.
  - exfalso. by apply (Hall []); [left|].
  - f_equal. apply IH. intros y Hy. apply Hall. by right.
Qed.

Lemma flat_map_fmap {A B C} (f : B → list C) (g : A → B) (l : list A) :
  flat_map (λ x, f (g x)) l = flat_map f (g <$> l).
Proof. induction l as [|x l IH]; simpl; [done|]. by rewrite IH. Qed.

(** C7 (as amended).  With a [container] key whose selector matches the
    elements [containers], the output holds, in document order, one
    record for each matched element in which some field selector
    matches, and none for the others; a record's fields are the other
    selectors evaluated within its element (the text of the first match,
    no field where nothing matches).  So the output has at most as many
    records as matched elements, and exactly as many when every matched
    element yields a field. *)
Theorem container_mode_records (soup : node) (selectors : selector_spec)
    (container_css : string) :
  dict_get "container" selectors = Some container_css →
  NoDup (dict_keys selectors) →
  extract_with_selectors soup selectors
    = Ok (List.filter truthy (container_record selectors <$> select soup container_css))
  ∧ (∀ container key css, (key, css) ∈ selectors →
       dict_get key (container_record selectors container)
       = if String.eqb key "container" then None
         else (λ element, VStr (get_text element)) <$> select_one container css)
  ∧ (∀ container,
       container_record selectors container = [] ↔
       ∀ key css, (key, css) ∈ selectors → key ≠ "container" →
         select_one container css = None)
  ∧ (∀ records, extract_with_selectors soup selectors = Ok records →
       (length records ≤ length (select soup container_css))%nat)
  ∧ ((∀ container, container ∈ select soup container_css →
        container_record selectors container ≠ []) →
     extract_with_selectors soup selectors
       = Ok (container_record selectors <$> select soup container_css)).
Proof.
  intros Hcontainer Hnd.
  assert (extract_with_selectors soup selectors
    = Ok (List.filter truthy (container_record selectors <$> select soup container_css)))
    as Heq.
  { unfold extract_with_selectors. rewrite Hcontainer. f_equal.
    rewrite <- keep_record_filter. apply flat_map_fmap. }
  split_and!; [done| | | |].
  - intros container key css Hin. unfold container_record.
    rewrite (dict_fill_get _ _ _ key css Hnd Hin). simpl.
    destruct (String.eqb key "container"); [done|].
    by destruct (select_one container css).
  - intros container. unfold container_record. split.
    + intros Hnil key css Hin Hne.
      pose proof (proj1 (dict_fill_nil _ _) Hnil key css Hin) as Hg. simpl in Hg.
      destruct (String.eqb_spec key "container"); [done|].
      by destruct (select_one container css).
    + intros Hall. apply dict_fill_nil. intros key css Hin.
      destruct (String.eqb_spec key "container"); [done|].
      by rewrite (Hall key css Hin).
  - intros records. rewrite Heq. intros [= <-].
    etransitivity; [apply filter_length_le|]. by rewrite length_fmap.
  - intros Hall. rewrite Heq. f_equal. apply filter_truthy_all.
    intros r Hr. apply list_elem_of_fmap in Hr as (c & -> & Hc). by apply Hall.
Qed.

Lemma truthy_flat_record (soup : node) (selectors : selector_spec) :
  truthy (flat_record soup selectors)
  = existsb (λ '(_, css), truthy (select soup css)) selectors.
Proof.
  destruct (existsb _ selectors) eqn:Hex.
  - apply truthy_cons. unfold flat_record. intros Hnil.
    apply existsb_exists in Hex as ([key css] & Hin & Hsome).
    apply list_elem_of_In in Hin.
    pose proof (proj1 (dict_fill_nil _ _) Hnil key css Hin) as Hg. simpl in Hg.
    by destruct (select soup css) as [|e [|e' es]].
  - apply truthy_nil. unfold flat_record. apply dict_fill_nil. intros key css Hin.
    destruct (select soup css) as [|e es] eqn:Hsel; [done|]. exfalso.
    assert (existsb (λ '(_, css), truthy (select soup css)) selectors = true) as Habs.
    { apply existsb_exists. exists (key, css). split; [by apply list_elem_of_In|].
      by rewrite Hsel. }
    congruence.
Qed.

(** C8 (as amended).  Without a [container] key: when the first field's
    selector matches more than one element, the output is one record per
    match of the first field, and record [i] has, for every field, the
    text of match [i] of the field's selector, the field being absent
    when the selector has fewer matches.  Otherwise the output is a
    single record, or no record at all when no field selector matches
    anything; in the record a field is the text of the only match, or
    the list of the texts of all matches when there are several, and is
    absent when there is no match. *)
Theorem flat_mode_records (soup : node) (selectors : selector_spec)
    (first_key first_css : string) :
  head selectors = Some (first_key, first_css) →
  dict_get "container" selectors = None →
  NoDup (dict_keys selectors) →
  ((1 < length (select soup first_css))%nat →
     extract_with_selectors soup selectors
     = Ok (zip_record soup selectors <$> seq 0 (length (select soup first_css))))
  ∧ (∀ i key css, (key, css) ∈ selectors →
       dict_get key (zip_record soup selectors i)
       = (λ element, VStr (get_text element)) <$> nth_error (select soup css) i)
  ∧ ((length (select soup first_css) ≤ 1)%nat →
     extract_with_selectors soup selectors
     = Ok (if existsb (λ '(_, css), truthy (select soup css)) selectors
           then [flat_record soup selectors] else []))
  ∧ (∀ key css, (key, css) ∈ selectors →
       dict_get key (flat_record soup selectors)
       = match select soup css with
         | [] => None
         | [element] => Some (VStr (get_text element))
         | elements => Some (VList (get_text <$> elements))
         end).
Proof.
  intros Hhead Hcontainer Hnd.
  destruct selectors as [|[k0 c0] rest]; [done|]. injection Hhead as -> ->.
  split_and!.
  - intros Hmany. unfold extract_with_selectors. rewrite Hcontainer.
    destruct (Nat.ltb_spec 1 (length (select soup first_css))) as [_|]; [|lia].
    f_equal. apply flat_map_singletons. intros i Hi.
    apply list_elem_of_In, in_seq in Hi as [_ Hi]. simpl in Hi.
    unfold keep_record.
    destruct (zip_record soup ((first_key, first_css) :: rest) i) eqn:Hrec; [|done].
    exfalso. revert Hrec. unfold zip_record. rewrite dict_fill_cons.
    destruct (nth_error (select soup first_css) i) eqn:Hnth.
    + simpl. by apply dict_fill_nonempty.
    + apply nth_error_None in Hnth. lia.
  - intros i key css Hin. unfold zip_record.
    rewrite (dict_fill_get _ _ _ key css Hnd Hin). simpl.
    by destruct (nth_error (select soup css) i).
  - intros Hfew. unfold extract_with_selectors. rewrite Hcontainer.
    destruct (Nat.ltb_spec 1 (length (select soup first_css))) as [|_]; [lia|].
    f_equal. unfold keep_record. by rewrite truthy_flat_record.
  - intros key css Hin. unfold flat_record.
    rewrite (dict_fill_get _ _ _ key css Hnd Hin). simpl.
    by destruct (select soup css) as [|e [|e' es]].
Qed.

End SelectorProofs.

Lemma container_mode_records_witness :
  dict_get "container" Pages.item_selectors = Some ".item"
  ∧ NoDup (dict_keys Pages.item_selectors)
  ∧ extract_with_selectors Pages.catalogue_page Pages.item_selectors
    = Ok [ [("title", VStr "Lamp"); ("price", VStr "$10")];
           [("title", VStr "Desk"); ("price", VStr "$90")];
           [("title", VStr "Chair"); ("price", VStr "$45")] ].
Proof.
  assert (NoDup (dict_keys Pages.item_selectors)) as Hnd by by_evaluation.
  split_and!; [reflexivity|exact Hnd|].
  rewrite (proj1 (container_mode_records Pages.catalogue_page Pages.item_selectors
                    ".item" eq_refl Hnd)).
  reflexivity.
Defined.

(** The claim of C7 as stated fails on the code: the container selector
    matches three elements, and the output has two records, none for
    the element in which no field selector matches. *)
Lemma container_claim_counterexample :
  length (select Pages.sparse_page ".item") = 3
  ∧ extract_with_selectors Pages.sparse_page Pages.item_selectors
    = Ok [ [("title", VStr "Lamp"); ("price", VStr "$10")];
           [("title", VStr "Chair"); ("price", VStr "$45")] ].
Proof. split; reflexivity. Qed.

Lemma flat_mode_records_witness :
  head Pages.field_selectors = Some ("title", "h3")
  ∧ dict_get "container" Pages.field_selectors = None
  ∧ NoDup (dict_keys Pages.field_selectors)
  ∧ extract_with_selectors Pages.uneven_page Pages.field_selectors
    = Ok [ [("title", VStr "Lamp"); ("price", VStr "$10")]; [("title", VStr "Desk")] ].
Proof.
  assert (NoDup (dict_keys Pages.field_selectors)) as Hnd by by_evaluation.
  split_and!; [reflexivity|reflexivity|exact Hnd|].
  rewrite (proj1 (flat_mode_records Pages.uneven_page Pages.field_selectors
                    "title" "h3" eq_refl eq_refl Hnd)).
  - reflexivity.
  - vm_compute. lia.
Defined.

(** The claim of C8 as stated fails on the code: the first (and only)
    field's selector matches no element, and the output is not a single
    record but no record. *)
Lemma flat_claim_counterexample :
  select Pages.catalogue_page "h1" = []
  ∧ extract_with_selectors Pages.catalogue_page Pages.headline_selectors = Ok [].
Proof. split; reflexivity. Qed.

(** ** The auto chain and the books.toscrape.com path *)

Section AutoProofs.
Context {node : Type} `{Soup node} `{TextLib} `{ItemFields node}.

Lemma extend_if_app {A} (results new : list A) : extend_if results new = results ++ new.
Proof. unfold extend_if. destruct new; simpl; [by rewrite app_nil_r|done]. Qed.

Lemma fold_extend_if {A B} (f : A → list B) (l : list A) (results : list B) :
  fold_left (λ results x, extend_if results (f x)) l results = results ++ flat_map f l.
Proof.
  revert results. induction l as [|x l IH]; intros results; simpl.
  - by rewrite app_nil_r.
  - by rewrite IH, extend_if_app, <- app_assoc.
Qed.

(** The fallback record always has its [full_text] field. *)
Lemma extract_general_data_nonempty (soup : node) : extract_general_data soup ≠ [].
Proof.
  unfold extract_general_data.
  destruct (truthy _ && truthy _); apply dict_set_nonempty.
Qed.

Lemma fallback_step (results : list record) (general_result : record) :
  general_result ≠ [] →
  (if negb (truthy results)
   then if truthy general_result then results ++ [general_result] else results
   else results)
  = match results with [] => [general_result] | _ :: _ => results end.
Proof. intros Hne. destruct results; simpl; [|done]. by destruct general_result. Qed.

Lemma enhanced_auto_extract_eq (soup : node) (current_url : string) :
  enhanced_auto_extract soup current_url
  = match structured_records soup with
    | [] => [extract_general_data soup]
    | _ :: _ => structured_records soup
    end.
Proof.
  unfold enhanced_auto_extract, structured_records.
  rewrite fold_extend_if, !extend_if_app. cbv zeta.
  rewrite fallback_step by apply extract_general_data_nonempty.
  by rewrite app_nil_l, <- !app_assoc.
Qed.

(** C9.  In auto mode the result holds the records of all four
    structured heuristics (tables, product listings, article listings,
    cards), in that order, with none left out; and the fallback record is
    the result exactly when the four produced no record. *)
Theorem auto_chain_not_short_circuited (soup : node) (current_url : string) :
  (∀ r, r ∈ flat_map extract_table_data (find_all soup ["table"])
        ∨ r ∈ extract_product_listings soup
        ∨ r ∈ extract_article_listings soup
        ∨ r ∈ extract_card_data soup →
        r ∈ enhanced_auto_extract soup current_url)
  ∧ (structured_records soup ≠ [] →
     enhanced_auto_extract soup current_url = structured_records soup)
  ∧ (structured_records soup = [] →
     enhanced_auto_extract soup current_url = [extract_general_data soup])
  ∧ (enhanced_auto_extract soup current_url = [extract_general_data soup]
     ∧ extract_general_data soup ∉ structured_records soup
     ↔ structured_records soup = []).
Proof.
  pose proof (enhanced_auto_extract_eq soup current_url) as Heq.
  split_and!.
  - intros r Hr.
    assert (r ∈ structured_records soup) as Hin.
    { unfold structured_records. rewrite !elem_of_app. tauto. }
    rewrite Heq. destruct (structured_records soup); [by apply elem_of_nil in Hin|done].
  - intros Hne. rewrite Heq. by destruct (structured_records soup).
  - intros Hnil. rewrite Heq. by rewrite Hnil.
  - split.
    + intros [Hres Hnotin]. rewrite Heq in Hres.
      destruct (structured_records soup) as [|r rs]; [done|].
      injection Hres as -> ->. exfalso. apply Hnotin. left.
    + intros Hnil. rewrite Heq, Hnil. split; [done|]. apply not_elem_of_nil.
Qed.

(** What the dedicated path reads for each field of a product. *)
Lemma book_record_fields (product : node) :
  dict_get "title" (book_record product)
    = (λ a, VStr (match get a "title" with
                  | Some t => if str_truthy t then t else get_text a
                  | None => get_text a
                  end))
        <$> select_one product "h3 a"
  ∧ dict_get "price" (book_record product)
    = (λ e, VStr (get_text e)) <$> select_one product "p.price_color"
  ∧ dict_get "rating" (book_record product)
    = select_one product "p.star-rating"
        ≫= (λ e, VStr <$> List.find (λ cls, existsb (String.eqb cls) star_names)
                            (get_class e))
  ∧ dict_get "availability" (book_record product)
    = (λ e, VStr (py_strip (replace_char (ascii_of_nat 10) " "%char (get_text e))))
        <$> select_one product "p.instock.availability"
  ∧ dict_get "image" (book_record product)
    = (λ img, VStr (default "" (get img "src")))
        <$> select_one product "div.image_container img"
  ∧ dict_get "link" (book_record product)
    = (λ a, VStr (default "" (get a "href"))) <$> select_one product "h3 a".
Proof.
  unfold book_record, set_from.
  destruct (select_one product "h3 a"),
           (select_one product "p.price_color"),
           (select_one product "p.star-rating") as [rating|],
           (select_one product "p.instock.availability"),
           (select_one product "div.image_container img");
    cbn [fmap option_fmap option_map mbind option_bind];
    try destruct (List.find _ (get_class rating));
    cbn [fmap option_fmap option_map];
    rewrite ?dict_get_set_eq, ?dict_get_set_ne, ?dict_get_set_eq by done;
    rewrite ?dict_get_set_ne, ?dict_get_set_eq by done;
    rewrite ?dict_get_set_ne, ?dict_get_set_eq by done;
    rewrite ?dict_get_set_ne, ?dict_get_set_eq by done;
    rewrite ?dict_get_set_ne, ?dict_get_set_eq by done;
    done.
Qed.

(** C10.  On a page whose markup contains [books.toscrape], product
    extraction first runs the dedicated path: one record for each
    [article.product_pod] element that yields a field, with the title,
    price, rating, availability, image and link read by the site's own
    selectors; and when that path yields a record the result is its
    records: the generic container chain contributes nothing. *)
Theorem books_path_returns_first (soup : node) :
  str_in "books.toscrape" (to_str soup) = true →
  books_toscrape_records soup ≠ [] →
  extract_product_listings soup = books_toscrape_records soup
  ∧ books_toscrape_records soup
    = List.filter truthy (book_record <$> select soup "article.product_pod")
  ∧ ∀ product,
      dict_get "title" (book_record product)
        = (λ a, VStr (match get a "title" with
                      | Some t => if str_truthy t then t else get_text a
                      | None => get_text a
                      end))
            <$> select_one product "h3 a"
      ∧ dict_get "price" (book_record product)
        = (λ e, VStr (get_text e)) <$> select_one product "p.price_color"
      ∧ dict_get "rating" (book_record product)
        = select_one product "p.star-rating"
            ≫= (λ e, VStr <$> List.find (λ cls, existsb (String.eqb cls) star_names)
                                (get_class e))
      ∧ dict_get "availability" (book_record product)
        = (λ e, VStr (py_strip (replace_char (ascii_of_nat 10) " "%char (get_text e))))
            <$> select_one product "p.instock.availability"
      ∧ dict_get "image" (book_record product)
        = (λ img, VStr (default "" (get img "src")))
            <$> select_one product "div.image_container img"
      ∧ dict_get "link" (book_record product)
        = (λ a, VStr (default "" (get a "href"))) <$> select_one product "h3 a".
Proof.
  intros Hsite Hsome. split_and!.
  - unfold extract_product_listings. rewrite Hsite.
    by destruct (books_toscrape_records soup).
  - unfold books_toscrape_records.
    rewrite <- keep_record_filter. apply flat_map_fmap.
  - apply book_record_fields.
Qed.

End AutoProofs.

Lemma books_path_returns_first_witness :
  str_in "books.toscrape" (to_str Pages.books_page) = true
  ∧ books_toscrape_records Pages.books_page ≠ []
  ∧ extract_product_listings Pages.books_page
    = [ [ ("title", VStr "A Light in the Attic");
          ("price", VStr "51.77");
          ("rating", VStr "Three");
          ("availability", VStr "In stock");
          ("image", VStr "media/cache/2c/da/2cdad67c.jpg");
          ("link", VStr "catalogue/a-light-in-the-attic_1000/index.html") ] ].
Proof.
  assert (str_in "books.toscrape" (to_str Pages.books_page) = true) as Hsite
    by (vm_compute; reflexivity).
  assert (books_toscrape_records Pages.books_page ≠ []) as Hsome by (vm_compute; done).
  split_and!; [exact Hsite|exact Hsome|].
  rewrite (proj1 (books_path_returns_first Pages.books_page Hsite Hsome)).
  vm_compute. reflexivity.
Defined.

(** ** Pagination discovery *)

Section PaginationProofs.
Context {node : Type} `{Soup node} `{UrlLib} `{TextLib}.

Lemma same_site_discovered (current_url : string) (link : node) :
  Forall (discovered_from current_url) (same_site current_url link).
Proof.
  unfold same_site.
  destruct (get link "href") as [href|]; [|done].
  destruct (str_truthy href); [|done].
  destruct (String.eqb_spec (url_netloc (urljoin current_url href))
              (url_netloc current_url)) as [Heq|]; [|done].
  apply Forall_cons. split; [|done].
  unfold discovered_from, url_hostname. rewrite Heq. eauto.
Qed.

Lemma flat_map_same_site (current_url : string) (links : list node) :
  Forall (discovered_from current_url) (flat_map (same_site current_url) links).
Proof.
  induction links as [|link links IH]; simpl; [done|].
  apply Forall_app. split; [apply same_site_discovered|done].
Qed.

Lemma scan_pagination_discovered (soup : node) (current_url : string)
    (selectors : list string) (pagination_links : list string) :
  Forall (discovered_from current_url) pagination_links →
  Forall (discovered_from current_url)
    (scan_pagination soup current_url selectors pagination_links).
Proof.
  revert pagination_links.
  induction selectors as [|selector rest IH]; intros acc Hacc; simpl; [done|].
  destruct (truthy (select soup selector)); [|by apply IH].
  assert (Forall (discovered_from current_url)
            (acc ++ flat_map (same_site current_url)
                      (pagination_anchors (select soup selector)))) as Hnew.
  { apply Forall_app. split; [done|apply flat_map_same_site]. }
  destruct (truthy _); [done|by apply IH].
Qed.

Lemma scan_next_discovered (soup : node) (current_url : string) (patterns : list string) :
  Forall (discovered_from current_url) (scan_next soup current_url patterns).
Proof.
  induction patterns as [|pattern rest IH]; simpl; [done|].
  destruct (find_anchor_by_text soup pattern) as [next_link|]; [|done].
  pose proof (same_site_discovered current_url next_link) as Hsite.
  by destruct (same_site current_url next_link).
Qed.

Lemma find_pagination_links_discovered (soup : node) (current_url : string) :
  Forall (discovered_from current_url) (find_pagination_links soup current_url).
Proof.
  unfold find_pagination_links. apply Forall_take.
  destruct (negb _).
  - apply scan_next_discovered.
  - by apply scan_pagination_discovered.
Qed.

Lemma find_pagination_links_length (soup : node) (current_url : string) :
  (length (find_pagination_links soup current_url) ≤ 5)%nat.
Proof. unfold find_pagination_links. rewrite length_take. lia. Qed.

End PaginationProofs.

(** ** The crawl loop *)

Section CrawlProofs.
Context {node ip policy : Type}.
Context `{Soup node} `{UrlLib} `{TextLib} `{ItemFields node} `{Network node ip policy}.

Lemma enqueue_links_elem (visited : gset string) (frontier next_links : list string)
    (u : string) :
  u ∈ enqueue_links visited frontier next_links → u ∈ frontier ∨ u ∈ next_links.
Proof.
  unfold enqueue_links. revert frontier.
  induction next_links as [|link links IH]; intros frontier Hu; simpl in Hu.
  { by left. }
  apply IH in Hu as [Hu|Hu]; [|right; by right].
  destruct (_ && _); [|by left].
  apply elem_of_app in Hu as [Hu|Hu]; [by left|].
  apply list_elem_of_singleton in Hu as ->. right. left.
Qed.

Lemma enqueue_links_length (visited : gset string) (frontier next_links : list string) :
  (length (enqueue_links visited frontier next_links)
   ≤ length frontier + length next_links)%nat.
Proof.
  unfold enqueue_links. revert frontier.
  induction next_links as [|link links IH]; intros frontier; simpl; [lia|].
  etransitivity; [apply IH|].
  destruct (_ && _); [rewrite length_app; simpl|]; lia.
Qed.

(** The frontier is a queue: discovery appends at its back. *)
Lemma enqueue_links_prefix (visited : gset string) (frontier next_links : list string) :
  ∃ added, enqueue_links visited frontier next_links = frontier ++ added.
Proof.
  unfold enqueue_links. revert frontier.
  induction next_links as [|link links IH]; intros frontier; simpl.
  { exists []. by rewrite app_nil_r. }
  destruct (_ && _); [|apply IH].
  destruct (IH (frontier ++ [link])) as [added ->].
  exists (link :: added). by rewrite <- app_assoc.
Qed.

(** *** Termination *)

Lemma loop_cond_true (max_pages : Z) (st : CrawlState) :
  loop_cond max_pages st = true ↔
  urls_to_visit st ≠ [] ∧ (pages_scraped st < max_pages)%Z.
Proof.
  unfold loop_cond. rewrite andb_true_iff, truthy_cons, Z.ltb_lt. done.
Qed.

Lemma loop_body_potential (mode : string) (selectors : option selector_spec)
    (max_pages : Z) (st : CrawlState) :
  loop_cond max_pages st = true →
  (crawl_potential max_pages (loop_body mode selectors max_pages st)
   < crawl_potential max_pages st)%nat.
Proof.
  intros [Hfrontier Hpages]%loop_cond_true.
  unfold loop_body, crawl_potential.
  destruct (urls_to_visit st) as [|current_url rest]; [done|].
  destruct (bool_decide _); simpl; [lia|].
  destruct (requests_get current_url) as [soup|]; simpl; [|lia].
  destruct (extract_page mode selectors soup current_url); simpl; [|lia].
  pose proof (find_pagination_links_length soup current_url) as Hfive.
  pose proof (enqueue_links_length (visited_urls st ∪ {[current_url]}) rest
                (find_pagination_links soup current_url)) as Hlen.
  destruct (_ <? _)%Z; lia.
Qed.

(** With fuel for the potential of the state, the loop has left through
    its condition. *)
Lemma crawl_loop_exits (fuel : nat) (mode : string) (selectors : option selector_spec)
    (max_pages : Z) (st : CrawlState) :
  (crawl_potential max_pages st ≤ fuel)%nat →
  loop_cond max_pages (crawl_loop fuel mode selectors max_pages st) = false.
Proof.
  revert st. induction fuel as [|fuel IH]; intros st Hfuel; simpl.
  - unfold crawl_potential in Hfuel. unfold loop_cond.
    destruct (urls_to_visit st); [done|simpl in Hfuel; lia].
  - destruct (loop_cond max_pages st) eqn:Hcond; [|done].
    apply IH. pose proof (loop_body_potential mode selectors _ _ Hcond). lia.
Qed.

(** More fuel than the potential changes nothing. *)
Lemma crawl_loop_fuel (fuel fuel' : nat) (mode : string)
    (selectors : option selector_spec) (max_pages : Z) (st : CrawlState) :
  (crawl_potential max_pages st ≤ fuel)%nat →
  (crawl_potential max_pages st ≤ fuel')%nat →
  crawl_loop fuel mode selectors max_pages st
  = crawl_loop fuel' mode selectors max_pages st.
Proof.
  revert fuel' st. induction fuel as [|fuel IH]; intros fuel' st Hfuel Hfuel'.
  - destruct fuel' as [|fuel']; simpl; [done|].
    destruct (loop_cond max_pages st) eqn:Hcond; [|done].
    pose proof (loop_body_potential mode selectors _ _ Hcond). lia.
  - simpl. destruct (loop_cond max_pages st) eqn:Hcond.
    + pose proof (loop_body_potential mode selectors _ _ Hcond).
      destruct fuel' as [|fuel']; [lia|]. simpl. rewrite Hcond.
      apply IH; lia.
    + destruct fuel' as [|fuel']; simpl; [done|]. by rewrite Hcond.
Qed.

(** The crawl ends with the loop condition false. *)
Lemma crawl_exits (url mode : string) (selectors : option selector_spec) (max_pages : Z) :
  loop_cond max_pages (crawl url mode selectors max_pages) = false.
Proof. unfold crawl, crawl_fuel. by apply crawl_loop_exits. Qed.

(** *** Invariants *)

Lemma loop_body_fetch_inv (mode : string) (selectors : option selector_spec)
    (max_pages : Z) (st : CrawlState) :
  fetch_inv st → fetch_inv (loop_body mode selectors max_pages st).
Proof.
  intros [Hnd Hvis]. unfold loop_body.
  destruct (urls_to_visit st) as [|current_url rest]; [done|].
  destruct (bool_decide_reflect (current_url ∈ visited_urls st)) as [|Hnew]; [done|].
  assert (fetch_inv
            {| all_results := all_results st;
               visited_urls := visited_urls st ∪ {[current_url]};
               urls_to_visit := rest; pages_scraped := pages_scraped st;
               fetched := fetched st ++ [current_url] |}) as Hskip.
  { split; simpl.
    - apply NoDup_app. split_and!; [done| |apply NoDup_singleton].
      intros u Hu ->%list_elem_of_singleton. by apply Hnew, Hvis.
    - intros u.
      by rewrite elem_of_app, list_elem_of_singleton, elem_of_union, elem_of_singleton,
        (Hvis u). }
  destruct (requests_get current_url) as [soup|]; [|done].
  destruct (extract_page mode selectors soup current_url); [|done].
  destruct Hskip as [Hnd' Hvis']. by split.
Qed.

Lemma loop_body_pages (mode : string) (selectors : option selector_spec)
    (max_pages : Z) (st : CrawlState) :
  loop_cond max_pages st = true →
  (pages_scraped st ≤ pages_scraped (loop_body mode selectors max_pages st) ≤ max_pages)%Z.
Proof.
  intros [Hfrontier Hpages]%loop_cond_true. unfold loop_body.
  destruct (urls_to_visit st) as [|current_url rest]; [done|].
  destruct (bool_decide _); simpl; [lia|].
  destruct (requests_get current_url) as [soup|]; simpl; [|lia].
  destruct (extract_page mode selectors soup current_url); simpl; lia.
Qed.

Lemma crawl_loop_fetch_inv (fuel : nat) (mode : string)
    (selectors : option selector_spec) (max_pages : Z) (st : CrawlState) :
  fetch_inv st → fetch_inv (crawl_loop fuel mode selectors max_pages st).
Proof.
  revert st. induction fuel as [|fuel IH]; intros st Hinv; simpl; [done|].
  destruct (loop_cond max_pages st); [|done].
  by apply IH, loop_body_fetch_inv.
Qed.

Lemma crawl_loop_pages (fuel : nat) (mode : string)
    (selectors : option selector_spec) (max_pages : Z) (st : CrawlState) :
  (pages_scraped st ≤ max_pages)%Z →
  (pages_scraped st
   ≤ pages_scraped (crawl_loop fuel mode selectors max_pages st) ≤ max_pages)%Z.
Proof.
  revert st. induction fuel as [|fuel IH]; intros st Hle; simpl; [lia|].
  destruct (loop_cond max_pages st) eqn:Hcond; [|lia].
  pose proof (loop_body_pages mode selectors _ _ Hcond) as Hstep.
  specialize (IH (loop_body mode selectors max_pages st)). lia.
Qed.

Lemma init_state_fetch_inv (url : string) : fetch_inv (init_state url).
Proof. split; simpl; [apply NoDup_nil_2|]. intros u. set_solver. Qed.

Lemma crawl_loop_S (fuel : nat) (mode : string) (selectors : option selector_spec)
    (max_pages : Z) (st : CrawlState) :
  crawl_loop (S fuel) mode selectors max_pages st
  = if loop_cond max_pages st
    then crawl_loop fuel mode selectors max_pages (loop_body mode selectors max_pages st)
    else st.
Proof. reflexivity. Qed.

Lemma crawl_loop_done (fuel : nat) (mode : string) (selectors : option selector_spec)
    (max_pages : Z) (st : CrawlState) :
  loop_cond max_pages st = false → crawl_loop fuel mode selectors max_pages st = st.
Proof. intros Hcond. destruct fuel; [done|]. by rewrite crawl_loop_S, Hcond. Qed.

Lemma crawl_fuel_S (url : string) (max_pages : Z) :
  crawl_fuel url max_pages = S (5 * Z.to_nat max_pages).
Proof.
  unfold crawl_fuel, crawl_potential, init_state.
  cbn [urls_to_visit pages_scraped length]. by rewrite Z.sub_0_r.
Qed.

(** The first iteration with a budget of one page: the seed is fetched
    and the loop condition is false afterwards. *)
Lemma loop_body_budget_one (url mode : string) (selectors : option selector_spec) :
  fetched (loop_body mode selectors 1 (init_state url)) = [url]
  ∧ (pages_scraped (loop_body mode selectors 1 (init_state url)) ≤ 1)%Z
  ∧ loop_cond 1 (loop_body mode selectors 1 (init_state url)) = false.
Proof.
  unfold loop_body, init_state, loop_cond.
  cbn [urls_to_visit visited_urls fetched all_results pages_scraped].
  case_bool_decide as Hseen; [set_solver|].
  destruct (requests_get url) as [soup|];
    [destruct (extract_page mode selectors soup url)|];
    rewrite ?Z.add_0_l; try change (1 <? 1)%Z with false;
    cbn [urls_to_visit visited_urls fetched all_results pages_scraped truthy andb];
    split_and!; (done || lia).
Qed.

(** With a budget of one page the seed is the only URL fetched. *)
Lemma crawl_budget_one (url mode : string) (selectors : option selector_spec) :
  fetched (crawl url mode selectors 1) = [url]
  ∧ (pages_scraped (crawl url mode selectors 1) ≤ 1)%Z.
Proof.
  destruct (loop_body_budget_one url mode selectors) as (Hfetched & Hpages & Hcond).
  unfold crawl. rewrite crawl_fuel_S, crawl_loop_S.
  assert (loop_cond 1 (init_state url) = true) as -> by reflexivity.
  by rewrite crawl_loop_done.
Qed.

(** C4.  At every iteration of the crawl loop of a job with a page
    budget of at least 0: no URL has been fetched twice, every fetched
    URL is in the visited set, and the page counter is at most the page
    budget; and the loop ends.  With page budget 1 the seed is the only
    URL fetched: no next-page link that the page advertises is
    followed. *)
Theorem crawl_never_refetches_nor_exceeds_budget (url mode : string)
    (selectors : option selector_spec) (max_pages : Z) (iterations : nat) :
  (0 ≤ max_pages)%Z →
  let st := crawl_loop iterations mode selectors max_pages (init_state url) in
  NoDup (fetched st)
  ∧ (∀ u, u ∈ fetched st → u ∈ visited_urls st)
  ∧ (pages_scraped st ≤ max_pages)%Z
  ∧ loop_cond max_pages (crawl url mode selectors max_pages) = false
  ∧ (max_pages = 1%Z →
     fetched (crawl url mode selectors max_pages) = [url]
     ∧ ∀ soup link,
         requests_get url = Some soup →
         link ∈ find_pagination_links soup url →
         link ≠ url →
         link ∉ fetched (crawl url mode selectors max_pages)).
Proof.
  intros Hbudget st.
  pose proof (crawl_loop_fetch_inv iterations mode selectors max_pages _
                (init_state_fetch_inv url)) as [Hnd Hvis].
  pose proof (crawl_loop_pages iterations mode selectors max_pages
                (init_state url) Hbudget) as Hpages.
  split_and!; [done|by intros u Hu; apply Hvis|subst st; lia|apply crawl_exits|].
  intros ->. destruct (crawl_budget_one url mode selectors) as [Hone _].
  split; [done|]. intros soup link _ _ Hne. rewrite Hone.
  by intros ->%list_elem_of_singleton.
Qed.

(** *** The frontier stays on the seed's host *)

Lemma discovered_same_origin (seed current_url url : string) :
  same_origin seed current_url → discovered_from current_url url → same_origin seed url.
Proof.
  intros [Hn Hh] (Hn' & Hh' & _). split; congruence.
Qed.

Lemma loop_body_frontier (seed mode : string) (selectors : option selector_spec)
    (max_pages : Z) (st : CrawlState) :
  Forall (same_origin seed) (urls_to_visit st) →
  Forall (same_origin seed) (urls_to_visit (loop_body mode selectors max_pages st)).
Proof.
  intros Hfrontier. unfold loop_body.
  destruct (urls_to_visit st) as [|current_url rest] eqn:Hf; [by rewrite Hf|].
  apply Forall_cons in Hfrontier as [Hcurrent Hrest].
  destruct (bool_decide _); simpl; [done|].
  destruct (requests_get current_url) as [soup|]; simpl; [|done].
  destruct (extract_page mode selectors soup current_url); simpl; [|done].
  destruct (_ <? _)%Z; [|done].
  apply Forall_forall. intros u [Hu|Hu]%enqueue_links_elem.
  - by eapply Forall_forall in Hrest.
  - apply (discovered_same_origin seed current_url); [done|].
    pose proof (find_pagination_links_discovered soup current_url) as Hall.
    by eapply Forall_forall in Hall.
Qed.

Lemma crawl_loop_frontier (seed : string) (fuel : nat) (mode : string)
    (selectors : option selector_spec) (max_pages : Z) (st : CrawlState) :
  Forall (same_origin seed) (urls_to_visit st) →
  Forall (same_origin seed)
    (urls_to_visit (crawl_loop fuel mode selectors max_pages st)).
Proof.
  revert st. induction fuel as [|fuel IH]; intros st Hinv; simpl; [done|].
  destruct (loop_cond max_pages st); [|done].
  by apply IH, loop_body_frontier.
Qed.

(** C5.  Every URL returned by pagination discovery is an [href] of the
    page resolved against the page's URL and has the page's network
    location, hence its host; at most 5 are returned.  So every URL that
    is ever in the frontier of a crawl has the host of the seed. *)
Theorem pagination_links_same_host (soup : node) (current_url : string) :
  Forall (λ url,
      url_netloc url = url_netloc current_url
      ∧ url_hostname url = url_hostname current_url
      ∧ ∃ href, url = urljoin current_url href)
    (find_pagination_links soup current_url)
  ∧ (length (find_pagination_links soup current_url) ≤ 5)%nat
  ∧ (∀ seed mode selectors max_pages iterations,
       Forall (λ url,
           url_netloc url = url_netloc seed ∧ url_hostname url = url_hostname seed)
         (urls_to_visit
            (crawl_loop iterations mode selectors max_pages (init_state seed)))).
Proof.
  split_and!.
  - apply find_pagination_links_discovered.
  - apply find_pagination_links_length.
  - intros seed mode selectors max_pages iterations.
    apply (crawl_loop_frontier seed). simpl. by apply Forall_singleton.
Qed.

End CrawlProofs.

(** ** The safety gate and the job runner *)

Lemma http_get_filter (u : string) (events : list event) :
  HttpGet u ∈ events → HttpGet u ∈ List.filter is_http_get events.
Proof. intros Hu. apply list_elem_of_In, filter_In. split; [by apply list_elem_of_In|done]. Qed.

Section JobProofs.
Context {node ip policy : Type}.
Context `{Soup node} `{UrlLib} `{TextLib} `{ItemFields node} `{Network node ip policy}.

(** *** The gate *)

Lemma scrape_url_allowed (url mode : string) (selectors : option selector_spec)
    (crawl_depth max_pages : Z) :
  (check_robots url).2 = true → (is_safe_url url).2 = true →
  scrape_url url mode selectors crawl_depth max_pages
  = ((check_robots url).1 ++ (is_safe_url url).1
       ++ (HttpGet <$> fetched (crawl url mode selectors max_pages)),
     Ok (all_results (crawl url mode selectors max_pages))).
Proof.
  unfold scrape_url. destruct (check_robots url) as [ev1 allowed].
  destruct (is_safe_url url) as [ev2 safe]. simpl. by intros -> ->.
Qed.

Lemma check_robots_events (url : string) :
  (check_robots url).1
  = [RobotsFetch (url_scheme url +:+ "://" +:+ url_netloc url +:+ "/robots.txt")].
Proof. reflexivity. Qed.

Lemma is_safe_url_events (url : string) :
  List.filter is_http_get (is_safe_url url).1 = [].
Proof.
  unfold is_safe_url. destruct (url_hostname url) as [hostname|]; [|done].
  by destruct (negb (str_truthy hostname)).
Qed.

Lemma scrape_url_denied (url mode : string) (selectors : option selector_spec)
    (crawl_depth max_pages : Z) :
  (check_robots url).2 = false ∨ (is_safe_url url).2 = false →
  (∃ msg, (scrape_url url mode selectors crawl_depth max_pages).2 = Raise msg)
  ∧ List.filter is_http_get (scrape_url url mode selectors crawl_depth max_pages).1 = [].
Proof.
  intros Hdeny. unfold scrape_url.
  pose proof (is_safe_url_events url) as Hdns.
  pose proof (check_robots_events url) as Hrobots.
  destruct (check_robots url) as [ev1 allowed]. destruct (is_safe_url url) as [ev2 safe].
  simpl in *. subst ev1.
  destruct allowed; simpl.
  - destruct Hdeny as [Habs| ->]; [done|]. simpl. split; [eauto|done].
  - split; [eauto|done].
Qed.

(** A host name that does not resolve, or resolves to a private,
    loopback or link-local address, is not safe. *)
Lemma is_safe_url_unsafe (url hostname : string) :
  url_hostname url = Some hostname →
  match gethostbyname hostname with
  | Some a => is_private a || is_loopback a || is_link_local a = true
  | None => True
  end →
  (is_safe_url url).2 = false.
Proof.
  unfold is_safe_url. intros -> Hip.
  destruct (negb (str_truthy hostname)); [done|]. simpl.
  destruct (gethostbyname hostname) as [a|]; [|done]. by rewrite Hip.
Qed.

(** For a seed that is not safe the job is denied and no page is
    requested; the robots policy of the seed's origin is requested
    first all the same. *)
Lemma unsafe_seed_denied (url mode : string) (selectors : option selector_spec)
    (crawl_depth max_pages : Z) :
  (is_safe_url url).2 = false →
  (∃ msg, (scrape_url url mode selectors crawl_depth max_pages).2 = Raise msg)
  ∧ List.filter is_http_get (scrape_url url mode selectors crawl_depth max_pages).1 = []
  ∧ head (scrape_url url mode selectors crawl_depth max_pages).1
    = Some (RobotsFetch (url_scheme url +:+ "://" +:+ url_netloc url +:+ "/robots.txt")).
Proof.
  intros Hunsafe.
  destruct (scrape_url_denied url mode selectors crawl_depth max_pages) as [Hmsg Hget];
    [by right|].
  split_and!; [done..|].
  unfold scrape_url. pose proof (check_robots_events url) as Hrobots.
  destruct (check_robots url) as [ev1 allowed]. destruct (is_safe_url url) as [ev2 safe].
  simpl in *. subst ev1 safe. by destruct allowed.
Qed.

(** *** One job *)

(** When the fetch of the seed fails the crawl ends at once, without
    records and without another fetch. *)
Lemma crawl_seed_fails (url mode : string) (selectors : option selector_spec)
    (max_pages : Z) :
  requests_get url = None →
  all_results (crawl url mode selectors max_pages) = []
  ∧ (fetched (crawl url mode selectors max_pages) = [url]
     ∨ fetched (crawl url mode selectors max_pages) = []).
Proof.
  intros Hget. unfold crawl. rewrite crawl_fuel_S, crawl_loop_S.
  destruct (loop_cond max_pages (init_state url)) eqn:Hcond; [|by split; [|right]].
  assert (loop_body mode selectors max_pages (init_state url)
          = {| all_results := []; visited_urls := ∅ ∪ {[url]}; urls_to_visit := [];
               pages_scraped := 0; fetched := [url] |}) as ->.
  { unfold loop_body, init_state.
    cbn [urls_to_visit visited_urls fetched all_results pages_scraped].
    case_bool_decide as Hseen; [set_solver|].
    by rewrite Hget. }
  rewrite crawl_loop_done by done. by split; [|left].
Qed.

(** What [process_job] does to the row of its job, and that it leaves
    the other rows alone. *)
Lemma process_job_spec (d : Db) (job_id : string) (job : Job) :
  jobs d !! job_id = Some job →
  ∃ job',
    jobs (process_job d job_id).1 !! job_id = Some job'
    ∧ job_history job' = job_history job ++ [running; job_status job']
    ∧ (process_job d job_id).2 = (job_scrape job).1
    ∧ match (job_scrape job).2 with
      | Ok [] =>
          job_status job' = failed ∧ job_error job' = Some NO_DATA
          ∧ results_table (process_job d job_id).1 = results_table d
      | Ok results =>
          job_status job' = completed
          ∧ results_table (process_job d job_id).1 = results_table d ++ [(job_id, results)]
      | Raise msg =>
          job_status job' = failed ∧ job_error job' = Some msg
          ∧ results_table (process_job d job_id).1 = results_table d
      end
    ∧ ∀ other, other ≠ job_id → jobs (process_job d job_id).1 !! other = jobs d !! other.
Proof.
  intros Hjob. unfold process_job, job_scrape. rewrite Hjob.
  destruct (scrape_url _ _ _ _ _) as [events [[|r results]|msg]];
    cbn [fst snd truthy set_status insert_results jobs results_table];
    rewrite !lookup_alter_eq, Hjob; cbn [fmap option_fmap option_map];
    (eexists; refine (conj eq_refl (conj _ (conj eq_refl (conj _ _)))));
    [ cbn; by rewrite <- app_assoc | by split_and! | intros other Hne; by rewrite !lookup_alter_ne
    | cbn; by rewrite <- app_assoc | by split_and! | intros other Hne; by rewrite !lookup_alter_ne
    | cbn; by rewrite <- app_assoc | by split_and! | intros other Hne; by rewrite !lookup_alter_ne ].
Qed.

Lemma process_job_missing (d : Db) (job_id : string) :
  jobs d !! job_id = None → process_job d job_id = (d, []).
Proof. intros Hjob. unfold process_job. by rewrite Hjob. Qed.

End JobProofs.

Section SystemProofs.
Context {node ip policy : Type}.
Context `{Soup node} `{UrlLib} `{TextLib} `{ItemFields node} `{Network node ip policy}.

Lemma sys_inv_init : sys_inv sys_init.
Proof.
  split; simpl.
  - intros id j Hj. by rewrite lookup_empty in Hj.
  - apply NoDup_nil_2.
  - intros id Hid. by apply elem_of_nil in Hid.
  - intros id j Hj. by rewrite lookup_empty in Hj.
Qed.

Lemma sys_inv_create (job_id url mode : string) (crawl_depth max_pages : option Z)
    (selectors : option selector_spec) (sys : System) :
  sys_inv sys →
  sys_inv (create_scrape_job job_id url mode crawl_depth max_pages selectors sys).
Proof.
  intros [Hlegal Hnd Hqueue Hres]. unfold create_scrape_job.
  destruct (negb (str_truthy url)); [done|].
  destruct (_ || _); [done|].
  destruct (negb (sqlite_int crawl_depth && sqlite_int max_pages)); [done|].
  destruct (jobs (sys_db sys) !! job_id) as [existing|] eqn:Hfresh; [done|].
  split; simpl.
  - intros id j. rewrite lookup_insert. case_decide as Hid.
    + intros [= <-]. by left.
    + apply Hlegal.
  - apply NoDup_app. split_and!; [done| |apply NoDup_singleton].
    intros id Hid ->%list_elem_of_singleton.
    destruct (Hqueue _ Hid) as (j & Hj & _). congruence.
  - intros id [Hid| ->%list_elem_of_singleton]%elem_of_app.
    + destruct (Hqueue _ Hid) as (j & Hj & Hhist). exists j.
      rewrite lookup_insert_ne; [done|]. intros ->. congruence.
    + rewrite lookup_insert_eq. by eexists.
  - intros id j. rewrite lookup_insert. case_decide as Hid.
    + by intros [= <-].
    + apply Hres.
Qed.

Lemma sys_inv_work (sys : System) : sys_inv sys → sys_inv (worker_turn sys).
Proof.
  intros Hinv. unfold worker_turn.
  destruct (job_queue sys) as [|job_id rest] eqn:Hq; [done|].
  destruct Hinv as [Hlegal Hnd Hqueue Hres]. rewrite Hq in Hnd, Hqueue.
  apply NoDup_cons in Hnd as [Hfresh Hnd].
  destruct (Hqueue job_id) as (job & Hjob & Hhist); [left|].
  destruct (process_job_spec _ _ _ Hjob) as (job' & Hjob' & Hhist' & _ & Hout & Hother).
  rewrite Hhist in Hhist'. simpl in Hhist'.
  assert (∀ id records, (id, records) ∈ results_table (sys_db sys) →
            (id, records) ∈ results_table (process_job (sys_db sys) job_id).1) as Hkeep.
  { intros id records Hin.
    destruct ((job_scrape job).2) as [[|r results]|msg].
    - by destruct Hout as (_ & _ & ->).
    - destruct Hout as (_ & ->). apply elem_of_app. by left.
    - by destruct Hout as (_ & _ & ->). }
  split; simpl.
  - intros id j. destruct (decide (id = job_id)) as [->|Hne].
    + rewrite Hjob'. intros [= <-]. unfold job_legal. rewrite Hhist'.
      destruct (job_status job') eqn:Hst; try tauto.
      * destruct ((job_scrape job).2) as [[|r results]|msg];
          destruct Hout as [Habs _]; congruence.
      * destruct ((job_scrape job).2) as [[|r results]|msg];
          destruct Hout as [Habs _]; congruence.
    + rewrite Hother by done. apply Hlegal.
  - done.
  - intros id Hid. destruct (Hqueue id) as (j & Hj & Hh); [by right|].
    exists j. split; [|done]. rewrite Hother; [done|]. by intros ->.
  - intros id j. destruct (decide (id = job_id)) as [->|Hne].
    + rewrite Hjob'. intros [= <-] Hdone.
      destruct ((job_scrape job).2) as [[|r results]|msg].
      * destruct Hout as [Habs _]. congruence.
      * destruct Hout as (_ & ->). exists (r :: results). split; [|done].
        apply elem_of_app. right. left.
      * destruct Hout as [Habs _]. congruence.
    + rewrite Hother by done. intros Hj Hdone.
      destruct (Hres id j Hj Hdone) as (records & Hin & Hne'). eauto.
Qed.

Lemma reachable_inv (sys : System) : reachable sys → sys_inv sys.
Proof.
  unfold reachable. revert sys. apply rtc_ind_r.
  - apply sys_inv_init.
  - intros sys sys' _ Hstep IH.
    destruct Hstep; [by apply sys_inv_create|by apply sys_inv_work].
Qed.

(** C3.  In every state the system reaches, the status of every job
    has gone through [queued], or [queued, running, completed], or
    [queued, running, failed], and nothing else; a completed job has a
    stored, non-empty record list.  When the worker processes a job, the
    job ends [completed] exactly when the crawl returned a non-empty
    record list, and an empty record list makes it [failed] with the
    reason [No data extracted]. *)
Theorem job_status_transitions (sys : System) (job_id : string) (job : Job) :
  reachable sys →
  jobs (sys_db sys) !! job_id = Some job →
  (job_history job = [queued]
   ∨ job_history job = [queued; running; completed]
   ∨ job_history job = [queued; running; failed])
  ∧ last (job_history job) = Some (job_status job)
  ∧ (job_status job = completed →
     ∃ records, (job_id, records) ∈ results_table (sys_db sys) ∧ records ≠ [])
  ∧ (∃ job', jobs (process_job (sys_db sys) job_id).1 !! job_id = Some job'
       ∧ (job_status job' = completed ∨ job_status job' = failed)
       ∧ (job_status job' = completed ↔
          ∃ records, (job_scrape job).2 = Ok records ∧ records ≠ [])
       ∧ ((job_scrape job).2 = Ok [] →
          job_status job' = failed ∧ job_error job' = Some "No data extracted")).
Proof.
  intros Hreach Hjob. destruct (reachable_inv sys Hreach) as [Hlegal _ _ Hres].
  split_and!.
  - destruct (Hlegal _ _ Hjob) as [[? _]|[[? _]|[? _]]]; tauto.
  - destruct (Hlegal _ _ Hjob) as [[-> ->]|[[-> ->]|[-> ->]]]; done.
  - by apply Hres.
  - destruct (process_job_spec _ _ _ Hjob) as (job' & Hjob' & _ & _ & Hout & _).
    exists job'. split; [done|].
    destruct ((job_scrape job).2) as [[|r results]|msg].
    + destruct Hout as (Hst & Herr & _). split_and!; [by right| |done].
      rewrite Hst. split; [done|]. by intros (records & [= <-] & Hne).
    + destruct Hout as (Hst & _). split_and!; [by left| |done].
      rewrite Hst. split; [|done]. intros _. by eexists.
    + destruct Hout as (Hst & Herr & _). split_and!; [by right| |done].
      rewrite Hst. split; [done|]. by intros (records & [=] & _).
Qed.

(** C2.  When the fetch of the seed URL fails, the job ends [failed]
    and no other URL is fetched.  When the fetch of a later URL fails,
    the loop marks the URL visited, leaves the records and the page
    counter as they are and goes on with the rest of the frontier; and
    whatever fetches fail, a crawl that passed the gate returns its
    records without raising. *)
Theorem fetch_error_fatal_for_seed_only :
  (∀ d job_id job,
     jobs d !! job_id = Some job →
     requests_get (job_url job) = None →
     ∃ job', jobs (process_job d job_id).1 !! job_id = Some job'
       ∧ job_status job' = failed
       ∧ ∀ u, HttpGet u ∈ (process_job d job_id).2 → u = job_url job)
  ∧ (∀ mode selectors max_pages st current_url rest fuel,
       urls_to_visit st = current_url :: rest →
       (pages_scraped st < max_pages)%Z →
       current_url ∉ visited_urls st →
       requests_get current_url = None →
       crawl_loop (S fuel) mode selectors max_pages st
       = crawl_loop fuel mode selectors max_pages
           {| all_results := all_results st;
              visited_urls := visited_urls st ∪ {[current_url]};
              urls_to_visit := rest;
              pages_scraped := pages_scraped st;
              fetched := fetched st ++ [current_url] |})
  ∧ (∀ url mode selectors crawl_depth max_pages,
       (check_robots url).2 = true → (is_safe_url url).2 = true →
       (scrape_url url mode selectors crawl_depth max_pages).2
       = Ok (all_results (crawl url mode selectors max_pages))
       ∧ loop_cond max_pages (crawl url mode selectors max_pages) = false).
Proof.
  split_and!.
  - intros d job_id job Hjob Hget.
    destruct (process_job_spec _ _ _ Hjob) as (job' & Hjob' & _ & Hev & Hout & _).
    exists job'. split; [done|]. rewrite Hev. unfold job_scrape in *.
    set (mp := int_or (job_max_pages job) 1) in *.
    set (cd := int_or (job_crawl_depth job) 0) in *.
    destruct (crawl_seed_fails (job_url job) (job_mode job) (job_selectors job) mp Hget)
      as [Hnone Hfetched].
    destruct ((check_robots (job_url job)).2) eqn:Hrobots;
      [destruct ((is_safe_url (job_url job)).2) eqn:Hsafe|].
    + rewrite (scrape_url_allowed _ _ _ cd mp Hrobots Hsafe) in Hout |- *.
      cbn [fst snd] in *. rewrite Hnone in Hout. destruct Hout as (Hst & _).
      split; [done|]. intros u Hu.
      apply elem_of_app in Hu as [Hu|Hu]; [|apply elem_of_app in Hu as [Hu|Hu]].
      * rewrite check_robots_events in Hu. by apply list_elem_of_singleton in Hu.
      * apply http_get_filter in Hu. rewrite is_safe_url_events in Hu.
        by apply elem_of_nil in Hu.
      * apply list_elem_of_fmap in Hu as (u' & [= ->] & Hu').
        destruct Hfetched as [Hf|Hf]; rewrite Hf in Hu'.
        -- by apply list_elem_of_singleton in Hu'.
        -- by apply elem_of_nil in Hu'.
    + destruct (scrape_url_denied (job_url job) (job_mode job) (job_selectors job) cd mp)
        as [[msg Hmsg] Hnoget]; [by right|].
      rewrite Hmsg in Hout. destruct Hout as (Hst & _). split; [done|].
      intros u Hu. apply http_get_filter in Hu. rewrite Hnoget in Hu.
      by apply elem_of_nil in Hu.
    + destruct (scrape_url_denied (job_url job) (job_mode job) (job_selectors job) cd mp)
        as [[msg Hmsg] Hnoget]; [by left|].
      rewrite Hmsg in Hout. destruct Hout as (Hst & _). split; [done|].
      intros u Hu. apply http_get_filter in Hu. rewrite Hnoget in Hu.
      by apply elem_of_nil in Hu.
  - intros mode selectors max_pages st current_url rest fuel Hfrontier Hpages Hnew Hget.
    simpl. unfold loop_cond, loop_body. rewrite Hfrontier. simpl.
    destruct (Z.ltb_spec (pages_scraped st) max_pages) as [_|]; [|lia].
    destruct (bool_decide_reflect (current_url ∈ visited_urls st)); [done|].
    by rewrite Hget.
  - intros url mode selectors crawl_depth max_pages Hrobots Hsafe.
    split; [by rewrite scrape_url_allowed|apply crawl_exits].
Qed.

End SystemProofs.

(** ** The engine on the two example networks *)

Section ShopJobs.
#[local] Existing Instance Worlds.shop_network.

Lemma auto_chain_not_short_circuited_witness :
  structured_records Worlds.listing_page ≠ []
  ∧ enhanced_auto_extract Worlds.listing_page Worlds.page_1
    = [ [("Name", VStr "Widget"); ("Price", VStr "9.99")];
        [("Name", VStr "Gadget"); ("Price", VStr "19.99")] ].
Proof.
  assert (structured_records Worlds.listing_page ≠ []) as Hne by (vm_compute; done).
  split; [exact Hne|].
  destruct (auto_chain_not_short_circuited Worlds.listing_page Worlds.page_1)
    as (_ & Hsome & _).
  rewrite (Hsome Hne). vm_compute. reflexivity.
Defined.

Lemma pagination_links_same_host_witness :
  find_pagination_links Worlds.listing_page Worlds.page_1 = [Worlds.page_2]
  ∧ Forall (λ url,
        url_netloc url = url_netloc Worlds.page_1
        ∧ url_hostname url = url_hostname Worlds.page_1
        ∧ ∃ href, url = urljoin Worlds.page_1 href)
      (find_pagination_links Worlds.listing_page Worlds.page_1).
Proof.
  split; [vm_compute; reflexivity|].
  exact (proj1 (pagination_links_same_host Worlds.listing_page Worlds.page_1)).
Defined.

Lemma crawl_never_refetches_nor_exceeds_budget_witness :
  (0 ≤ 2)%Z
  ∧ NoDup (fetched (crawl_loop 3 "auto" None 2 (init_state Worlds.page_1)))
  ∧ (pages_scraped (crawl_loop 3 "auto" None 2 (init_state Worlds.page_1)) ≤ 2)%Z.
Proof.
  assert (0 ≤ 2)%Z as Hbudget by lia.
  split; [exact Hbudget|].
  destruct (crawl_never_refetches_nor_exceeds_budget Worlds.page_1 "auto" None 2 3 Hbudget)
    as (Hnd & _ & Hpages & _).
  by split.
Defined.

Lemma fetch_error_fatal_for_seed_only_witness :
  requests_get Worlds.page_2 = None
  ∧ ∃ job',
      jobs (process_job (Worlds.db_with "job2" (Worlds.queued_job Worlds.page_2 (Some 2%Z)))
              "job2").1 !! "job2" = Some job'
      ∧ job_status job' = failed.
Proof.
  assert (requests_get Worlds.page_2 = None) as Hget by reflexivity.
  split; [exact Hget|].
  destruct (proj1 fetch_error_fatal_for_seed_only
              (Worlds.db_with "job2" (Worlds.queued_job Worlds.page_2 (Some 2%Z)))
              "job2" (Worlds.queued_job Worlds.page_2 (Some 2%Z)))
    as (job' & Hjob' & Hfailed & _).
  - apply lookup_singleton_eq.
  - exact Hget.
  - by exists job'.
Defined.

(** With a budget of two pages the shop's second page is requested and
    its fetch fails; the crawl goes on and returns the records of the
    first page. *)
Example later_fetch_error_is_skipped :
  scrape_url Worlds.page_1 "auto" None 0 2
  = ( [ RobotsFetch "http://shop.example/robots.txt"; DnsLookup "shop.example";
        HttpGet Worlds.page_1; HttpGet Worlds.page_2 ],
      Ok [ [("Name", VStr "Widget"); ("Price", VStr "9.99")];
           [("Name", VStr "Gadget"); ("Price", VStr "19.99")] ] ).
Proof. vm_compute. reflexivity. Qed.

(** With a budget of one page the advertised second page is never
    requested. *)
Example budget_one_stops_after_seed :
  find_pagination_links Worlds.listing_page Worlds.page_1 = [Worlds.page_2]
  ∧ (scrape_url Worlds.page_1 "auto" None 0 1).1
    = [ RobotsFetch "http://shop.example/robots.txt"; DnsLookup "shop.example";
        HttpGet Worlds.page_1 ].
Proof. split; vm_compute; reflexivity. Qed.

Lemma shop_after_one_job_reachable : reachable Worlds.shop_after_one_job.
Proof.
  unfold reachable, Worlds.shop_after_one_job.
  eapply rtc_l; [apply step_create|]. apply rtc_once, step_work.
Qed.

Lemma job_status_transitions_witness :
  reachable Worlds.shop_after_one_job
  ∧ ∃ job,
      jobs (sys_db Worlds.shop_after_one_job) !! "job1" = Some job
      ∧ job_status job = completed
      ∧ job_history job = [queued; running; completed].
Proof.
  pose proof shop_after_one_job_reachable as Hreach.
  split; [exact Hreach|].
  destruct (jobs (sys_db Worlds.shop_after_one_job) !! "job1") as [job|] eqn:Hjob;
    [|by vm_compute in Hjob].
  exists job. split; [done|].
  destruct (job_status_transitions Worlds.shop_after_one_job "job1" job Hreach Hjob)
    as (Hhistory & Hlast & _).
  assert (job_status job = completed) as Hdone
    by (vm_compute in Hjob; by injection Hjob as <-).
  split; [exact Hdone|].
  destruct Hhistory as [Hh|[Hh|Hh]]; rewrite Hh in Hlast; simpl in Hlast;
    [congruence|exact Hh|congruence].
Defined.

End ShopJobs.

Section LoopbackJob.
#[local] Existing Instance Worlds.loopback_network.

(** C1, on the code.  The seed [http://localhost/admin] resolves to the
    loopback address 127.0.0.1.  The job ends [failed] with the message
    of the address check and no page is requested; but the robots policy
    of the seed's origin, [http://localhost/robots.txt], is requested
    before the address is looked at. *)
Theorem loopback_seed_robots_requested_first :
  url_hostname Worlds.admin_url = Some "localhost"
  ∧ gethostbyname "localhost" = Some (127, 0, 0, 1)
  ∧ is_loopback (127, 0, 0, 1) = true
  ∧ (process_job (Worlds.db_with "job1" (Worlds.queued_job Worlds.admin_url None)) "job1").2
    = [RobotsFetch "http://localhost/robots.txt"; DnsLookup "localhost"]
  ∧ (λ job, (job_status job, job_error job, job_history job))
      <$> jobs (process_job (Worlds.db_with "job1"
                               (Worlds.queued_job Worlds.admin_url None)) "job1").1
          !! "job1"
    = Some (failed,
            Some "Scraping failed: URL points to a private or local IP address",
            [queued; running; failed]).
Proof. split_and!; vm_compute; reflexivity. Qed.

End LoopbackJob.

(* ================================================================= *)
(** * Part II, continued: further properties of the engine *)
(* ================================================================= *)

(** ** More on dictionaries *)

Lemma dict_set_key_elem {V} (k k0 : string) (v : V) (d : dict V) :
  k0 ∈ (dict_set k v d).*1 ↔ k0 = k ∨ k0 ∈ d.*1.
Proof.
  induction d as [|[k' v'] d IH]; simpl.
  - rewrite list_elem_of_singleton, elem_of_nil. tauto.
  - destruct (String.eqb_spec k k') as [->|Hne]; simpl.
    + rewrite !elem_of_cons. tauto.
    + rewrite !elem_of_cons, IH. tauto.
Qed.

Lemma dict_set_keys_NoDup {V} (k : string) (v : V) (d : dict V) :
  NoDup d.*1 → NoDup (dict_set k v d).*1.
Proof.
  induction d as [|[k' v'] d IH]; simpl; intros Hnd.
  - apply NoDup_singleton.
  - apply NoDup_cons in Hnd as [Hk' Hnd].
    destruct (String.eqb_spec k k') as [->|Hne]; simpl.
    + by apply NoDup_cons.
    + apply NoDup_cons. split; [|by apply IH].
      rewrite dict_set_key_elem. intros [->|Hin]; done.
Qed.

Lemma dict_set_values {V} (P : V → Prop) (k : string) (v : V) (d : dict V) :
  P v → Forall P d.*2 → Forall P (dict_set k v d).*2.
Proof.
  intros Hv. induction d as [|[k' v'] d IH]; simpl; intros Hd.
  - by apply Forall_singleton.
  - apply Forall_cons in Hd as [Hv' Hd].
    destruct (String.eqb k k'); simpl; apply Forall_cons; auto.
Qed.

(** Under distinct keys the filling loop appends, in the order of the
    items, the pairs for which [g] gives a value. *)
Lemma dict_fill_distinct {V X} (g : string → X → option V) (items : list (string * X))
    (d0 : dict V) :
  NoDup (d0.*1 ++ items.*1) →
  dict_fill g items d0 = d0 ++ omap (λ '(k, x), (λ v, (k, v)) <$> g k x) items.
Proof.
  revert d0. induction items as [|[k x] items IH]; intros d0 Hnd.
  { simpl. by rewrite app_nil_r. }
  rewrite dict_fill_cons. rewrite fmap_cons in Hnd. cbn [fst] in Hnd.
  assert (k ∉ d0.*1) as Hfresh.
  { apply NoDup_app in Hnd as (_ & Hdisj & _). intros Hin.
    apply (Hdisj k Hin). left. }
  cbn [omap list_omap]. destruct (g k x) as [v|]; cbn [fmap option_fmap option_map].
  - rewrite dict_set_fresh by done. rewrite IH.
    + by rewrite <- app_assoc.
    + by rewrite fmap_app, <- app_assoc.
  - apply IH. apply NoDup_app in Hnd as (Hd0 & Hdisj & Hitems).
    apply NoDup_cons in Hitems as [_ Hitems].
    apply NoDup_app. split_and!; [done| |done].
    intros y Hy Hy'. apply (Hdisj y Hy). by right.
Qed.

Lemma omap_keys_sublist {V X} (g : string → X → option V) (items : list (string * X)) :
  (omap (λ '(k, x), (λ v, (k, v)) <$> g k x) items).*1 `sublist_of` items.*1.
Proof.
  induction items as [|[k x] items IH]; [done|].
  cbn [omap list_omap]. destruct (g k x) as [v|]; cbn [fmap option_fmap option_map].
  - rewrite !fmap_cons. by apply sublist_skip.
  - rewrite fmap_cons. by apply sublist_cons.
Qed.

Lemma omap_keys_some {V X} (g : string → X → option V) (items : list (string * X))
    (k : string) :
  k ∈ (omap (λ '(k, x), (λ v, (k, v)) <$> g k x) items).*1 →
  ∃ x, (k, x) ∈ items ∧ is_Some (g k x).
Proof.
  intros Hk. apply list_elem_of_fmap in Hk as ([k' v] & Hk & Hin).
  simpl in Hk. subst k'.
  apply list_elem_of_omap in Hin as ([k0 x] & Hin & Hg).
  destruct (g k0 x) as [v0|] eqn:Hgx; simpl in Hg; [|done]. simplify_eq.
  exists x. split; [done|]. by rewrite Hgx.
Qed.

Lemma flat_map_length_le {A B} (f : A → list B) (l : list A) :
  (∀ x, length (f x) ≤ 1)%nat → (length (flat_map f l) ≤ length l)%nat.
Proof.
  intros Hf. induction l as [|x l IH]; simpl; [done|].
  rewrite length_app. specialize (Hf x). lia.
Qed.

Lemma elem_of_flat_map {A B} (f : A → list B) (l : list A) (y : B) :
  y ∈ flat_map f l ↔ ∃ x, x ∈ l ∧ y ∈ f x.
Proof.
  rewrite list_elem_of_In, in_flat_map. split; intros (x & Hx & Hy); exists x.
  - by rewrite !list_elem_of_In.
  - by rewrite <- !list_elem_of_In.
Qed.

(** ** Tables: the shape of every record *)

Section TableShape.
Context {node : Type} `{Soup node}.

Lemma fold_dict_set_shape (pairs : list (string * node)) (d0 : record) :
  let d := fold_left (λ d '(header, cell), dict_set header (VStr (get_text cell)) d)
             pairs d0 in
  (NoDup d0.*1 → NoDup d.*1)
  ∧ (∀ k, k ∈ d.*1 ↔ k ∈ d0.*1 ∨ k ∈ pairs.*1)
  ∧ (Forall (λ v, ∃ s, v = VStr s) d0.*2 → Forall (λ v, ∃ s, v = VStr s) d.*2).
Proof.
  revert d0. induction pairs as [|[header cell] pairs IH]; intros d0; simpl.
  - split_and!; [done| |done]. intros k. rewrite elem_of_nil. tauto.
  - destruct (IH (dict_set header (VStr (get_text cell)) d0)) as (Hnd & Hkeys & Hvals).
    split_and!.
    + intros Hd0. by apply Hnd, dict_set_keys_NoDup.
    + intros k. rewrite Hkeys, dict_set_key_elem, elem_of_cons. tauto.
    + intros Hd0. apply Hvals, dict_set_values; [by eexists|done].
Qed.

Lemma existsb_truthy_string (values : list value) :
  Forall (λ v, ∃ s, v = VStr s) values →
  existsb value_truthy values = true →
  ∃ s, VStr s ∈ values ∧ s ≠ "".
Proof.
  intros Hall Hex. apply existsb_exists in Hex as (v & Hin & Htruthy).
  apply list_elem_of_In in Hin.
  pose proof (proj1 (Forall_forall _ _) Hall v Hin) as [s ->].
  exists s. split; [done|]. by apply str_truthy_true.
Qed.

(** X1.  A table without header cells yields no record.  Otherwise the
    table yields at most one record per scanned row; the keys of every
    record are pairwise distinct and are exactly the header texts, every
    value is a string, and at least one value is not empty. *)
Theorem table_records_shape (table : node) :
  (table_headers table = [] → extract_table_data table = [])
  ∧ (length (extract_table_data table) ≤ length (table_rows table))%nat
  ∧ Forall (λ r,
        NoDup (dict_keys r)
        ∧ (∀ k, k ∈ dict_keys r ↔ k ∈ table_headers table)
        ∧ Forall (λ v, ∃ s, v = VStr s) (dict_values r)
        ∧ ∃ s, VStr s ∈ dict_values r ∧ s ≠ "")
      (extract_table_data table).
Proof.
  unfold extract_table_data. split_and!.
  - by intros ->.
  - destruct (negb _); [simpl; lia|]. apply flat_map_length_le.
    intros row. unfold table_row_records.
    destruct (_ =? _)%nat; [|simpl; lia].
    destruct (_ && _); simpl; lia.
  - destruct (negb _); [done|]. apply Forall_forall. intros r Hr.
    apply elem_of_flat_map in Hr as (row & _ & Hr). unfold table_row_records in Hr.
    destruct (Nat.eqb_spec (length (row_cells row)) (length (table_headers table)))
      as [Hlen|]; [|by apply elem_of_nil in Hr].
    destruct (truthy _ && existsb _ _) eqn:Hkeep; [|by apply elem_of_nil in Hr].
    apply list_elem_of_singleton in Hr as ->.
    apply andb_true_iff in Hkeep as [_ Hsome].
    destruct (fold_dict_set_shape (zip (table_headers table) (row_cells row)) [])
      as (Hnd & Hkeys & Hvals).
    fold (row_data (table_headers table) (row_cells row)) in Hnd, Hkeys, Hvals.
    split_and!.
    + apply Hnd, NoDup_nil_2.
    + intros k. unfold dict_keys. rewrite Hkeys, fst_zip by lia.
      rewrite elem_of_nil. tauto.
    + by apply Hvals.
    + apply existsb_truthy_string; [by apply Hvals|done].
Qed.

End TableShape.

Lemma dict_get_None_notin {V} (k : string) (d : dict V) :
  dict_get k d = None → ∀ v, (k, v) ∉ d.
Proof.
  induction d as [|[k' v'] d IH]; simpl; intros Hnone v.
  - apply not_elem_of_nil.
  - destruct (String.eqb_spec k k') as [->|Hne]; [done|].
    apply not_elem_of_cons. split; [congruence|by apply IH].
Qed.

(** ** Explicit selectors: when they raise, and the shape of the records *)

Section SelectorShape.
Context {node : Type} `{Soup node} `{TextLib} `{ItemFields node}.

Lemma keep_record_elem (r d : record) : r ∈ keep_record d → r = d ∧ d ≠ [].
Proof.
  unfold keep_record. destruct d; simpl; [by intros ?%elem_of_nil|].
  by intros ->%list_elem_of_singleton.
Qed.

(** X3.  With pairwise distinct selector keys, every record that
    [extract_with_selectors] returns is non-empty, its keys are selector
    keys in the order of the selector dictionary, each at most once, and
    [container] is never one of them. *)
Theorem selector_records_shape (soup : node) (selectors : selector_spec) :
  NoDup (dict_keys selectors) →
  ∀ records, extract_with_selectors soup selectors = Ok records →
  Forall (λ r,
      r ≠ []
      ∧ dict_keys r `sublist_of` dict_keys selectors
      ∧ NoDup (dict_keys r)
      ∧ "container" ∉ dict_keys r)
    records.
Proof.
  intros Hnd records Hres.
  assert (∀ (g : string → string → option value),
            dict_keys (dict_fill g selectors []) `sublist_of` dict_keys selectors
            ∧ ∀ k, k ∈ dict_keys (dict_fill g selectors []) →
                ∃ css, (k, css) ∈ selectors ∧ is_Some (g k css)) as Hfill.
  { intros g. rewrite dict_fill_distinct by done. simpl. split.
    - apply omap_keys_sublist.
    - apply omap_keys_some. }
  assert (∀ g (r : record), r = dict_fill g selectors [] → r ≠ [] →
            (∀ css, g "container" css = None) ∨ dict_get "container" selectors = None →
            r ≠ []
            ∧ dict_keys r `sublist_of` dict_keys selectors
            ∧ NoDup (dict_keys r)
            ∧ "container" ∉ dict_keys r) as Hshape.
  { intros g r -> Hne Hcontainer. destruct (Hfill g) as [Hsub Hsome].
    split_and!; [done|done|by eapply sublist_NoDup|].
    intros Hin. destruct (Hsome _ Hin) as (css & Hcss & Hg).
    destruct Hcontainer as [Hnone|Hnone].
    - rewrite Hnone in Hg. by destruct Hg.
    - by apply (dict_get_None_notin _ _ Hnone css). }
  apply Forall_forall. intros r Hr.
  unfold extract_with_selectors in Hres.
  destruct (dict_get "container" selectors) as [container_css|] eqn:Hc.
  - injection Hres as <-. apply elem_of_flat_map in Hr as (c & _ & Hr).
    apply keep_record_elem in Hr as [-> Hne].
    apply (Hshape _ _ eq_refl Hne). left. intros css. by rewrite String.eqb_refl.
  - destruct selectors as [|[k0 c0] rest] eqn:Hsel; [done|]. rewrite <- Hsel in *.
    destruct (_ <? _)%nat; injection Hres as <-.
    + apply elem_of_flat_map in Hr as (i & _ & Hr).
      apply keep_record_elem in Hr as [-> Hne].
      apply (Hshape _ _ eq_refl Hne). by right.
    + apply keep_record_elem in Hr as [-> Hne].
      apply (Hshape _ _ eq_refl Hne). by right.
Qed.

End SelectorShape.

Lemma selector_records_shape_witness :
  NoDup (dict_keys Pages.item_selectors)
  ∧ Forall (λ r : record,
        r ≠ []
        ∧ dict_keys r `sublist_of` dict_keys Pages.item_selectors
        ∧ NoDup (dict_keys r)
        ∧ "container" ∉ dict_keys r)
      [ [("title", VStr "Lamp"); ("price", VStr "$10")];
        [("title", VStr "Chair"); ("price", VStr "$45")] ].
Proof.
  assert (NoDup (dict_keys Pages.item_selectors)) as Hnd by by_evaluation.
  split; [exact Hnd|].
  apply (selector_records_shape Pages.sparse_page Pages.item_selectors Hnd).
  vm_compute. reflexivity.
Defined.

(** ** The general fallback record *)

Lemma str_take_length (n : nat) (s : string) :
  py_len (str_take n s) = (n `min` py_len s)%nat.
Proof.
  revert n. induction s as [|c s IH]; intros n; simpl.
  - by rewrite Nat.min_0_r.
  - destruct (is_continuation c) eqn:Hc.
    + simpl. rewrite Hc. apply IH.
    + destruct n as [|n]; simpl; [done|]. rewrite Hc, IH. lia.
Qed.

Lemma str_take_all (n : nat) (s : string) :
  (py_len s ≤ n)%nat → str_take n s = s.
Proof.
  revert n. induction s as [|c s IH]; intros n; simpl; [done|].
  destruct (is_continuation c).
  - intros Hlen. by rewrite IH.
  - destruct n as [|n]; [lia|]. intros Hlen. rewrite IH; [done|lia].
Qed.

(** [l1] is [l2] with some elements left out, found by keeping equal heads. *)
Ltac sublist_by_skipping :=
  repeat first [apply sublist_nil | apply sublist_skip | apply sublist_cons].

Section GeneralRecord.
Context {node : Type} `{Soup node} `{TextLib}.

Lemma parse_json_ld_nil : parse_json_ld [] = [].
Proof. reflexivity. Qed.

(** X4.  The fallback record always has a [full_text] field: the first
    5000 characters of the page text, and the whole text when it has no
    more than 5000 characters.  Its other fields are, in this
    order and each at most once, [title], [heading], [description] and
    [structured_data]: the title and the heading exactly when the page
    has a [title] and an [h1] element, and the structured data exactly
    when at least one JSON-LD block parses, holding the blocks that
    parse. *)
Theorem general_record_fields (soup : node) :
  let r := extract_general_data soup in
  dict_get "full_text" r = Some (VStr (str_take 5000 (get_text_sep soup)))
  ∧ py_len (str_take 5000 (get_text_sep soup))
    = (5000 `min` py_len (get_text_sep soup))%nat
  ∧ ((py_len (get_text_sep soup) ≤ 5000)%nat →
     str_take 5000 (get_text_sep soup) = get_text_sep soup)
  ∧ dict_keys r
      `sublist_of` ["title"; "heading"; "description"; "full_text"; "structured_data"]
  ∧ dict_get "title" r = (λ t, VStr (get_text t)) <$> find soup ["title"]
  ∧ dict_get "heading" r = (λ h, VStr (get_text h)) <$> find soup ["h1"]
  ∧ dict_get "structured_data" r
    = match parse_json_ld (json_ld_scripts soup) with
      | [] => None
      | blocks => Some (VData blocks)
      end.
Proof.
  intros r. subst r. unfold extract_general_data.
  fold (json_ld_scripts soup).
  assert (truthy (json_ld_scripts soup) && truthy (parse_json_ld (json_ld_scripts soup))
          = truthy (parse_json_ld (json_ld_scripts soup))) as ->.
  { destruct (json_ld_scripts soup); [done|]. by rewrite andb_true_l. }
  pose proof (str_take_length 5000 (get_text_sep soup)) as Hlen.
  pose proof (str_take_all 5000 (get_text_sep soup)) as Hall.
  destruct (find soup ["title"]), (find soup ["h1"]),
           (head (List.filter _ (find_all soup ["meta"]))),
           (parse_json_ld (json_ld_scripts soup));
    cbn [truthy dict_set dict_get dict_keys String.eqb Ascii.eqb Bool.eqb fmap
         option_fmap option_map list_fmap fst];
    (split_and!; [done|exact Hlen|exact Hall|sublist_by_skipping|done..]).
Qed.

End GeneralRecord.

(** ** Auto mode always yields a record *)

Section AutoNeverEmpty.
Context {node ip policy : Type}.
Context `{Soup node} `{UrlLib} `{TextLib} `{ItemFields node} `{Network node ip policy}.

Lemma enhanced_auto_extract_nonempty (soup : node) (current_url : string) :
  enhanced_auto_extract soup current_url ≠ [].
Proof.
  rewrite enhanced_auto_extract_eq.
  destruct (structured_records soup); done.
Qed.

Lemma extract_page_auto (mode : string) (selectors : option selector_spec)
    (soup : node) (current_url : string) :
  mode ≠ "css" ∨ selectors = None ∨ selectors = Some [] →
  extract_page mode selectors soup current_url
  = Ok (enhanced_auto_extract soup current_url).
Proof.
  unfold extract_page. intros [Hmode|[->| ->]]; [|done|by rewrite andb_false_r].
  destruct selectors; [|done].
  by destruct (String.eqb_spec mode "css").
Qed.

(** The accumulated records only grow. *)
Lemma loop_body_results (mode : string) (selectors : option selector_spec)
    (max_pages : Z) (st : CrawlState) :
  all_results st `prefix_of` all_results (loop_body mode selectors max_pages st).
Proof.
  unfold loop_body. destruct (urls_to_visit st) as [|current_url rest]; [done|].
  destruct (bool_decide _); [done|].
  destruct (requests_get current_url) as [soup|]; [|done].
  destruct (extract_page mode selectors soup current_url) as [results|]; [|done].
  cbn [all_results]. rewrite extend_if_app. by apply prefix_app_r.
Qed.

Lemma crawl_loop_results (fuel : nat) (mode : string) (selectors : option selector_spec)
    (max_pages : Z) (st : CrawlState) :
  all_results st `prefix_of` all_results (crawl_loop fuel mode selectors max_pages st).
Proof.
  revert st. induction fuel as [|fuel IH]; intros st; [done|].
  rewrite crawl_loop_S. destruct (loop_cond max_pages st); [|done].
  etransitivity; [apply loop_body_results|apply IH].
Qed.

Lemma int_or_default_budget (x : option Z) :
  (∀ n, x = Some n → (0 ≤ n)%Z) → (1 ≤ int_or x 1)%Z.
Proof.
  intros Hx. destruct x as [[|p|p]|]; simpl; [lia|lia| |lia].
  specialize (Hx _ eq_refl). lia.
Qed.

(** When the seed is fetched and the page is extracted by the auto
    chain, the crawl returns a record. *)
Lemma crawl_auto_nonempty (url mode : string) (selectors : option selector_spec)
    (max_pages : Z) (soup : node) :
  (1 ≤ max_pages)%Z →
  requests_get url = Some soup →
  mode ≠ "css" ∨ selectors = None ∨ selectors = Some [] →
  all_results (crawl url mode selectors max_pages) ≠ [].
Proof.
  intros Hbudget Hget Hauto. unfold crawl. rewrite crawl_fuel_S, crawl_loop_S.
  assert (loop_cond max_pages (init_state url) = true) as ->.
  { apply loop_cond_true. simpl. split; [done|lia]. }
  pose proof (crawl_loop_results (5 * Z.to_nat max_pages) mode selectors max_pages
                (loop_body mode selectors max_pages (init_state url))) as Hprefix.
  assert (all_results (loop_body mode selectors max_pages (init_state url)) ≠ []) as Hne.
  { unfold loop_body, init_state.
    cbn [urls_to_visit visited_urls fetched all_results pages_scraped].
    case_bool_decide as Hseen; [set_solver|].
    rewrite Hget, extract_page_auto by done. cbn [all_results].
    rewrite extend_if_app. apply enhanced_auto_extract_nonempty. }
  intros Hnil. rewrite Hnil in Hprefix. by apply prefix_nil_inv in Hprefix.
Qed.

(** X5.  The auto chain never returns an empty list.  Hence a job that
    is not in selector mode, that passes the safety checks, whose page
    budget is not negative and whose seed page can be fetched always
    ends [completed]: such a job fails with [No data extracted] only
    when the seed cannot be fetched. *)
Theorem auto_job_completes (d : Db) (job_id : string) (job : Job) (soup : node) :
  jobs d !! job_id = Some job →
  (check_robots (job_url job)).2 = true →
  (is_safe_url (job_url job)).2 = true →
  requests_get (job_url job) = Some soup →
  (∀ n, job_max_pages job = Some n → (0 ≤ n)%Z) →
  job_mode job ≠ "css" ∨ job_selectors job = None ∨ job_selectors job = Some [] →
  (∀ page current_url, enhanced_auto_extract page current_url ≠ [])
  ∧ ∃ job', jobs (process_job d job_id).1 !! job_id = Some job'
      ∧ job_status job' = completed
      ∧ job_history job' = job_history job ++ [running; completed].
Proof.
  intros Hjob Hrobots Hsafe Hget Hbudget Hauto.
  split; [apply enhanced_auto_extract_nonempty|].
  destruct (process_job_spec _ _ _ Hjob) as (job' & Hjob' & Hhist & _ & Hout & _).
  exists job'. split; [done|].
  unfold job_scrape in Hout. rewrite scrape_url_allowed in Hout by done.
  cbn [snd] in Hout.
  pose proof (crawl_auto_nonempty (job_url job) (job_mode job) (job_selectors job)
                (int_or (job_max_pages job) 1) soup
                (int_or_default_budget _ Hbudget) Hget Hauto) as Hne.
  destruct (all_results _) as [|r results]; [done|].
  destruct Hout as [Hst _]. rewrite Hst in Hhist. done.
Qed.

End AutoNeverEmpty.

(** ** The generic heuristics: priority of the container patterns, caps and filters *)

Section Heuristics.
Context {node : Type} `{Soup node} `{TextLib} `{ItemFields node}.

(** X6.  The container loop of the product, article and card heuristics
    takes the matches of the first selector, in list order, that has more
    matches than the threshold; selectors after it are not consulted,
    and it yields nothing exactly when no selector has more matches than
    the threshold. *)
Theorem first_matching_priority (soup : node) (more_than : nat) (selectors : list string) :
  (first_matching soup more_than selectors = [] ↔
   Forall (λ s, length (select soup s) ≤ more_than)%nat selectors)
  ∧ (first_matching soup more_than selectors ≠ [] →
     ∃ before selector after,
       selectors = before ++ selector :: after
       ∧ first_matching soup more_than selectors = select soup selector
       ∧ (more_than < length (select soup selector))%nat
       ∧ Forall (λ s, length (select soup s) ≤ more_than)%nat before).
Proof.
  induction selectors as [|s rest [IHnil IHsome]]; simpl.
  { split; [by split|done]. }
  destruct (select soup s) as [|e found] eqn:Hsel; simpl.
  - split.
    + rewrite IHnil, Forall_cons, Hsel. simpl. split; [|tauto].
      intros Hrest. split; [lia|done].
    + intros Hne. destruct (IHsome Hne) as (before & selector & after & -> & Heq & Hlt & Hall).
      exists (s :: before), selector, after. split_and!; [done..|].
      apply Forall_cons. rewrite Hsel. simpl. split; [lia|done].
  - destruct (Nat.ltb_spec more_than (S (length found))) as [Hlt|Hle].
    + split.
      * split; [done|]. intros [Habs _]%Forall_cons. rewrite Hsel in Habs.
        simpl in Habs. lia.
      * intros _. exists [], s, rest. rewrite Hsel. by split_and!.
    + split.
      * rewrite IHnil, Forall_cons, Hsel. simpl. tauto.
      * intros Hne.
        destruct (IHsome Hne) as (before & selector & after & -> & Heq & Hlt & Hall).
        exists (s :: before), selector, after. split_and!; [done..|].
        apply Forall_cons. rewrite Hsel. by split.
Qed.

Lemma flat_map_Forall {A B} (P : B → Prop) (f : A → list B) (l : list A) :
  (∀ x, Forall P (f x)) → Forall P (flat_map f l).
Proof.
  intros Hf. induction l as [|x l IH]; simpl; [done|]. apply Forall_app. by split.
Qed.

Lemma flat_map_take_length {A B} (f : A → list B) (n : nat) (l : list A) :
  (∀ x, length (f x) ≤ 1)%nat → (length (flat_map f (take n l)) ≤ n)%nat.
Proof.
  intros Hf. etransitivity; [by apply flat_map_length_le|].
  rewrite length_take. lia.
Qed.

(** X7.  Article extraction returns at most 50 records, each with a
    [title] field, and returns nothing when no article container
    pattern matches. *)
Theorem article_listings_bounded (soup : node) :
  (length (extract_article_listings soup) ≤ 50)%nat
  ∧ Forall (λ r, r ≠ [] ∧ dict_mem "title" r = true) (extract_article_listings soup)
  ∧ (Forall (λ s, select soup s = []) article_selectors →
     extract_article_listings soup = []).
Proof.
  unfold extract_article_listings. split_and!.
  - destruct (negb _); [simpl; lia|]. apply flat_map_take_length.
    intros article. destruct (_ && _); simpl; lia.
  - destruct (negb _); [done|]. apply flat_map_Forall. intros article.
    destruct (truthy (article_fields article) && _) eqn:Hkeep; [|done].
    apply andb_true_iff in Hkeep as [Hne Htitle].
    apply Forall_singleton. split; [by apply truthy_cons|done].
  - intros Hnone.
    assert (first_matching soup 0 article_selectors = []) as ->; [|done].
    induction Hnone as [|s rest Hs _ IH]; [done|]. simpl. by rewrite Hs.
Qed.

(** X8.  Card extraction returns at most 100 records, none of them
    empty, and returns nothing unless some card pattern matches more than
    two elements. *)
Theorem card_data_bounded (soup : node) :
  (length (extract_card_data soup) ≤ 100)%nat
  ∧ Forall (λ r, r ≠ []) (extract_card_data soup)
  ∧ (Forall (λ s, length (select soup s) ≤ 2)%nat card_selectors →
     extract_card_data soup = []).
Proof.
  unfold extract_card_data. split_and!.
  - destruct (negb _); [simpl; lia|]. apply flat_map_take_length.
    intros card. destruct (card_fields card) as [data|]; [|simpl; lia].
    unfold keep_record. destruct (truthy data); simpl; lia.
  - destruct (negb _); [done|]. apply flat_map_Forall. intros card.
    destruct (card_fields card) as [data|]; [|done].
    unfold keep_record. destruct data; [done|]. by apply Forall_singleton.
  - intros Hfew.
    assert (first_matching soup 2 card_selectors = []) as ->; [|done].
    induction Hfew as [|s rest Hs _ IH]; [done|]. simpl.
    destruct (Nat.ltb_spec 2 (length (select soup s))); [lia|].
    by rewrite andb_false_r.
Qed.

Lemma generic_product_records_bounded (soup : node) :
  (length (generic_product_records soup) ≤ 100)%nat
  ∧ Forall (λ r, r ≠ [] ∧ (dict_mem "title" r = true ∨ dict_mem "price" r = true))
      (generic_product_records soup).
Proof.
  unfold generic_product_records. split.
  - apply flat_map_take_length. intros product. destruct (_ && _); simpl; lia.
  - apply flat_map_Forall. intros product.
    destruct (truthy (product_fields product) && _) eqn:Hkeep; [|done].
    apply andb_true_iff in Hkeep as [Hne Hkey]. apply orb_true_iff in Hkey.
    apply Forall_singleton. split; [by apply truthy_cons|done].
Qed.

(** X9.  On a page whose markup does not contain [books.toscrape],
    product extraction is the generic chain: at most 100 records, each
    with a [title] or a [price] field.  The candidates are the matches of
    a container pattern with more than one match, else the [article]
    elements when there are more than two, else at most 50 list items,
    each with a [class] attribute and more than 30 characters of text. *)
Theorem generic_products_bounded (soup : node) :
  str_in "books.toscrape" (to_str soup) = false →
  extract_product_listings soup = generic_product_records soup
  ∧ (length (extract_product_listings soup) ≤ 100)%nat
  ∧ Forall (λ r, r ≠ [] ∧ (dict_mem "title" r = true ∨ dict_mem "price" r = true))
      (extract_product_listings soup)
  ∧ (first_matching soup 1 product_selectors = [] →
     (length (find_all soup ["article"]) ≤ 2)%nat →
     (length (generic_product_candidates soup) ≤ 50)%nat
     ∧ Forall (λ li, has_attr li "class" = true
                     ∧ (30 < py_len (get_text li))%nat)
         (generic_product_candidates soup)).
Proof.
  intros Hsite.
  assert (extract_product_listings soup = generic_product_records soup) as Heq.
  { unfold extract_product_listings. by rewrite Hsite. }
  destruct (generic_product_records_bounded soup) as [Hlen Hall].
  rewrite Heq. split_and!; [done..|].
  intros Hnone Hfew. unfold generic_product_candidates. rewrite Hnone. simpl.
  destruct (Nat.ltb_spec 2 (length (find_all soup ["article"]))); [lia|].
  split.
  - rewrite length_take. lia.
  - apply Forall_take, Forall_forall. intros li Hli.
    apply list_elem_of_In, filter_In in Hli as [_ Hli].
    apply andb_true_iff in Hli as [Hclass Hlong]. by apply Nat.ltb_lt in Hlong.
Qed.

End Heuristics.

Lemma generic_products_bounded_witness :
  str_in "books.toscrape" (to_str Pages.catalogue_page) = false
  ∧ (length (extract_product_listings Pages.catalogue_page) ≤ 100)%nat.
Proof.
  assert (str_in "books.toscrape" (to_str Pages.catalogue_page) = false) as Hsite
    by (vm_compute; reflexivity).
  split; [exact Hsite|].
  exact (proj1 (proj2 (generic_products_bounded Pages.catalogue_page Hsite))).
Defined.

(** ** The crawl: frontier, request count and request targets *)

Section CrawlExtras.
Context {node ip policy : Type}.
Context `{Soup node} `{UrlLib} `{TextLib} `{ItemFields node} `{Network node ip policy}.

Lemma enqueue_links_inv (visited : gset string) (frontier next_links : list string) :
  NoDup frontier → (∀ u, u ∈ frontier → u ∉ visited) →
  NoDup (enqueue_links visited frontier next_links)
  ∧ ∀ u, u ∈ enqueue_links visited frontier next_links → u ∉ visited.
Proof.
  unfold enqueue_links. revert frontier.
  induction next_links as [|link links IH]; intros frontier Hnd Hnew; [done|].
  simpl. apply IH.
  - case_bool_decide as Hv; [|done]. case_bool_decide as Hf; [|done]. simpl.
    apply NoDup_app. split_and!; [done| |apply NoDup_singleton].
    intros u Hu ->%list_elem_of_singleton. done.
  - case_bool_decide as Hv; [|done]. case_bool_decide as Hf; [|done]. simpl.
    intros u [Hu| ->%list_elem_of_singleton]%elem_of_app; [by apply Hnew|done].
Qed.

Lemma loop_body_frontier_inv (mode : string) (selectors : option selector_spec)
    (max_pages : Z) (st : CrawlState) :
  frontier_inv st → frontier_inv (loop_body mode selectors max_pages st).
Proof.
  intros [Hnd Hnew]. unfold loop_body.
  destruct (urls_to_visit st) as [|current_url rest] eqn:Hf; [by rewrite <- Hf in Hnd, Hnew|].
  apply NoDup_cons in Hnd as [Hfresh Hnd].
  case_bool_decide as Hseen.
  { split; cbn; [done|]. intros u Hu. apply Hnew. by right. }
  assert (∀ u, u ∈ rest → u ∉ visited_urls st ∪ {[current_url]}) as Hrest.
  { intros u Hu Hin. apply elem_of_union in Hin as [Hv|Hin].
    - by apply (Hnew u); [right|].
    - apply elem_of_singleton in Hin as ->. done. }
  destruct (requests_get current_url) as [soup|]; [|by split].
  destruct (extract_page mode selectors soup current_url); [|by split].
  unfold frontier_inv. cbn [urls_to_visit visited_urls].
  destruct (_ <? _)%Z; [|by split].
  by apply enqueue_links_inv.
Qed.

Lemma crawl_loop_frontier_inv (fuel : nat) (mode : string)
    (selectors : option selector_spec) (max_pages : Z) (st : CrawlState) :
  frontier_inv st → frontier_inv (crawl_loop fuel mode selectors max_pages st).
Proof.
  revert st. induction fuel as [|fuel IH]; intros st Hinv; [done|].
  rewrite crawl_loop_S. destruct (loop_cond max_pages st); [|done].
  by apply IH, loop_body_frontier_inv.
Qed.

Lemma init_state_frontier_inv (url : string) : frontier_inv (init_state url).
Proof. split; simpl; [apply NoDup_singleton|]. intros u _. set_solver. Qed.

(** X11.  At every iteration of the crawl the frontier has no duplicate
    and holds no URL that was already visited: the URL popped from the
    frontier is always new, so the [continue] of the visited test is
    never taken and every iteration fetches. *)
Theorem frontier_never_holds_visited (url mode : string)
    (selectors : option selector_spec) (max_pages : Z) (iterations : nat) :
  let st := crawl_loop iterations mode selectors max_pages (init_state url) in
  NoDup (urls_to_visit st)
  ∧ (∀ u, u ∈ urls_to_visit st → u ∉ visited_urls st)
  ∧ (loop_cond max_pages st = true →
     ∃ current_url rest,
       urls_to_visit st = current_url :: rest
       ∧ (current_url ∉ visited_urls st)
       ∧ fetched (loop_body mode selectors max_pages st) = fetched st ++ [current_url]).
Proof.
  intros st.
  destruct (crawl_loop_frontier_inv iterations mode selectors max_pages _
              (init_state_frontier_inv url)) as [Hnd Hnew].
  fold st in Hnd, Hnew. split_and!; [done|done|].
  intros [Hne _]%loop_cond_true.
  destruct (urls_to_visit st) as [|current_url rest] eqn:Hf; [done|].
  exists current_url, rest.
  assert (current_url ∉ visited_urls st) as Hfresh by (apply Hnew; left).
  split_and!; [done|done|].
  unfold loop_body. rewrite Hf. case_bool_decide; [done|].
  destruct (requests_get current_url) as [soup|]; [|done].
  by destruct (extract_page mode selectors soup current_url).
Qed.

(** Fetches so far plus the iterations left stay within the initial
    bound. *)
Lemma loop_body_fetch_budget (mode : string) (selectors : option selector_spec)
    (max_pages : Z) (st : CrawlState) :
  loop_cond max_pages st = true →
  (length (fetched (loop_body mode selectors max_pages st))
   + crawl_potential max_pages (loop_body mode selectors max_pages st)
   ≤ length (fetched st) + crawl_potential max_pages st)%nat.
Proof.
  intros Hcond.
  pose proof (loop_body_potential mode selectors max_pages st Hcond) as Hdec.
  assert (length (fetched (loop_body mode selectors max_pages st))
          ≤ S (length (fetched st)))%nat as Hfetch; [|lia].
  unfold loop_body. destruct (urls_to_visit st) as [|current_url rest]; [lia|].
  destruct (bool_decide _); cbn [fetched]; [lia|].
  destruct (requests_get current_url) as [soup|];
    [destruct (extract_page mode selectors soup current_url)|];
    cbn [fetched]; rewrite length_app; simpl; lia.
Qed.

Lemma crawl_loop_fetch_budget (fuel : nat) (mode : string)
    (selectors : option selector_spec) (max_pages : Z) (st : CrawlState) :
  (length (fetched (crawl_loop fuel mode selectors max_pages st))
   ≤ length (fetched st) + crawl_potential max_pages st)%nat.
Proof.
  revert st. induction fuel as [|fuel IH]; intros st; [simpl; lia|].
  rewrite crawl_loop_S. destruct (loop_cond max_pages st) eqn:Hcond; [|lia].
  etransitivity; [apply IH|]. by apply loop_body_fetch_budget.
Qed.

(** Every page counted was fetched. *)
Lemma crawl_loop_pages_fetched (fuel : nat) (mode : string)
    (selectors : option selector_spec) (max_pages : Z) (st : CrawlState) :
  (pages_scraped st ≤ Z.of_nat (length (fetched st)))%Z →
  (pages_scraped (crawl_loop fuel mode selectors max_pages st)
   ≤ Z.of_nat (length (fetched (crawl_loop fuel mode selectors max_pages st))))%Z.
Proof.
  revert st. induction fuel as [|fuel IH]; intros st Hle; [done|].
  rewrite crawl_loop_S. destruct (loop_cond max_pages st); [|done].
  apply IH. unfold loop_body.
  destruct (urls_to_visit st) as [|current_url rest]; [done|].
  destruct (bool_decide _); cbn [fetched pages_scraped]; [done|].
  destruct (requests_get current_url) as [soup|];
    [destruct (extract_page mode selectors soup current_url)|];
    cbn [fetched pages_scraped]; rewrite length_app; simpl; lia.
Qed.

(** X12.  A crawl sends at most [1 + 5 * max_pages] page requests (none
    at all for a budget below 1), and the number of pages counted as
    scraped never exceeds the number of requests sent. *)
Theorem crawl_request_bound (url mode : string) (selectors : option selector_spec)
    (max_pages : Z) (iterations : nat) :
  let st := crawl_loop iterations mode selectors max_pages (init_state url) in
  (length (fetched st) ≤ 1 + 5 * Z.to_nat max_pages)%nat
  ∧ (pages_scraped st ≤ Z.of_nat (length (fetched st)))%Z
  ∧ ((max_pages ≤ 0)%Z → st = init_state url)
  ∧ (length (List.filter is_http_get
               (scrape_url url mode selectors 0 max_pages).1)
     ≤ 1 + 5 * Z.to_nat max_pages)%nat.
Proof.
  intros st.
  assert (∀ n, length (fetched (crawl_loop n mode selectors max_pages (init_state url)))
               ≤ 1 + 5 * Z.to_nat max_pages)%nat as Hbound.
  { intros n.
    pose proof (crawl_loop_fetch_budget n mode selectors max_pages (init_state url)) as Hb.
    unfold crawl_potential in Hb. cbn [init_state fetched urls_to_visit pages_scraped
                                        length] in Hb.
    rewrite Z.sub_0_r in Hb. lia. }
  split_and!.
  - apply Hbound.
  - by apply crawl_loop_pages_fetched.
  - intros Hbudget. subst st. apply crawl_loop_done. unfold loop_cond. simpl.
    destruct (Z.ltb_spec 0 max_pages); [lia|done].
  - unfold scrape_url. pose proof (check_robots_events url) as Hrobots.
    pose proof (is_safe_url_events url) as Hdns.
    destruct (check_robots url) as [ev1 allowed]. destruct (is_safe_url url) as [ev2 safe].
    cbn [fst snd] in *. subst ev1.
    destruct allowed; cbn [negb]; [|simpl; lia].
    destruct safe; cbn [negb fst].
    + cbn [app List.filter is_http_get]. rewrite List.filter_app, Hdns. cbn [app].
      assert (∀ l, List.filter is_http_get (HttpGet <$> l) = HttpGet <$> l) as ->.
      { intros l. induction l as [|u l IH]; [done|]. simpl. by f_equal. }
      rewrite length_fmap. apply Hbound.
    + cbn [app List.filter is_http_get]. rewrite Hdns. simpl. lia.
Qed.

Lemma loop_body_fetched_origin (seed mode : string) (selectors : option selector_spec)
    (max_pages : Z) (st : CrawlState) :
  Forall (same_origin seed) (urls_to_visit st) →
  Forall (same_origin seed) (fetched st) →
  Forall (same_origin seed) (fetched (loop_body mode selectors max_pages st)).
Proof.
  intros Hfrontier Hfetched. unfold loop_body.
  destruct (urls_to_visit st) as [|current_url rest]; [done|].
  apply Forall_cons in Hfrontier as [Hcurrent _].
  assert (Forall (same_origin seed) (fetched st ++ [current_url])) as Hnew.
  { apply Forall_app. split; [done|by apply Forall_singleton]. }
  destruct (bool_decide _); [done|].
  destruct (requests_get current_url) as [soup|]; [|done].
  by destruct (extract_page mode selectors soup current_url).
Qed.

Lemma crawl_loop_fetched_origin (seed : string) (fuel : nat) (mode : string)
    (selectors : option selector_spec) (max_pages : Z) (st : CrawlState) :
  Forall (same_origin seed) (urls_to_visit st) →
  Forall (same_origin seed) (fetched st) →
  Forall (same_origin seed) (fetched (crawl_loop fuel mode selectors max_pages st)).
Proof.
  revert st. induction fuel as [|fuel IH]; intros st Hfrontier Hfetched; [done|].
  rewrite crawl_loop_S. destruct (loop_cond max_pages st); [|done].
  apply IH; [by apply loop_body_frontier|by apply loop_body_fetched_origin].
Qed.

(** X13.  Every URL that a crawl passes to [requests.get] has the
    network location, hence the host name, of the seed URL.  The only
    other network calls of [scrape_url] are the robots parser's read of
    [/robots.txt] at that location and the lookup of the seed's host
    name.  This is about the arguments of the calls; where a client is
    led inside one call (a redirect) is not covered. *)
Theorem requested_urls_on_seed_host (url mode : string) (selectors : option selector_spec)
    (crawl_depth max_pages : Z) :
  Forall (λ e,
      match e with
      | HttpGet u => url_netloc u = url_netloc url ∧ url_hostname u = url_hostname url
      | RobotsFetch u => u = url_scheme url +:+ "://" +:+ url_netloc url +:+ "/robots.txt"
      | DnsLookup h => url_hostname url = Some h
      end)
    (scrape_url url mode selectors crawl_depth max_pages).1.
Proof.
  assert (Forall (same_origin url) (fetched (crawl url mode selectors max_pages))) as Hget.
  { apply crawl_loop_fetched_origin; simpl; [|done]. by apply Forall_singleton. }
  assert (Forall (λ e, match e with
                       | DnsLookup h => url_hostname url = Some h
                       | HttpGet _ | RobotsFetch _ => False
                       end) (is_safe_url url).1) as Hdns.
  { unfold is_safe_url. destruct (url_hostname url) as [hostname|]; [|done].
    destruct (negb _); [done|]. by apply Forall_singleton. }
  unfold scrape_url. pose proof (check_robots_events url) as Hrobots.
  destruct (check_robots url) as [ev1 allowed]. destruct (is_safe_url url) as [ev2 safe].
  cbn [fst snd] in *. subst ev1.
  assert (Forall (λ e, match e with
      | HttpGet u => url_netloc u = url_netloc url ∧ url_hostname u = url_hostname url
      | RobotsFetch u => u = url_scheme url +:+ "://" +:+ url_netloc url +:+ "/robots.txt"
      | DnsLookup h => url_hostname url = Some h
      end) ev2) as Hdns'.
  { eapply Forall_impl; [exact Hdns|]. by intros [| |]. }
  destruct allowed; cbn [negb fst]; [|by apply Forall_singleton].
  destruct safe; cbn [negb fst]; apply Forall_cons; (split; [done|]);
    [|done].
  apply Forall_app. split; [done|]. apply Forall_fmap.
  eapply Forall_impl; [exact Hget|]. by intros u [Hn Hh].
Qed.

End CrawlExtras.

(** ** The safety checks: defaults and messages *)

Section GateExtras.
Context {node ip policy : Type}.
Context `{Soup node} `{UrlLib} `{TextLib} `{ItemFields node} `{Network node ip policy}.

Lemma scrape_url_messages (url mode : string) (selectors : option selector_spec)
    (crawl_depth max_pages : Z) (msg : string) :
  (scrape_url url mode selectors crawl_depth max_pages).2 = Raise msg →
  ((check_robots url).2 = false ∧ msg = ROBOTS_DENIED)
  ∨ ((check_robots url).2 = true ∧ (is_safe_url url).2 = false ∧ msg = ADDRESS_DENIED).
Proof.
  unfold scrape_url.
  destruct (check_robots url) as [ev1 allowed]. destruct (is_safe_url url) as [ev2 safe].
  cbn [fst snd]. destruct allowed; cbn [negb].
  - destruct safe; cbn [negb snd]; [done|]. intros [= <-]. by right.
  - cbn [snd]. intros [= <-]. by left.
Qed.

(** X14.  [check_robots] passes the URL when the parser's [read()]
    raises.  It refuses exactly when [read()] returned and [can_fetch]
    answers no for [ProScrape Bot] on the parser that [read()] left,
    whatever the server had answered; [scrape_url] then raises the
    robots message after that single call, without a lookup of the host
    name or a page request. *)
Theorem robots_check_outcomes (url mode : string) (selectors : option selector_spec)
    (crawl_depth max_pages : Z) :
  let robots_url := url_scheme url +:+ "://" +:+ url_netloc url +:+ "/robots.txt" in
  (robots_read robots_url = None → (check_robots url).2 = true)
  ∧ ((check_robots url).2 = false ↔
     ∃ rp, robots_read robots_url = Some rp ∧ can_fetch rp "ProScrape Bot" url = false)
  ∧ ((check_robots url).2 = false →
     scrape_url url mode selectors crawl_depth max_pages
     = ([RobotsFetch robots_url],
        Raise "Scraping failed: Robots.txt disallows scraping this URL")).
Proof.
  intros robots_url. split_and!.
  - unfold check_robots. fold robots_url. by intros ->.
  - unfold check_robots. fold robots_url. cbn [snd].
    destruct (robots_read robots_url) as [rp|]; split.
    + intros Hdeny. by exists rp.
    + by intros (rp' & [= <-] & Hdeny).
    + done.
    + by intros (rp' & [=] & _).
  - intros Hdeny. unfold scrape_url.
    pose proof (check_robots_events url) as Hev.
    destruct (check_robots url) as [ev1 allowed]. cbn [fst snd] in *. by subst.
Qed.

(** X15.  The address check is deny-by-default: a URL is safe only when
    it has a non-empty host name that resolves to an address that is
    neither private nor loopback nor link-local; without a host name no
    lookup is made.  A seed that the robots check allows and the
    address check refuses is denied with the address message, and no
    page is requested. *)
Theorem address_check_default_deny (url mode : string) (selectors : option selector_spec)
    (crawl_depth max_pages : Z) :
  ((is_safe_url url).2 = true ↔
   ∃ hostname a,
     url_hostname url = Some hostname ∧ hostname ≠ ""
     ∧ gethostbyname hostname = Some a
     ∧ is_private a = false ∧ is_loopback a = false ∧ is_link_local a = false)
  ∧ (url_hostname url = None ∨ url_hostname url = Some "" → is_safe_url url = ([], false))
  ∧ ((check_robots url).2 = true → (is_safe_url url).2 = false →
     (scrape_url url mode selectors crawl_depth max_pages).2
     = Raise "Scraping failed: URL points to a private or local IP address"
     ∧ List.filter is_http_get (scrape_url url mode selectors crawl_depth max_pages).1 = []).
Proof.
  split_and!.
  - unfold is_safe_url. destruct (url_hostname url) as [hostname|]; cbn [snd].
    + destruct hostname as [|c hostname]; cbn [str_truthy negb snd].
      { split; [done|]. by intros (h & a & [= <-] & Hne & _). }
      destruct (gethostbyname (String c hostname)) as [a|] eqn:Hdns.
      * destruct (is_private a) eqn:Hp, (is_loopback a) eqn:Hl, (is_link_local a) eqn:Hk;
          cbn [orb]; (split; [try done|]);
          try (intros (h & a' & [= <-] & _ & Ha & Hp' & Hl' & Hk');
               rewrite Hdns in Ha; injection Ha as <-; congruence).
        intros _. by exists (String c hostname), a.
      * split; [done|]. intros (h & a' & [= <-] & _ & Ha & _). congruence.
    + split; [done|]. by intros (h & a & [=] & _).
  - unfold is_safe_url. by intros [->| ->].
  - intros Hrobots Hunsafe.
    destruct (scrape_url_denied url mode selectors crawl_depth max_pages) as [[msg Hmsg] Hget];
      [by right|].
    split; [|done]. rewrite Hmsg.
    destruct (scrape_url_messages _ _ _ _ _ _ Hmsg) as [[Habs _]|(_ & _ & ->)]; [congruence|done].
Qed.

End GateExtras.

(** ** The job runner: messages, queue, results and draining *)

Section RunnerExtras.
Context {node ip policy : Type}.
Context `{Soup node} `{UrlLib} `{TextLib} `{ItemFields node} `{Network node ip policy}.

(** The row of a job after [process_job]. *)
Lemma process_job_row (d : Db) (job_id : string) (job : Job) :
  jobs d !! job_id = Some job →
  jobs (process_job d job_id).1 !! job_id
  = Some {| job_url := job_url job; job_mode := job_mode job;
            job_crawl_depth := job_crawl_depth job; job_max_pages := job_max_pages job;
            job_selectors := job_selectors job;
            job_status := (job_outcome job (job_scrape job).2).1;
            job_error := (job_outcome job (job_scrape job).2).2;
            job_history :=
              job_history job ++ [running; (job_outcome job (job_scrape job).2).1] |}.
Proof.
  intros Hjob. unfold process_job, job_scrape. rewrite Hjob.
  destruct (scrape_url _ _ _ _ _) as [events [[|r results]|msg]];
    cbn [fst snd truthy set_status insert_results jobs results_table job_outcome];
    rewrite !lookup_alter_eq, Hjob; cbn; by rewrite <- app_assoc.
Qed.

Lemma process_job_rows (d : Db) (job_id : string) (job : Job) :
  jobs d !! job_id = Some job →
  results_table (process_job d job_id).1
  = results_table d
    ++ match (job_scrape job).2 with
       | Ok (r :: results) => [(job_id, r :: results)]
       | _ => []
       end.
Proof.
  intros Hjob. destruct (process_job_spec _ _ _ Hjob) as (job' & _ & _ & _ & Hout & _).
  destruct ((job_scrape job).2) as [[|r results]|msg].
  - destruct Hout as (_ & _ & ->). by rewrite app_nil_r.
  - by destruct Hout as (_ & ->).
  - destruct Hout as (_ & _ & ->). by rewrite app_nil_r.
Qed.

Lemma job_outcome_cases (job : Job) :
  job_error job = None →
  match (job_outcome job (job_scrape job).2).1 with
  | failed =>
      (job_outcome job (job_scrape job).2).2 = Some NO_DATA
      ∨ (job_outcome job (job_scrape job).2).2 = Some ROBOTS_DENIED
      ∨ (job_outcome job (job_scrape job).2).2 = Some ADDRESS_DENIED
  | completed => (job_outcome job (job_scrape job).2).2 = None
                 ∧ ∃ r results, (job_scrape job).2 = Ok (r :: results)
  | _ => False
  end.
Proof.
  intros Hnone. unfold job_scrape.
  destruct (scrape_url _ _ _ _ _).2 as [[|r results]|msg] eqn:Hout; cbn.
  - by left.
  - split; [done|by eexists _, _].
  - destruct (scrape_url_messages _ _ _ _ _ _ Hout) as [[_ ->]|(_ & _ & ->)]; tauto.
Qed.

Lemma sys_inv_more_init : sys_inv_more sys_init.
Proof.
  split; simpl.
  - intros id j Hj. by rewrite lookup_empty in Hj.
  - intros id j Hj. by rewrite lookup_empty in Hj.
  - apply NoDup_nil_2.
  - intros id records Hin. by apply elem_of_nil in Hin.
Qed.

Lemma sys_inv_more_create (job_id url mode : string) (crawl_depth max_pages : option Z)
    (selectors : option selector_spec) (sys : System) :
  sys_inv_more sys →
  sys_inv_more (create_scrape_job job_id url mode crawl_depth max_pages selectors sys).
Proof.
  intros [Herr Hqueued Hnd Hrows]. unfold create_scrape_job.
  destruct (negb (str_truthy url)); [done|].
  destruct (_ || _); [done|].
  destruct (negb (sqlite_int crawl_depth && sqlite_int max_pages)); [done|].
  destruct (jobs (sys_db sys) !! job_id) as [existing|] eqn:Hfresh; [done|].
  split; simpl.
  - intros id j. rewrite lookup_insert. case_decide as Hid.
    + by intros [= <-].
    + apply Herr.
  - intros id j. rewrite lookup_insert. case_decide as Hid.
    + intros _ _. subst. apply elem_of_app. right. left.
    + intros Hj Hq. apply elem_of_app. left. by eapply Hqueued.
  - done.
  - intros id records Hin. destruct (Hrows _ _ Hin) as (Hne & j & Hj & Hdone).
    split; [done|]. exists j. split; [|done].
    rewrite lookup_insert_ne; [done|]. intros ->. congruence.
Qed.

Lemma sys_inv_more_work (sys : System) :
  sys_inv sys → sys_inv_more sys → sys_inv_more (worker_turn sys).
Proof.
  intros Hinv Hmore. unfold worker_turn.
  destruct (job_queue sys) as [|job_id rest] eqn:Hq; [done|].
  destruct Hinv as [Hlegal Hqnd Hqueue _]. destruct Hmore as [Herr Hqueued Hnd Hrows].
  rewrite Hq in Hqnd, Hqueue. apply NoDup_cons in Hqnd as [Hfresh Hqnd].
  destruct (Hqueue job_id) as (job & Hjob & Hhist); [left|].
  assert (job_status job = queued) as Hstatus.
  { destruct (Hlegal _ _ Hjob) as [[_ ?]|[[Hh _]|[Hh _]]]; [done|congruence..]. }
  assert (job_error job = None) as Hnone.
  { pose proof (Herr _ _ Hjob) as He. by rewrite Hstatus in He. }
  pose proof (process_job_row _ _ _ Hjob) as Hrow.
  pose proof (process_job_rows _ _ _ Hjob) as Htable.
  pose proof (job_outcome_cases job Hnone) as Hcases.
  destruct (process_job_spec _ _ _ Hjob) as (_ & _ & _ & _ & _ & Hother).
  assert (∀ records, (job_id, records) ∉ results_table (sys_db sys)) as Hnorow.
  { intros records Hin. destruct (Hrows _ _ Hin) as (_ & j & Hj & Hdone). congruence. }
  split; cbn [sys_db job_queue].
  - intros id j. destruct (decide (id = job_id)) as [->|Hne].
    + rewrite Hrow. intros [= <-]. cbn [job_status job_error].
      destruct ((job_outcome job (job_scrape job).2).1); [done|done|tauto|done].
    + rewrite Hother by done. apply Herr.
  - intros id j. destruct (decide (id = job_id)) as [->|Hne].
    + rewrite Hrow. intros [= <-]. cbn [job_status]. intros Hst. by rewrite Hst in Hcases.
    + rewrite Hother by done. intros Hj Hst.
      pose proof (Hqueued _ _ Hj Hst) as Hin. rewrite Hq in Hin.
      by apply elem_of_cons in Hin as [?|?].
  - rewrite Htable, fmap_app. apply NoDup_app. split_and!; [done| |].
    + intros id Hid Hid'. destruct ((job_scrape job).2) as [[|r results]|msg];
        simpl in Hid'; try by apply elem_of_nil in Hid'.
      apply list_elem_of_singleton in Hid' as ->.
      apply list_elem_of_fmap in Hid as ([id records] & Heq & Hin). simpl in Heq. subst id.
      by apply (Hnorow records).
    + destruct ((job_scrape job).2) as [[|r results]|msg]; simpl;
        [apply NoDup_nil_2|apply NoDup_singleton|apply NoDup_nil_2].
  - intros id records. rewrite Htable, elem_of_app. intros [Hin|Hin].
    + destruct (Hrows _ _ Hin) as (Hne & j & Hj & Hdone). split; [done|].
      exists j. split; [|done]. rewrite Hother; [done|].
      intros ->. by apply (Hnorow records).
    + destruct ((job_scrape job).2) as [[|r results]|msg] eqn:Hout;
        try by apply elem_of_nil in Hin.
      apply list_elem_of_singleton in Hin as [= -> ->]. split; [done|].
      eexists. split; [exact Hrow|]. by cbn.
Qed.

Lemma reachable_inv_more (sys : System) : reachable sys → sys_inv sys ∧ sys_inv_more sys.
Proof.
  unfold reachable. revert sys. apply rtc_ind_r.
  - split; [apply sys_inv_init|apply sys_inv_more_init].
  - intros sys sys' _ Hstep [IH IH']. destruct Hstep.
    + split; [by apply sys_inv_create|by apply sys_inv_more_create].
    + split; [by apply sys_inv_work|by apply sys_inv_more_work].
Qed.

(** X16.  In every state the system reaches, a job has an error
    message exactly when its status is [failed]: the message is written
    only by the statements that set the status to [failed], each of
    which writes one, and a job that is queued or completed has none. *)
Theorem error_message_iff_failed (sys : System) (job_id : string) (job : Job) :
  reachable sys →
  jobs (sys_db sys) !! job_id = Some job →
  (job_status job = failed ↔ is_Some (job_error job)).
Proof.
  intros Hreach Hjob. destruct (reachable_inv_more sys Hreach) as [_ [Herr _ _ _]].
  pose proof (Herr _ _ Hjob) as He. destruct (job_status job); split; try done.
  - intros [msg Hmsg]. congruence.
  - intros [msg Hmsg]. congruence.
  - intros [msg Hmsg]. congruence.
  - intros _. destruct He as [->|[->| ->]]; by eexists.
Qed.

(** X17.  In every state the system reaches, the queue holds no
    identifier twice and holds exactly the identifiers of the jobs whose
    status is [queued]: no queued job is lost, and no job is waiting to
    be processed a second time. *)
Theorem queue_holds_queued_jobs (sys : System) :
  reachable sys →
  NoDup (job_queue sys)
  ∧ ∀ job_id, job_id ∈ job_queue sys ↔
      ∃ job, jobs (sys_db sys) !! job_id = Some job ∧ job_status job = queued.
Proof.
  intros Hreach.
  destruct (reachable_inv_more sys Hreach) as [[Hlegal Hnd Hqueue _] [_ Hqueued _ _]].
  split; [done|]. intros job_id. split.
  - intros Hin. destruct (Hqueue _ Hin) as (job & Hjob & Hhist). exists job.
    split; [done|].
    destruct (Hlegal _ _ Hjob) as [[_ ?]|[[Hh _]|[Hh _]]]; [done|congruence..].
  - intros (job & Hjob & Hst). by eapply Hqueued.
Qed.

Lemma select_results_first (d : Db) (job_id : string) :
  match select_results d job_id with
  | Some records => (job_id, records) ∈ results_table d
  | None => ∀ records, (job_id, records) ∉ results_table d
  end.
Proof.
  unfold select_results. induction (results_table d) as [|[id recs] rows IH]; simpl.
  - intros records. apply not_elem_of_nil.
  - destruct (String.eqb_spec id job_id) as [->|Hne]; simpl; [left|].
    destruct (head (List.filter _ rows)) as [[id' recs']|]; simpl in *.
    + by right.
    + intros records. apply not_elem_of_cons. split; [congruence|apply IH].
Qed.

(** X18.  In every state the system reaches, the results table has at
    most one row per job, every row belongs to a completed job and holds
    a non-empty record list; the results query returns such a list for a
    completed job and nothing for any other job. *)
Theorem results_rows_match_completed_jobs (sys : System) :
  reachable sys →
  NoDup (results_table (sys_db sys)).*1
  ∧ (∀ job_id records, (job_id, records) ∈ results_table (sys_db sys) →
       records ≠ []
       ∧ ∃ job, jobs (sys_db sys) !! job_id = Some job ∧ job_status job = completed)
  ∧ (∀ job_id job, jobs (sys_db sys) !! job_id = Some job →
       (job_status job = completed →
        ∃ records, select_results (sys_db sys) job_id = Some records ∧ records ≠ [])
       ∧ (job_status job ≠ completed → select_results (sys_db sys) job_id = None)).
Proof.
  intros Hreach.
  destruct (reachable_inv_more sys Hreach) as [[_ _ _ Hres] [_ _ Hnd Hrows]].
  split_and!; [done|done|].
  intros job_id job Hjob. pose proof (select_results_first (sys_db sys) job_id) as Hsel.
  split; intros Hdone.
  - destruct (Hres _ _ Hjob Hdone) as (records & Hin & Hne).
    destruct (select_results (sys_db sys) job_id) as [found|].
    + exists found. split; [done|]. by destruct (Hrows _ _ Hsel).
    + by destruct (Hsel records).
  - destruct (select_results (sys_db sys) job_id) as [found|]; [|done].
    destruct (Hrows _ _ Hsel) as (_ & j & Hj & Hdone'). congruence.
Qed.

Lemma worker_turns_reachable (n : nat) (sys : System) :
  reachable sys → reachable (worker_turns n sys).
Proof.
  revert sys. induction n as [|n IH]; intros sys Hreach; [done|].
  simpl. apply IH. unfold reachable. eapply rtc_r; [exact Hreach|apply step_work].
Qed.

Lemma worker_turns_queue (n : nat) (sys : System) :
  job_queue (worker_turns n sys) = drop n (job_queue sys).
Proof.
  revert sys. induction n as [|n IH]; intros sys; [done|].
  simpl. rewrite IH. unfold worker_turn.
  destruct (job_queue sys) as [|job_id rest] eqn:Hq; [|done].
  by rewrite Hq, !drop_nil.
Qed.

Lemma worker_turn_frame (sys : System) (job_id : string) :
  job_id ∉ take 1 (job_queue sys) →
  jobs (sys_db (worker_turn sys)) !! job_id = jobs (sys_db sys) !! job_id.
Proof.
  unfold worker_turn. destruct (job_queue sys) as [|front rest]; [done|].
  simpl. intros Hne. apply not_elem_of_cons in Hne as [Hne _].
  unfold process_job. destruct (jobs (sys_db sys) !! front) as [job|]; [|done].
  destruct (scrape_url _ _ _ _ _) as [events [[|r results]|msg]]; simpl;
    by rewrite !lookup_alter_ne.
Qed.

Lemma worker_turn_dom (sys : System) (job_id : string) :
  is_Some (jobs (sys_db (worker_turn sys)) !! job_id)
  ↔ is_Some (jobs (sys_db sys) !! job_id).
Proof.
  unfold worker_turn. destruct (job_queue sys) as [|front rest]; [done|].
  simpl. unfold process_job. destruct (jobs (sys_db sys) !! front) as [job|] eqn:Hf; [|done].
  destruct (scrape_url _ _ _ _ _) as [events [[|r results]|msg]]; simpl;
    rewrite ?lookup_alter_is_Some; done.
Qed.

Lemma worker_turns_frame (n : nat) (sys : System) (job_id : string) :
  job_id ∉ job_queue sys →
  jobs (sys_db (worker_turns n sys)) !! job_id = jobs (sys_db sys) !! job_id.
Proof.
  revert sys. induction n as [|n IH]; intros sys Hnot; [done|].
  simpl. rewrite IH.
  - apply worker_turn_frame. intros Hin. apply Hnot.
    by eapply elem_of_sublist; [|apply sublist_take].
  - pose proof (worker_turns_queue 1 sys) as Hq. simpl in Hq. rewrite Hq.
    intros Hin. apply Hnot. by eapply elem_of_sublist; [|apply sublist_drop].
Qed.

Lemma worker_turns_dom (n : nat) (sys : System) (job_id : string) :
  is_Some (jobs (sys_db (worker_turns n sys)) !! job_id)
  ↔ is_Some (jobs (sys_db sys) !! job_id).
Proof.
  revert sys. induction n as [|n IH]; intros sys; [done|].
  simpl. by rewrite IH, worker_turn_dom.
Qed.

(** X19.  From a reachable state, as many turns of the worker as the
    queue is long empty the queue: afterwards every job is [completed]
    or [failed], no job has appeared or disappeared, and the jobs that
    were not in the queue are exactly as they were. *)
Theorem worker_drains_queue (sys : System) :
  reachable sys →
  let sys' := worker_turns (length (job_queue sys)) sys in
  job_queue sys' = []
  ∧ (∀ job_id job, jobs (sys_db sys') !! job_id = Some job →
       job_status job = completed ∨ job_status job = failed)
  ∧ (∀ job_id, is_Some (jobs (sys_db sys') !! job_id)
               ↔ is_Some (jobs (sys_db sys) !! job_id))
  ∧ (∀ job_id, job_id ∉ job_queue sys →
       jobs (sys_db sys') !! job_id = jobs (sys_db sys) !! job_id).
Proof.
  intros Hreach sys'.
  assert (job_queue sys' = []) as Hempty.
  { subst sys'. rewrite worker_turns_queue. by apply drop_all. }
  pose proof (worker_turns_reachable (length (job_queue sys)) sys Hreach) as Hreach'.
  fold sys' in Hreach'.
  destruct (reachable_inv_more sys' Hreach') as [[Hlegal _ _ _] [_ Hqueued _ _]].
  split_and!; [done| | |].
  - intros job_id job Hjob.
    destruct (Hlegal _ _ Hjob) as [[_ Hst]|[[_ Hst]|[_ Hst]]]; [|by left|by right].
    pose proof (Hqueued _ _ Hjob Hst) as Hin. rewrite Hempty in Hin.
    by apply elem_of_nil in Hin.
  - intros job_id. apply worker_turns_dom.
  - intros job_id. apply worker_turns_frame.
Qed.


End RunnerExtras.

(** ** The further properties on the example network *)

Section ShopRuns.
#[local] Existing Instance Worlds.shop_network.

Lemma auto_job_completes_witness :
  jobs (Worlds.db_with "job1" (Worlds.queued_job Worlds.page_1 (Some 2%Z))) !! "job1"
    = Some (Worlds.queued_job Worlds.page_1 (Some 2%Z))
  ∧ requests_get Worlds.page_1 = Some Worlds.listing_page
  ∧ ∃ job',
      jobs (process_job (Worlds.db_with "job1" (Worlds.queued_job Worlds.page_1 (Some 2%Z)))
              "job1").1 !! "job1" = Some job'
      ∧ job_status job' = completed.
Proof.
  assert (jobs (Worlds.db_with "job1" (Worlds.queued_job Worlds.page_1 (Some 2%Z)))
            !! "job1" = Some (Worlds.queued_job Worlds.page_1 (Some 2%Z))) as Hjob
    by apply lookup_singleton_eq.
  assert (requests_get Worlds.page_1 = Some Worlds.listing_page) as Hget by reflexivity.
  split_and!; [exact Hjob|exact Hget|].
  destruct (auto_job_completes _ "job1" _ Worlds.listing_page Hjob) as (_ & job' & Hjob' & Hdone & _).
  - vm_compute. reflexivity.
  - vm_compute. reflexivity.
  - exact Hget.
  - intros n [= <-]. lia.
  - left. simpl. discriminate.
  - by exists job'.
Defined.

Lemma shop_two_requests_reachable : reachable Runs.shop_two_requests.
Proof.
  unfold reachable, Runs.shop_two_requests.
  eapply rtc_l; [apply step_create|]. apply rtc_once, step_create.
Qed.

Lemma shop_two_processed_reachable : reachable Runs.shop_two_processed.
Proof. apply worker_turns_reachable, shop_two_requests_reachable. Qed.

Lemma queue_holds_queued_jobs_witness :
  reachable Runs.shop_two_requests
  ∧ job_queue Runs.shop_two_requests = ["job1"; "job2"]
  ∧ NoDup (job_queue Runs.shop_two_requests).
Proof.
  pose proof shop_two_requests_reachable as Hreach.
  split_and!; [exact Hreach|vm_compute; reflexivity|].
  exact (proj1 (queue_holds_queued_jobs Runs.shop_two_requests Hreach)).
Defined.

Lemma worker_drains_queue_witness :
  reachable Runs.shop_two_requests
  ∧ length (job_queue Runs.shop_two_requests) = 2
  ∧ job_queue Runs.shop_two_processed = [].
Proof.
  pose proof shop_two_requests_reachable as Hreach.
  split_and!; [exact Hreach|vm_compute; reflexivity|].
  exact (proj1 (worker_drains_queue Runs.shop_two_requests Hreach)).
Defined.

Lemma error_message_iff_failed_witness :
  reachable Runs.shop_two_processed
  ∧ ∃ job,
      jobs (sys_db Runs.shop_two_processed) !! "job2" = Some job
      ∧ job_status job = failed
      ∧ is_Some (job_error job).
Proof.
  pose proof shop_two_processed_reachable as Hreach.
  split; [exact Hreach|].
  destruct (jobs (sys_db Runs.shop_two_processed) !! "job2") as [job|] eqn:Hjob;
    [|by vm_compute in Hjob].
  exists job. split; [done|].
  assert (job_status job = failed) as Hst
    by (vm_compute in Hjob; by injection Hjob as <-).
  split; [exact Hst|].
  by apply (error_message_iff_failed Runs.shop_two_processed "job2" job Hreach Hjob).
Defined.

Lemma results_rows_match_completed_jobs_witness :
  reachable Runs.shop_two_processed
  ∧ NoDup (results_table (sys_db Runs.shop_two_processed)).*1
  ∧ select_results (sys_db Runs.shop_two_processed) "job1"
    = Some [ [("Name", VStr "Widget"); ("Price", VStr "9.99")];
             [("Name", VStr "Gadget"); ("Price", VStr "19.99")] ]
  ∧ select_results (sys_db Runs.shop_two_processed) "job2" = None.
Proof.
  pose proof shop_two_processed_reachable as Hreach.
  split_and!; [exact Hreach| |vm_compute; reflexivity..].
  exact (proj1 (results_rows_match_completed_jobs Runs.shop_two_processed Hreach)).
Defined.

End ShopRuns.

(** ** Accounts *)

Section AccountProofs.
Context `{AuthLib}.

Lemma find_user_by_email_app (users : list User) (u : User) (email : string) :
  find_user_by_email (users ++ [u]) email =
  match find_user_by_email users email with
  | Some x => Some x
  | None => if String.eqb (user_email u) email then Some u else None
  end.
Proof.
  unfold find_user_by_email.
  induction users as [|x xs IH]; simpl; [done|].
  by destruct (String.eqb (user_email x) email).
Qed.

Lemma find_user_by_email_None (users : list User) (email : string) :
  find_user_by_email users email = None ↔ email ∉ (user_email <$> users).
Proof.
  unfold find_user_by_email.
  induction users as [|x xs IH]; simpl.
  - split; [intros _; apply not_elem_of_nil|done].
  - rewrite not_elem_of_cons.
    destruct (String.eqb_spec (user_email x) email) as [Heq|Hne].
    + split; [done|]. intros [Hne _]. by destruct Hne.
    + rewrite IH. naive_solver.
Qed.


Lemma user_id_taken (users : list User) (new_id : string) :
  existsb (λ u, String.eqb (user_id u) new_id) users = false
  ↔ new_id ∉ (user_id <$> users).
Proof.
  induction users as [|x xs IH]; simpl.
  - split; [intros _; apply not_elem_of_nil|done].
  - rewrite not_elem_of_cons, orb_false_iff, IH.
    destruct (String.eqb_spec (user_id x) new_id) as [Heq|Hne]; naive_solver.
Qed.

(** Every registration either leaves the table alone and answers 400 or
    500, or passes every check and appends one row. *)
Lemma register_cases (email password : option string) (new_id : string)
  (users : list User) :
  ((register email password new_id users).1 = users
   ∧ ((register email password new_id users).2.1 = 400
      ∨ (register email password new_id users).2.1 = 500))
  ∨ (∃ e p,
        email = Some e ∧ password = Some p
        ∧ e ≠ "" ∧ email_matches e = true ∧ (6 ≤ py_len p)%nat
        ∧ (e ∉ (user_email <$> users)) ∧ (new_id ∉ (user_id <$> users))
        ∧ register email password new_id users
          = (users ++ [{| user_id := new_id; user_email := e;
                          password_hash := hash_password p |}],
             (201, MessageReply "Registration successful"))).
Proof.
  unfold register.
  destruct email as [e|], password as [p|]; try (left; split; [done|by left]).
  destruct (str_truthy e) eqn:He; simpl; [|left; split; [done|by left]].
  destruct (str_truthy p) eqn:Hp; simpl; [|left; split; [done|by left]].
  destruct (email_matches e) eqn:Hm; simpl; [|left; split; [done|by left]].
  destruct (Nat.ltb_spec (py_len p) 6) as [Hlt|Hge];
    [left; split; [done|by left]|].
  destruct (find_user_by_email users e) as [u|] eqn:Hfind;
    [left; split; [done|by left]|].
  destruct (existsb _ users) eqn:Hid; [left; split; [done|by right]|].
  right. exists e, p.
  split_and!; try done.
  - by apply str_truthy_true.
  - by apply find_user_by_email_None.
  - by apply user_id_taken.
Qed.



(** X22. In every table that registrations lead to from the empty one, no
    two rows share an address and no two rows share an identifier; every
    row's address is not empty and matches the pattern, and every row's
    stored digest is the digest of some password of at least 6
    characters. *)
Theorem registered_accounts_unique (users : list User) :
  registered users →
  NoDup (user_email <$> users)
  ∧ NoDup (user_id <$> users)
  ∧ Forall (λ u, user_email u ≠ "" ∧ email_matches (user_email u) = true
                 ∧ ∃ p, (6 ≤ py_len p)%nat
                        ∧ password_hash u = hash_password p) users.
Proof.
  induction 1 as [|users email password new_id Hreg (IHe & IHi & IHrows)].
  - split_and!; [apply NoDup_nil_2..|apply Forall_nil_2].
  - destruct (register_cases email password new_id users)
      as [[Hsame _]|(e & p & -> & -> & He & Hm & Hlen & Hfresh & Hid & Hout)].
    + by rewrite Hsame.
    + rewrite Hout. simpl. rewrite !fmap_app. simpl.
      split_and!.
      * apply NoDup_app. split_and!; [done| |apply NoDup_singleton].
        intros x Hx Hx'. apply list_elem_of_singleton in Hx'. by subst x.
      * apply NoDup_app. split_and!; [done| |apply NoDup_singleton].
        intros x Hx Hx'. apply list_elem_of_singleton in Hx'. by subst x.
      * apply Forall_app. split; [done|].
        apply Forall_singleton. simpl. split_and!; [done..|by exists p].
Qed.

(** Later registrations keep the row that a lookup by address finds. *)
Lemma grown_from_find (users later : list User) (email : string) (u : User) :
  grown_from users later →
  find_user_by_email users email = Some u →
  find_user_by_email later email = Some u.
Proof.
  intros Hgrown Hfind.
  induction Hgrown as [|later e' p' id' _ IH]; [done|].
  destruct (register_cases e' p' id' later)
    as [[Hsame _]|(e & p & _ & _ & _ & _ & _ & _ & _ & Hout)].
  - by rewrite Hsame.
  - rewrite Hout. simpl. by rewrite find_user_by_email_app, IH.
Qed.

(** X23. After a registration that answered 201, and after any number
    of further registrations, [login] with the same address and password
    answers 200 with the token of the identifier drawn at registration;
    with any non-empty password whose digest differs it answers 401
    [Invalid credentials]. *)
Theorem register_then_login (e p new_id : string) (users later : list User) :
  (register (Some e) (Some p) new_id users).2.1 = 201 →
  grown_from (register (Some e) (Some p) new_id users).1 later →
  login (Some e) (Some p) later
  = (200, LoginReply (generate_token new_id) new_id e)
  ∧ ∀ p', p' ≠ "" → hash_password p' ≠ hash_password p →
      login (Some e) (Some p') later = (401, ErrorReply "Invalid credentials").
Proof.
  intros H201 Hgrown.
  destruct (register_cases (Some e) (Some p) new_id users)
    as [[_ Hcode]|(e0 & p0 & [= <-] & [= <-] & He & Hm & Hlen & Hfresh & Hid & Hout)].
  { destruct Hcode as [Hc|Hc]; rewrite Hc in H201; discriminate. }
  rewrite Hout in Hgrown. simpl in Hgrown.
  set (row := {| user_id := new_id; user_email := e;
                 password_hash := hash_password p |}) in *.
  assert (find_user_by_email later e = Some row) as Hfind.
  { apply (grown_from_find _ _ _ _ Hgrown).
    rewrite find_user_by_email_app.
    apply find_user_by_email_None in Hfresh. rewrite Hfresh.
    simpl. by rewrite String.eqb_refl. }
  apply str_truthy_true in He.
  split.
  - unfold login. rewrite He. simpl.
    assert (str_truthy p = true) as ->
      by (destruct p; [simpl in Hlen; lia|done]).
    simpl. rewrite Hfind. simpl. by rewrite String.eqb_refl.
  - intros p' Hp' Hdiff. unfold login. rewrite He. simpl.
    apply str_truthy_true in Hp'. rewrite Hp'. simpl.
    rewrite Hfind. simpl.
    by destruct (String.eqb_spec (hash_password p') (hash_password p)).
Qed.


Lemma py_split_head (sep : ascii) (s : string) :
  ∃ others, py_split sep s = before_char sep s :: others.
Proof.
  induction s as [|c s [others IH]]; simpl; [by exists []|].
  rewrite IH. destruct (Ascii.eqb c sep); eauto.
Qed.

Lemma bearer_token (rest : string) :
  nth 1 (py_split " "%char ("Bearer " +:+ rest)) "" = before_char " "%char rest.
Proof.
  destruct (py_split_head " "%char rest) as [others Hs].
  change ("Bearer " +:+ rest)
    with (String "B" (String "e" (String "a" (String "r" (String "e"
           (String "r" (String " " rest))))))).
  cbn. by rewrite Hs.
Qed.

Lemma string_app_cons (c : ascii) (a b : string) :
  String c a +:+ b = String c (a +:+ b).
Proof. reflexivity. Qed.

(** X25. [require_auth] answers 401 [Authentication required] without
    calling the handler when there is no [Authorization] header or the
    header does not start with [Bearer ]. For a header [Bearer ] followed
    by [rest], the token that is verified is [rest] up to its first
    space, whatever follows; the handler is called, with the user
    identifier of the token, exactly when the token verifies to a
    non-empty identifier, and the answer is 401 [Invalid or expired token]
    otherwise. *)
Theorem require_auth_guards_handler (f : string → response) :
  require_auth f None = UNAUTHENTICATED
  ∧ (∀ header, String.prefix "Bearer " header = false →
       require_auth f (Some header) = UNAUTHENTICATED)
  ∧ (∀ rest,
       require_auth f (Some ("Bearer " +:+ rest)) =
       match verify_token (before_char " "%char rest) with
       | Some uid => if str_truthy uid then f uid else BAD_TOKEN
       | None => BAD_TOKEN
       end)
  ∧ (∀ rest tail,
       require_auth f (Some ("Bearer " +:+ before_char " "%char rest +:+ " " +:+ tail))
       = require_auth f (Some ("Bearer " +:+ before_char " "%char rest))).
Proof.
  assert (∀ rest,
       require_auth f (Some ("Bearer " +:+ rest)) =
       match verify_token (before_char " "%char rest) with
       | Some uid => if str_truthy uid then f uid else BAD_TOKEN
       | None => BAD_TOKEN
       end) as Hbearer.
  { intros rest. unfold require_auth.
    rewrite bearer_token.
    replace (String.prefix "Bearer " ("Bearer " +:+ rest)) with true
      by (by destruct rest).
    done. }
  assert (∀ s tail, before_char " "%char (before_char " "%char s +:+ " " +:+ tail)
                    = before_char " "%char s) as Hcut.
  { intros s tail. induction s as [|c s IH]; [done|].
    simpl. destruct (Ascii.eqb_spec c " "%char) as [->|Hc]; [done|].
    rewrite string_app_cons. simpl.
    destruct (Ascii.eqb_spec c " "%char); [done|]. by f_equal. }
  assert (∀ s, before_char " "%char (before_char " "%char s)
               = before_char " "%char s) as Hidem.
  { intros s. induction s as [|c s IH]; [done|].
    simpl. destruct (Ascii.eqb_spec c " "%char) as [->|Hc]; [done|].
    simpl. destruct (Ascii.eqb_spec c " "%char); [done|]. by f_equal. }
  split_and!.
  - done.
  - intros header Hprefix. unfold require_auth.
    rewrite Hprefix. simpl. by rewrite orb_true_r.
  - exact Hbearer.
  - intros rest tail. by rewrite !Hbearer, Hcut, Hidem.
Qed.

End AccountProofs.

Section DeskAccounts.
#[local] Existing Instance Desk.auth_lib.

Lemma both_registered_reachable : registered Desk.both_registered.
Proof. do 2 apply registered_more. apply registered_nil. Qed.

Lemma registered_accounts_unique_witness :
  registered Desk.both_registered
  ∧ length Desk.both_registered = 2
  ∧ NoDup (user_email <$> Desk.both_registered)
  ∧ NoDup (user_id <$> Desk.both_registered).
Proof.
  pose proof both_registered_reachable as Hreg.
  destruct (registered_accounts_unique Desk.both_registered Hreg) as (He & Hi & _).
  split_and!; [exact Hreg|reflexivity|exact He|exact Hi].
Defined.

Lemma register_then_login_witness :
  (register (Some "ann@example.org") (Some "hunter22") "u1" []).2.1 = 201
  ∧ grown_from Desk.ann_registered Desk.both_registered
  ∧ login (Some "ann@example.org") (Some "hunter22") Desk.both_registered
    = (200, LoginReply "jwt:u1" "u1" "ann@example.org")
  ∧ login (Some "ann@example.org") (Some "hunter23") Desk.both_registered
    = (401, ErrorReply "Invalid credentials").
Proof.
  assert ((register (Some "ann@example.org") (Some "hunter22") "u1" []).2.1 = 201)
    as H201 by reflexivity.
  assert (grown_from Desk.ann_registered Desk.both_registered) as Hgrown
    by (apply grown_more, grown_refl).
  destruct (register_then_login "ann@example.org" "hunter22" "u1" []
              Desk.both_registered H201 Hgrown) as [Hok Hbad].
  split_and!; [exact H201|exact Hgrown|exact Hok|].
  apply Hbad; [done|]. vm_compute. discriminate.
Defined.

End DeskAccounts.
